(** * Echomancer: the audiobook synthesis task

    A shallow embedding of the Trigger.dev task [generate-audiobook]
    (its two deployed variants: the one that extracts text with pdf-parse
    and the one that extracts it with regular expressions) and of its
    helpers [updateJob] and [splitText].

    JavaScript strings are sequences of UTF-16 code units; the external
    collaborators (Supabase storage and tables, Replicate, [fetch], the
    PDF parser) are oracles gathered in a record, and a run of the task
    is a computation in a small exception monad that appends to a trace
    of the calls it makes. *)

From Stdlib Require Import String Ascii.
From Stdlib Require Import List ZArith NArith Lia Bool Arith.
From Stdlib Require Import Numbers.DecimalString.
Import ListNotations.

(* ================================================================== *)
(** ** JavaScript strings *)

Module JS.

(** A string is a list of UTF-16 code units. *)
Definition codeunit := N.
Definition str := list codeunit.
Definition bytes := list N.

(** A literal of the source, written as a Rocq string. *)
Definition lit (s : string) : str := map N_of_ascii (list_ascii_of_string s).

Definition sp : codeunit := 32%N.

(** [\s] of a regular expression without the [u] flag, which is also the
    set [String.prototype.trim] strips: WhiteSpace and LineTerminator. *)
Definition is_ws (c : codeunit) : bool :=
  ((9 <=? c) && (c <=? 13) || (c =? 32) || (c =? 160) || (c =? 5760)
   || (8192 <=? c) && (c <=? 8202) || (c =? 8232) || (c =? 8233)
   || (c =? 8239) || (c =? 8287) || (c =? 12288) || (c =? 65279))%N.

(** The class [[.!?]]. *)
Definition is_punct (c : codeunit) : bool :=
  ((c =? 46) || (c =? 33) || (c =? 63))%N.

Definition starts_ws (s : str) : bool :=
  match s with
  | [] => false
  | c :: _ => is_ws c
  end.

(** [s.length], as a number. *)
Definition len (s : str) : Z := Z.of_nat (length s).

(** Truthiness of a string: only the empty string is falsy. *)
Definition truthy (s : str) : bool :=
  match s with
  | [] => false
  | _ :: _ => true
  end.

Fixpoint trimStart (s : str) : str :=
  match s with
  | [] => []
  | c :: r => if is_ws c then trimStart r else s
  end.

Fixpoint trimEnd (s : str) : str :=
  match s with
  | [] => []
  | c :: r =>
      match trimEnd r with
      | [] => if is_ws c then [] else [c]
      | r' => c :: r'
      end
  end.

(** [s.trim()]. *)
Definition trim (s : str) : str := trimEnd (trimStart s).

(** [s.slice(0, e)] for an integer [e]: a negative end counts from the
    end of the string, and the bounds are clamped to the string. *)
Definition slice0 (s : str) (e : Z) : str :=
  let to := if (e <? 0)%Z then Z.max (len s + e) 0 else Z.min e (len s) in
  firstn (Z.to_nat to) s.

(** [s.split(/(?<=[.!?])\s+/)]: the separators are the whitespace runs
    that follow one of [.], [!], [?]; a run is taken whole ([\s+] is
    greedy), and the piece after the last separator is always returned,
    so the result is never the empty array.  [insep] tells that the
    scan is inside a separator. *)
Fixpoint split_sentences_from (insep : bool) (s : str) : list str :=
  match s with
  | [] => [[]]
  | c :: r =>
      if insep && is_ws c then split_sentences_from true r
      else if is_punct c && starts_ws r then [c] :: split_sentences_from true r
      else match split_sentences_from false r with
           | p :: ps => (c :: p) :: ps
           | [] => [[c]]
           end
  end.

Definition split_sentences (s : str) : list str := split_sentences_from false s.

(** [a.join(" ")]. *)
Fixpoint join_sp (l : list str) : str :=
  match l with
  | [] => []
  | [x] => x
  | x :: rest => x ++ sp :: join_sp rest
  end.

(** [s.replace(/\s+/g, " ")]: every maximal whitespace run becomes one
    space.  [inrun] tells that the scan is inside a run. *)
Fixpoint collapse_from (inrun : bool) (s : str) : str :=
  match s with
  | [] => []
  | c :: r =>
      if is_ws c then (if inrun then collapse_from true r else sp :: collapse_from true r)
      else c :: collapse_from false r
  end.

Definition collapse_ws (s : str) : str := collapse_from false s.

(** [s.replace(/\s+/g, " ").trim()], the whitespace normalisation the
    regex variant of the task applies to the text it extracts. *)
Definition normalize_ws (s : str) : str := trim (collapse_ws s).

(** The words of a string: its maximal runs of characters that are not
    whitespace.  Two strings have the same whitespace normalisation
    exactly when they have the same words. *)
Fixpoint words (s : str) : list str :=
  match s with
  | [] => []
  | c :: r =>
      if is_ws c then words r
      else if starts_ws r then [c] :: words r
      else match words r with
           | w :: ws => (c :: w) :: ws
           | [] => [[c]]
           end
  end.

(** A string is blank when it is empty or made of whitespace only. *)
Definition blank (s : str) : bool := forallb is_ws s.

(** [String(n)] for a natural number. *)
Definition of_nat (n : nat) : str := lit (NilEmpty.string_of_uint (Nat.to_uint n)).

(** [a.join(",")], which is what [String(a)] is for a typed array. *)
Fixpoint join_comma (l : list str) : str :=
  match l with
  | [] => []
  | [x] => x
  | x :: rest => x ++ 44%N :: join_comma rest
  end.

(** Truthiness of a [string | null]. *)
Definition truthy_opt (o : option str) : bool :=
  match o with
  | Some s => truthy s
  | None => false
  end.

(** [Buffer.concat(bufs)]. *)
Definition Buffer_concat (bufs : list bytes) : bytes := concat bufs.

End JS.

(* ================================================================== *)
(** ** Values exchanged with the collaborators *)

Module Task.
Import JS.

(** The [status] column of the [jobs] table. *)
Inductive Status := queued | processing | ready | failed.

(** The object handed to [updateJob].  The [updated_at] time stamp that
    [updateJob] adds is wall-clock time and is left out. *)
Record JobUpdate := mkUpdate {
  u_status : option Status;
  u_progress : option Z;
  u_error : option str;
  u_audio_storage_path : option str
}.

(** A thrown value: an [Error] with its message, or anything else with
    its [String(...)] image. *)
Inductive Thrown :=
| JsError (message : str)
| JsValue (shown : str).

Inductive Result (A : Type) :=
| Ok (a : A)
| Throw (e : Thrown).
Arguments Ok {A} a.
Arguments Throw {A} e.

(** What [replicate.run] resolves to: a string, an object with a [url]
    property, a byte payload (a [Uint8Array]), or any other value, kept
    with its [String(...)] image. *)
Inductive Output :=
| OutString (s : str)
| OutUrlObject (url : str)
| OutBytes (b : bytes)
| OutOther (shown : str).

(** [String(output)]. *)
Definition String_of (o : Output) : str :=
  match o with
  | OutString s => s
  | OutUrlObject _ => lit "[object Object]"
  | OutBytes b => join_comma (map (fun x => of_nat (N.to_nat x)) b)
  | OutOther shown => shown
  end.

(** A [Response]: its [ok] flag and its body. *)
Record Response := mkResponse { r_ok : bool; r_body : bytes }.

Record GenerateAudiobookPayload := mkPayload {
  jobId : str;
  pdfStoragePath : str;
  voiceStoragePath : option str;
  videoId : option str;
  startTime : Z;
  endTime : Z
}.

(** The collaborators.  A service may answer the same request
    differently over time, so [replicate.run] and [fetch] are given the
    index of the chunk they are called for, and the [jobs] table the
    number of updates made before. *)
Record World := mkWorld {
  env_F5TTS_MODEL : option str;
  storage_download : str -> option bytes * option str;
  PDFParse_getText : bytes -> Result str;
  storage_getPublicUrl : str -> str;
  replicate_run : nat -> str -> str -> str -> Result Output;
  fetch : nat -> str -> Result Response;
  storage_upload : str -> bytes -> option str;
  jobs_update : nat -> str -> JobUpdate -> option str
}.

(** The calls a run makes, in the order it makes them ([logger.info]
    lines are not recorded). *)
Inductive Event :=
| EvUpdate (id : str) (u : JobUpdate)
| EvWarn (id : str) (error : str)
| EvLogError (id : str) (error : str)
| EvDownload (path : str)
| EvGetText (data : bytes)
| EvRun (i : nat) (model gen_text ref_audio : str)
| EvFetch (i : nat) (url : str)
| EvUpload (path : str) (data : bytes).

(** What the [run] function resolves to. *)
Record Success := mkSuccess { s_jobId : str; s_outputPath : str }.

(** An asynchronous computation: it extends the trace and either
    resolves to a value or rejects with a thrown value. *)
Definition M (A : Type) : Type := list Event -> Result A * list Event.

Definition ret {A} (a : A) : M A := fun t => (Ok a, t).

Definition bind {A B} (m : M A) (f : A -> M B) : M B :=
  fun t => match m t with
           | (Ok a, t') => f a t'
           | (Throw e, t') => (Throw e, t')
           end.

Definition throw {A} (e : Thrown) : M A := fun t => (Throw e, t).

Definition lift {A} (r : Result A) : M A := fun t => (r, t).

Definition emit (ev : Event) : M unit := fun t => (Ok tt, t ++ [ev]).

Definition try_catch {A} (m : M A) (h : Thrown -> M A) : M A :=
  fun t => match m t with
           | (Ok a, t') => (Ok a, t')
           | (Throw e, t') => h e t'
           end.

Definition is_update (ev : Event) : bool :=
  match ev with
  | EvUpdate _ _ => true
  | _ => false
  end.

(** The number of updates of the [jobs] table made so far. *)
Definition updates_so_far : M nat :=
  fun t => (Ok (length (filter is_update t)), t).

Declare Scope task_scope.
Delimit Scope task_scope with task.
Notation "x <- m ;; f" := (bind m (fun x => f))
  (at level 61, m at next level, right associativity) : task_scope.
Notation "m ;; f" := (bind m (fun _ => f))
  (at level 61, right associativity) : task_scope.

(** [Math.floor((k / n) * 50)] on doubles, for [1 <= k <= n] (the loop
    computes it for [k = i + 1] and [n = chunks.length]).  The quotient
    and the product are rounded, so the value is not always the floor of
    the exact [50 * k / n]; what is known of it is that rounding is
    monotone and keeps a ratio of [0 < k <= n] within [0, 1]. *)
Class FloorRatio := {
  floor_ratio50 : nat -> nat -> Z;
  floor_ratio50_mono : forall k k' n,
    (1 <= k)%nat -> (k <= k')%nat -> (k' <= n)%nat ->
    (floor_ratio50 k n <= floor_ratio50 k' n)%Z;
  floor_ratio50_range : forall k n,
    (1 <= k <= n)%nat -> (0 <= floor_ratio50 k n <= 50)%Z
}.

End Task.

(* ================================================================== *)
(** ** The task, pdf-parse variant *)

Module PdfParseTask.
Import JS Task.
Local Open Scope task_scope.

(** One turn of the [for (const sentence of sentences)] loop, on the pair
    of the mutable [chunks] and [current]. *)
Definition splitText_step (maxChars : Z) (st : list str * str) (sentence : str)
  : list str * str :=
  let '(chunks, current) := st in
  if negb (truthy (trim sentence)) then st
  else if (len current + len sentence + 1 <=? maxChars)%Z
       then (chunks, current ++ sentence ++ [sp])
       else ((if truthy (trim current) then chunks ++ [trim current] else chunks),
             sentence ++ [sp]).

Definition splitText (text : str) (maxChars : Z) : list str :=
  let sentences := split_sentences text in
  let '(chunks, current) := fold_left (splitText_step maxChars) sentences ([], []) in
  let chunks := if truthy (trim current) then chunks ++ [trim current] else chunks in
  if (0 <? Z.of_nat (length chunks))%Z then chunks else [slice0 text maxChars].

Definition updateJob (w : World) (jobId : str) (updates : JobUpdate) : M unit :=
  n <- updates_so_far ;;
  emit (EvUpdate jobId updates) ;;
  match jobs_update w n jobId updates with
  | Some message => emit (EvWarn jobId message)
  | None => ret tt
  end.

Definition progress_only (p : Z) : JobUpdate := mkUpdate None (Some p) None None.

Definition default_model : str :=
  lit "x-lance/f5-tts:87faf6dd7a692dd82043f662e76369cab126a2cf1937e25a9d41e0b834fd230e".

Definition maxChunkChars : Z := 4000.

(** [process.env.F5TTS_MODEL || "x-lance/f5-tts:..."]. *)
Definition f5ttsModel (w : World) : str :=
  if truthy_opt (env_F5TTS_MODEL w)
  then match env_F5TTS_MODEL w with Some m => m | None => [] end
  else default_model.

(** [`output/${jobId}/audiobook.wav`]. *)
Definition outputPath (id : str) : str := lit "output/" ++ id ++ lit "/audiobook.wav".

(** The error message of the [catch] block. *)
Definition error_message (error : Thrown) : str :=
  match error with
  | JsError message => message
  | JsValue shown => shown
  end.

(** Step 2: download the PDF and extract its text. *)
Definition extract_text (w : World) (path : str) : M str :=
  emit (EvDownload path) ;;
  let '(pdfData, pdfError) := storage_download w path in
  pdfBuffer <- match pdfError, pdfData with
               | None, Some data => ret data
               | _, _ =>
                   throw (JsError (lit "Failed to download PDF: " ++
                                   match pdfError with
                                   | Some message => message
                                   | None => lit "undefined"
                                   end))
               end ;;
  emit (EvGetText pdfBuffer) ;;
  text <- lift (PDFParse_getText w pdfBuffer) ;;
  if negb (truthy (trim text))
  then throw (JsError (lit "Could not extract text from PDF. Is it a scanned document?"))
  else ret text.

(** Step 3: the URL of the voice sample. *)
Definition voice_file_url (w : World) (voiceStoragePath videoId : option str) : M str :=
  if truthy_opt voiceStoragePath
  then ret (storage_getPublicUrl w (match voiceStoragePath with Some p => p | None => [] end))
  else if truthy_opt videoId
  then throw (JsError (lit
    "YouTube audio extraction requires yt-dlp. Please upload a voice sample directly for now."))
  else throw (JsError (lit "No voice sample provided")).

(** The URL the generated audio is downloaded from. *)
Definition audio_url (output : Output) : str :=
  match output with
  | OutString s => s
  | OutUrlObject url => url
  | _ => String_of output
  end.

(** The body of the [for] loop up to [audioSegments.push]: call F5-TTS
    for chunk [i] and download what it generated. *)
Definition chunk_audio (w : World) (model voiceFileUrl : str) (i : nat) (chunk : str)
  : M bytes :=
  emit (EvRun i model chunk voiceFileUrl) ;;
  output <- lift (replicate_run w i model chunk voiceFileUrl) ;;
  let audioUrl := audio_url output in
  emit (EvFetch i audioUrl) ;;
  audioRes <- lift (fetch w i audioUrl) ;;
  if negb (r_ok audioRes)
  then throw (JsError (lit "Failed to download generated audio for chunk " ++ of_nat (i + 1)))
  else ret (r_body audioRes).

Section WithArithmetic.
Context {FR : FloorRatio}.

(** [35 + Math.floor(((i + 1) / chunks.length) * 50)]. *)
Definition chunkProgress (i n : nat) : Z := (35 + floor_ratio50 (i + 1) n)%Z.

(** The [for (let i = 0; i < chunks.length; i++)] loop, from index [i]
    on, [rest] being the chunks from [i] and [n] being [chunks.length]. *)
Fixpoint synth_loop (w : World) (id model voiceFileUrl : str) (n i : nat)
  (rest : list str) (audioSegments : list bytes) : M (list bytes) :=
  match rest with
  | [] => ret audioSegments
  | chunk :: rest' =>
      audioBuffer <- chunk_audio w model voiceFileUrl i chunk ;;
      updateJob w id (progress_only (chunkProgress i n)) ;;
      synth_loop w id model voiceFileUrl n (S i) rest' (audioSegments ++ [audioBuffer])
  end.

(** The [try] block. *)
Definition run_body (w : World) (payload : GenerateAudiobookPayload) : M Success :=
  let id := jobId payload in
  updateJob w id (mkUpdate (Some processing) (Some 5%Z) None None) ;;
  updateJob w id (progress_only 10) ;;
  text <- extract_text w (pdfStoragePath payload) ;;
  updateJob w id (progress_only 25) ;;
  voiceFileUrl <- voice_file_url w (voiceStoragePath payload) (videoId payload) ;;
  updateJob w id (progress_only 35) ;;
  let chunks := splitText text maxChunkChars in
  audioSegments <-
    synth_loop w id (f5ttsModel w) voiceFileUrl (length chunks) 0 chunks [] ;;
  updateJob w id (progress_only 90) ;;
  let fullAudio := Buffer_concat audioSegments in
  emit (EvUpload (outputPath id) fullAudio) ;;
  match storage_upload w (outputPath id) fullAudio with
  | Some message => throw (JsError (lit "Failed to upload audiobook: " ++ message))
  | None =>
      updateJob w id (mkUpdate (Some ready) (Some 100%Z) None (Some (outputPath id))) ;;
      ret (mkSuccess id (outputPath id))
  end.

(** The [run] function of the task. *)
Definition run (w : World) (payload : GenerateAudiobookPayload) : M Success :=
  try_catch (run_body w payload)
    (fun error =>
       let errorMessage := error_message error in
       emit (EvLogError (jobId payload) errorMessage) ;;
       updateJob w (jobId payload) (mkUpdate (Some failed) None (Some errorMessage) None) ;;
       throw error).

(** A run of the task from the empty trace. *)
Definition generateAudiobook (w : World) (payload : GenerateAudiobookPayload)
  : Result Success * list Event :=
  run w payload [].

End WithArithmetic.

End PdfParseTask.

(* ================================================================== *)
(** ** The chunker of the regex-extraction variant *)

Module RegexTask.
Import JS.

Definition splitText_step (maxChars : Z) (st : list str * str) (sentence : str)
  : list str * str :=
  let '(chunks, current) := st in
  if negb (truthy (trim sentence)) then st
  else if (len current + len sentence + 1 <=? maxChars)%Z
       then (chunks, current ++ sentence ++ [sp])
       else ((if truthy (trim current) then chunks ++ [trim current] else chunks),
             sentence ++ [sp]).

Definition splitText (text : str) (maxChars : Z) : list str :=
  let sentences := split_sentences text in
  let '(chunks, current) := fold_left (splitText_step maxChars) sentences ([], []) in
  let chunks := if truthy (trim current) then chunks ++ [trim current] else chunks in
  if (0 <? Z.of_nat (length chunks))%Z then chunks else [slice0 text maxChars].

End RegexTask.

(* ================================================================== *)
(** ** Reading the state of the chunker's loop *)

Module Chunks.
Import JS.

(** [seg] is within the bound [m], or it is one sentence of [all], trimmed,
    that is over the bound by itself. *)
Definition fits (all : list str) (m : Z) (seg : str) : Prop :=
  (len seg <= m)%Z \/ exists s, In s all /\ (m < len s)%Z /\ seg = trim s.

(** The sentence [s] is a chunk of its own already, or is alone in
    [current]. *)
Definition kept (st : list str * str) (s : str) : Prop :=
  In (trim s) (fst st) \/ snd st = s ++ [sp].

(** The words held by the state of the loop. *)
Definition content (st : list str * str) : list str :=
  concat (map words (fst st)) ++ words (snd st).

(** [current] is empty or ends with the space the loop appends. *)
Definition spaced (cur : str) : Prop := cur = [] \/ exists x, cur = x ++ [sp].

End Chunks.

(* ================================================================== *)
(** ** Reading a trace *)

Module Trace.
Import JS Task PdfParseTask.

(** What a computation resolves to, and the calls it makes, when nothing
    it does depends on the calls made before. *)
Definition result_of {A} (m : M A) : Result A := fst (m []).
Definition events_of {A} (m : M A) : list Event := snd (m []).

(** The outcome of the download of the audio of chunk [i]. *)
Definition chunk_result (w : World) (model voiceFileUrl : str) (i : nat) (chunk : str)
  : Result bytes :=
  result_of (chunk_audio w model voiceFileUrl i chunk).

(** What [updateJob] logs after an update made at trace [t]. *)
Definition warning (w : World) (id : str) (u : JobUpdate) (t : list Event) : list Event :=
  match jobs_update w (length (filter is_update t)) id u with
  | Some message => [EvWarn id message]
  | None => []
  end.

(** The chunks with their indices. *)
Definition indexed (chunks : list str) : list (nat * str) :=
  combine (seq 0 (length chunks)) chunks.

(** The same collaborators, with another [jobs] table. *)
Definition with_jobs_update (w : World) (f : nat -> str -> JobUpdate -> option str)
  : World :=
  mkWorld (env_F5TTS_MODEL w) (storage_download w) (PDFParse_getText w)
          (storage_getPublicUrl w) (replicate_run w) (fetch w) (storage_upload w) f.

(** The updates of the [jobs] table, in order. *)
Fixpoint updates (t : list Event) : list JobUpdate :=
  match t with
  | [] => []
  | EvUpdate _ u :: r => u :: updates r
  | _ :: r => updates r
  end.

(** The progress values written, in order. *)
Fixpoint progresses (us : list JobUpdate) : list Z :=
  match us with
  | [] => []
  | u :: r => match u_progress u with
              | Some p => p :: progresses r
              | None => progresses r
              end
  end.

(** The indices and texts of the calls of [replicate.run], in order. *)
Fixpoint synth_calls (t : list Event) : list (nat * str) :=
  match t with
  | [] => []
  | EvRun i _ gen_text _ :: r => (i, gen_text) :: synth_calls r
  | _ :: r => synth_calls r
  end.

(** The buffers uploaded, in order. *)
Fixpoint uploads (t : list Event) : list (str * bytes) :=
  match t with
  | [] => []
  | EvUpload path data :: r => (path, data) :: uploads r
  | _ :: r => uploads r
  end.

(** The trace without the warnings of [updateJob]. *)
Fixpoint without_warnings (t : list Event) : list Event :=
  match t with
  | [] => []
  | EvWarn _ _ :: r => without_warnings r
  | ev :: r => ev :: without_warnings r
  end.

(** Two computations that differ in their warnings only. *)
Definition same_but_warnings {A} (m1 m2 : M A) : Prop :=
  forall t1 t2,
    without_warnings t1 = without_warnings t2 ->
    fst (m1 t1) = fst (m2 t2)
    /\ without_warnings (snd (m1 t1)) = without_warnings (snd (m2 t2)).

Definition has_status (s : Status) (u : JobUpdate) : bool :=
  match u_status u, s with
  | Some queued, queued | Some processing, processing
  | Some ready, ready | Some failed, failed => true
  | _, _ => false
  end.

(** [sorted l]: the list is non-decreasing. *)
Fixpoint sorted (l : list Z) : Prop :=
  match l with
  | [] => True
  | x :: r => match r with
              | [] => True
              | y :: _ => (x <= y)%Z /\ sorted r
              end
  end.

(** No update of status [ready] comes after one of status [failed]. *)
Definition no_ready_after_failed (us : list JobUpdate) : Prop :=
  forall pre post u u',
    us = pre ++ u :: post -> has_status failed u = true ->
    In u' post -> has_status ready u' = false.

(** The updates of a run before the loop, and those of [k] turns of the
    loop over [n] chunks. *)
Definition base_updates : list JobUpdate :=
  [mkUpdate (Some processing) (Some 5%Z) None None;
   progress_only 10; progress_only 25; progress_only 35].

Definition chunk_updates {FR : FloorRatio} (n k : nat) : list JobUpdate :=
  map (fun j => progress_only (chunkProgress j n)) (seq 0 k).

Definition ready_update (id : str) : JobUpdate :=
  mkUpdate (Some ready) (Some 100%Z) None (Some (outputPath id)).

Definition failed_update (e : Thrown) : JobUpdate :=
  mkUpdate (Some failed) None (Some (error_message e)) None.

(** An update that neither ends the job nor sets the output location. *)
Definition in_progress (u : JobUpdate) : Prop :=
  u_audio_storage_path u = None
  /\ has_status ready u = false /\ has_status failed u = false.

(** Chunk [i] of the text is synthesized and downloaded as [body]. *)
Definition synthesized (w : World) (voiceFileUrl : str) (ic : nat * str) (body : bytes)
  : Prop :=
  chunk_result w (f5ttsModel w) voiceFileUrl (fst ic) (snd ic) = Ok body.

End Trace.

(** Exact arithmetic is one way of rounding: here [floor_ratio50 k n] is
    the floor of the rational [50 * k / n]. *)
#[export] Instance exact_floor_ratio : Task.FloorRatio.
Proof.
  refine {| Task.floor_ratio50 := fun k n => (50 * Z.of_nat k / Z.of_nat n)%Z |}.
  - intros k k' n Hk Hkk' Hn. apply Z.div_le_mono; lia.
  - intros k n Hk. split.
    + apply Z.div_pos; lia.
    + apply Z.div_le_upper_bound; lia.
Defined.

(* ================================================================== *)
(** ** Stub collaborators *)

Module Stub.
Import JS Task.

(** A sentence of 4000 characters: 3999 times [c], then a full stop. *)
Definition sentence (c : codeunit) : str := repeat c 3999 ++ [46%N].

(** Five such sentences, which [splitText] with the bound 4000 returns
    as five chunks. *)
Definition five_sentences : str :=
  join_sp (map sentence [97; 98; 99; 100; 101]%N).

(** Collaborators that work: the PDF holds [text], the synthesizer
    answers [output i] for chunk [i], unless [i] is [fail_at], where it
    rejects; the download of the audio of chunk [i] gives the one byte
    [i]; the [jobs] table refuses the third update. *)
Definition world (text : str) (output : nat -> Output) (fail_at : option nat) : World :=
  {| env_F5TTS_MODEL := None;
     storage_download := fun _ => (Some [37; 80; 68; 70]%N, None);
     PDFParse_getText := fun _ => Ok text;
     storage_getPublicUrl := fun path => lit "https://storage.test/audiobooks/" ++ path;
     replicate_run := fun i _ _ _ =>
       if match fail_at with Some k => Nat.eqb i k | None => false end
       then Throw (JsError (lit "Prediction failed"))
       else Ok (output i);
     fetch := fun i url =>
       match url with
       | 104%N :: 116%N :: 116%N :: 112%N :: _ => Ok (mkResponse true [N.of_nat i])
       | _ => Throw (JsError (lit "Failed to parse URL"))
       end;
     storage_upload := fun _ _ => None;
     jobs_update := fun n _ _ =>
       if Nat.eqb n 2 then Some (lit "connection reset") else None |}.

(** The synthesizer answers with a URL. *)
Definition url_output (i : nat) : Output :=
  OutString (lit "https://replicate.test/out/" ++ of_nat i).

(** The synthesizer answers with the bytes of the audio. *)
Definition bytes_output (i : nat) : Output := OutBytes [82; 73; 70; 70; N.of_nat i]%N.

(** Collaborators for a book of five chunks that is synthesized. *)
Definition book : World := world five_sentences url_output None.

(** A job with an uploaded voice sample, and one with a video only. *)
Definition upload_job : GenerateAudiobookPayload :=
  mkPayload (lit "job-1") (lit "pdfs/book.pdf") (Some (lit "voices/me.wav")) None 0 0.

Definition video_job : GenerateAudiobookPayload :=
  mkPayload (lit "job-2") (lit "pdfs/book.pdf") None (Some (lit "dQw4w9WgXcQ")) 10 40.

(** A storage that has lost the PDF. *)
Definition no_pdf (w : World) : World :=
  mkWorld (env_F5TTS_MODEL w) (fun _ => (None, Some (lit "Object not found")))
          (PDFParse_getText w) (storage_getPublicUrl w) (replicate_run w) (fetch w)
          (storage_upload w) (jobs_update w).

End Stub.


(* ================================================================== *)
(** ** The task, regex-extraction variant: text from the PDF *)

Module RegexVariant.
Import JS Task.
Local Open Scope task_scope.

Fixpoint starts_with (pat s : str) : bool :=
  match pat, s with
  | [], _ => true
  | _ :: _, [] => false
  | p :: pat', c :: s' => (p =? c)%N && starts_with pat' s'
  end.

(** The first occurrence of [pat] in [s]: what is before it, and what is
    after it. *)
Fixpoint find_sub (pat s : str) : option (str * str) :=
  match s with
  | [] => if starts_with pat [] then Some ([], []) else None
  | c :: r =>
      if starts_with pat s then Some ([], skipn (length pat) s)
      else match find_sub pat r with
           | Some (pre, post) => Some (c :: pre, post)
           | None => None
           end
  end.

(** The captures of the successive matches of [/BT\s*([\s\S]*?)ET/g]: a
    match starts at the first [BT], skips the whitespace after it, and
    captures up to the first [ET]; the next match is looked for after that
    [ET].  Each turn of the [while] loop uses up at least four characters,
    so as many turns as the text has characters are never all taken. *)
Fixpoint btEt_blocks (fuel : nat) (content : str) : list str :=
  match fuel with
  | O => []
  | S fuel' =>
      match find_sub (lit "BT") content with
      | None => []
      | Some (_, after) =>
          match find_sub (lit "ET") (trimStart after) with
          | None => []
          | Some (block, rest) => block :: btEt_blocks fuel' rest
          end
      end
  end.

(** The captures of the successive matches of [textRegex], which is an
    opening parenthesis, any characters but a closing parenthesis, and a
    closing parenthesis: from the first [(] to the first [)] after it. *)
Fixpoint paren_strings (fuel : nat) (block : str) : list str :=
  match fuel with
  | O => []
  | S fuel' =>
      match find_sub [40%N] block with
      | None => []
      | Some (_, after) =>
          match find_sub [41%N] after with
          | None => []
          | Some (inside, rest) => inside :: paren_strings fuel' rest
          end
      end
  end.

(** [s.replace(/ab/g, rep)] for a pattern of two characters [a], [b]. *)
Fixpoint replace2 (a b : codeunit) (rep s : str) : str :=
  match s with
  | [] => []
  | x :: t =>
      match t with
      | [] => [x]
      | y :: r =>
          if (x =? a)%N && (y =? b)%N then rep ++ replace2 a b rep r
          else x :: replace2 a b rep t
      end
  end.

(** The chain of [replace] calls that decodes the escapes of a PDF
    string: backslash-n, backslash-r, backslash-t, the two escaped
    parentheses and the escaped backslash, in that order. *)
Definition decode (s : str) : str :=
  (replace2 92 92 [92]
    (replace2 92 41 [41]
       (replace2 92 40 [40]
          (replace2 92 116 [9]
             (replace2 92 114 [13]
                (replace2 92 110 [10] s))))))%N.

(** The longest prefix without [)], and what follows it. *)
Fixpoint until_close (s : str) : str * str :=
  match s with
  | [] => ([], [])
  | c :: r =>
      if (c =? 41)%N then ([], s)
      else let '(run, rest) := until_close r in (c :: run, rest)
  end.

(** The captures of the successive matches of [/\(([^)]{2,})\)/g].  At a
    [(] followed by fewer than two characters before the next [)], the
    match fails there and is tried again from the next character. *)
Fixpoint simple_strings (fuel : nat) (content : str) : list str :=
  match fuel with
  | O => []
  | S fuel' =>
      match find_sub [40%N] content with
      | None => []
      | Some (_, after) =>
          let '(run, rest) := until_close after in
          match rest with
          | [] => []
          | _ :: rest' =>
              if (2 <=? length run)%nat then run :: simple_strings fuel' rest'
              else simple_strings fuel' after
          end
      end
  end.

(** The characters kept by [/[^\x20-\x7E\n\r\t]/g]. *)
Definition printable (c : codeunit) : bool :=
  ((32 <=? c) && (c <=? 126) || (c =? 10) || (c =? 13) || (c =? 9))%N.

(** The text blocks found between [BT] and [ET]. *)
Definition bt_text_blocks (content : str) : list str :=
  flat_map (fun block =>
              filter (fun decoded => truthy (trim decoded))
                     (map decode (paren_strings (length block) block)))
           (btEt_blocks (length content) content).

(** The text blocks of the simpler approach. *)
Definition simple_text_blocks (content : str) : list str :=
  filter (fun text => (5 <? length text)%nat)
         (map (fun inside => trim (map (fun c => if printable c then c else sp) inside))
              (simple_strings (length content) content)).

(** [buffer.toString("latin1")] gives one character per byte, with the
    code of the byte. *)
Definition extractTextFromPdfBuffer (buffer : bytes) : str :=
  let content : str := buffer in
  let textBlocks := bt_text_blocks content in
  let textBlocks :=
    if (length textBlocks =? 0)%nat then simple_text_blocks content else textBlocks in
  normalize_ws (join_sp textBlocks).

(** Step 2 of the regex-extraction variant: download the PDF and take
    its text with [extractTextFromPdfBuffer]. *)
Definition extract_text (w : World) (path : str) : M str :=
  emit (EvDownload path) ;;
  let '(pdfData, pdfError) := storage_download w path in
  pdfBuffer <- match pdfError, pdfData with
               | None, Some data => ret data
               | _, _ =>
                   throw (JsError (lit "Failed to download PDF: " ++
                                   match pdfError with
                                   | Some message => message
                                   | None => lit "undefined"
                                   end))
               end ;;
  let text := extractTextFromPdfBuffer pdfBuffer in
  if negb (truthy (trim text))
  then throw (JsError (lit "Could not extract text from PDF. Is it a scanned document?"))
  else ret text.

Section WithArithmetic.
Context {FR : FloorRatio}.

(** The [try] block of the regex-extraction variant.  But for step 2 its
    text is that of the pdf-parse variant: [updateJob], the voice step
    and the loop are the same functions and statements. *)
Definition run_body (w : World) (payload : GenerateAudiobookPayload) : M Success :=
  let id := jobId payload in
  PdfParseTask.updateJob w id (mkUpdate (Some processing) (Some 5%Z) None None) ;;
  PdfParseTask.updateJob w id (PdfParseTask.progress_only 10) ;;
  text <- extract_text w (pdfStoragePath payload) ;;
  PdfParseTask.updateJob w id (PdfParseTask.progress_only 25) ;;
  voiceFileUrl <- PdfParseTask.voice_file_url w (voiceStoragePath payload)
                                              (videoId payload) ;;
  PdfParseTask.updateJob w id (PdfParseTask.progress_only 35) ;;
  let chunks := RegexTask.splitText text PdfParseTask.maxChunkChars in
  audioSegments <-
    PdfParseTask.synth_loop w id (PdfParseTask.f5ttsModel w) voiceFileUrl
                            (length chunks) 0 chunks [] ;;
  PdfParseTask.updateJob w id (PdfParseTask.progress_only 90) ;;
  let fullAudio := Buffer_concat audioSegments in
  emit (EvUpload (PdfParseTask.outputPath id) fullAudio) ;;
  match storage_upload w (PdfParseTask.outputPath id) fullAudio with
  | Some message => throw (JsError (lit "Failed to upload audiobook: " ++ message))
  | None =>
      PdfParseTask.updateJob w id
        (mkUpdate (Some ready) (Some 100%Z) None (Some (PdfParseTask.outputPath id))) ;;
      ret (mkSuccess id (PdfParseTask.outputPath id))
  end.

Definition run (w : World) (payload : GenerateAudiobookPayload) : M Success :=
  try_catch (run_body w payload)
    (fun error =>
       let errorMessage := PdfParseTask.error_message error in
       emit (EvLogError (jobId payload) errorMessage) ;;
       PdfParseTask.updateJob w (jobId payload)
         (mkUpdate (Some failed) None (Some errorMessage) None) ;;
       throw error).

Definition generateAudiobook (w : World) (payload : GenerateAudiobookPayload)
  : Result Success * list Event :=
  run w payload [].

End WithArithmetic.

(** The calls of a trace but those of the PDF parser. *)
Definition without_getText (t : list Event) : list Event :=
  filter (fun ev => match ev with EvGetText _ => false | _ => true end) t.

(** The same collaborators, with another PDF parser. *)
Definition with_parser (w : World) (parse : bytes -> Result str) : World :=
  mkWorld (env_F5TTS_MODEL w) (storage_download w) parse
          (storage_getPublicUrl w) (replicate_run w) (fetch w) (storage_upload w)
          (jobs_update w).

(** Two computations that go the same way, the second one calling the
    PDF parser besides. *)
Definition same_but_parser {A} (m1 m2 : M A) : Prop :=
  forall t1 t2,
    t1 = without_getText t2 ->
    fst (m1 t1) = fst (m2 t2) /\ snd (m1 t1) = without_getText (snd (m2 t2)).

End RegexVariant.

(* ================================================================== *)
(** ** Normalised strings *)

Module Tidy.
Import JS.

(** Every whitespace character is a space that has a character which is
    not whitespace right after it. *)
Fixpoint single_spaced (s : str) : bool :=
  match s with
  | [] => true
  | c :: r =>
      (if is_ws c
       then (c =? sp)%N && match r with
                           | [] => false
                           | d :: _ => negb (is_ws d)
                           end
       else true)
      && single_spaced r
  end.

(** A string is tidy when its words are separated by single spaces and
    there is no whitespace before the first or after the last. *)
Definition tidy (s : str) : bool := negb (starts_ws s) && single_spaced s.

End Tidy.

(* ================================================================== *)
(** ** The text preview of the upload page (pdf.js) *)

Module PdfExtractor.
Import JS Task.

(** A document loaded by pdf.js: its number of pages and, for a page
    number, the [str] fields of the items of the page's text content, or
    what [getPage] or [getTextContent] throws for it. *)
Record PDFDocument := mkDocument {
  numPages : nat;
  page_items : nat -> Result (list str)
}.

(** What is written to the console. *)
Inductive Warning :=
| PageFailed (i : nat) (pageError : Thrown)
| ExtractionError (error : Thrown)
| PreviewError (error : Thrown).

(** [textContent.items.map(item => item.str).join(' ')]. *)
Definition pageText (items : list str) : str := join_sp items.

Definition page_break : str := [10; 10]%N.

Definition placeholder : str :=
  lit "Text extraction completed (some pages may be unreadable)".

(** The loop [for (let i = 1; i <= maxPages; i++)] of
    [extractTextFromPDF], at page [i] with [todo] pages to go: a page that
    cannot be read is reported and skipped. *)
Fixpoint extract_pages (pdf : PDFDocument) (todo i : nat) (fullText : str)
  : str * list Warning :=
  match todo with
  | O => (fullText, [])
  | S todo' =>
      match page_items pdf i with
      | Ok items =>
          extract_pages pdf todo' (S i) (fullText ++ pageText items ++ page_break)
      | Throw pageError =>
          let '(text, warned) := extract_pages pdf todo' (S i) fullText in
          (text, PageFailed i pageError :: warned)
      end
  end.

(** [extractTextFromPDF(file)].  [loaded] is what [file.arrayBuffer()]
    followed by [getDocument(...).promise] gives: the document, or what
    either of them throws. *)
Definition extractTextFromPDF (loaded : Result PDFDocument) : str * list Warning :=
  match loaded with
  | Ok pdf =>
      let maxPages := Nat.min 10 (numPages pdf) in
      let '(fullText, warned) := extract_pages pdf maxPages 1 [] in
      (if truthy (trim fullText) then trim fullText else placeholder, warned)
  | Throw error => ([], [ExtractionError error])
  end.

(** The loop of [getPDFPreview]: the first page that cannot be read ends
    it. *)
Fixpoint preview_pages (pdf : PDFDocument) (todo i : nat) (previewText : str)
  : Result str :=
  match todo with
  | O => Ok previewText
  | S todo' =>
      match page_items pdf i with
      | Ok items =>
          preview_pages pdf todo' (S i) (previewText ++ pageText items ++ page_break)
      | Throw e => Throw e
      end
  end.

Definition preview_failed : Thrown := JsError (lit "Failed to extract PDF preview").

(** [getPDFPreview(file, maxPages)], for a whole number [maxPages] (3
    when the caller gives none). *)
Definition getPDFPreview (loaded : Result PDFDocument) (maxPages : Z)
  : Result str * list Warning :=
  match loaded with
  | Ok pdf =>
      let pagesToExtract := Z.min maxPages (Z.of_nat (numPages pdf)) in
      match preview_pages pdf (Z.to_nat pagesToExtract) 1 [] with
      | Ok previewText => (Ok (trim previewText), [])
      | Throw error => (Throw preview_failed, [PreviewError error])
      end
  | Throw error => (Throw preview_failed, [PreviewError error])
  end.

(** The text of page [i] as both loops add it, empty for a page that
    cannot be read. *)
Definition readable_text (pdf : PDFDocument) (i : nat) : str :=
  match page_items pdf i with
  | Ok items => pageText items ++ page_break
  | Throw _ => []
  end.

Definition page_warning (pdf : PDFDocument) (i : nat) : list Warning :=
  match page_items pdf i with
  | Ok _ => []
  | Throw e => [PageFailed i e]
  end.

(** Sample documents: ten readable pages; twelve pages of which the
    last two cannot be read; three pages of which the second cannot be
    read. *)
Definition ten_pages : PDFDocument :=
  mkDocument 10 (fun i => Ok [lit "page"; of_nat i]).

Definition twelve_pages : PDFDocument :=
  mkDocument 12 (fun i => if (i <=? 10)%nat then Ok [lit "page"; of_nat i]
                          else Throw (JsError (lit "bad page"))).

Definition torn_page : PDFDocument :=
  mkDocument 3 (fun i => if (i =? 2)%nat then Throw (JsError (lit "bad page"))
                         else Ok [lit "page"; of_nat i]).

End PdfExtractor.

(* ================================================================== *)
(** ** The API routes: errors, uploads *)

Module Api.
Import JS Task.

(** What a route handler can catch: an [AppError], a [ZodError] with its
    issues (path and message), or any other thrown value, which is only
    logged. *)
Inductive ApiError :=
| AppError (code message : str) (statusCode : Z)
| ZodError (issues : list (list str * str))
| OtherError.

(** [NextResponse.json(body, { status })] for an error: the [error]
    field of the body, with [code] or [details] when the body has one. *)
Record ErrorResponse := mkError {
  status : Z;
  error : str;
  code : option str;
  details : option (list str)
}.

(** [a.join(".")]. *)
Fixpoint join_dot (l : list str) : str :=
  match l with
  | [] => []
  | [x] => x
  | x :: rest => x ++ 46%N :: join_dot rest
  end.

Definition handleApiError (e : ApiError) : ErrorResponse :=
  match e with
  | AppError code message statusCode => mkError statusCode message (Some code) None
  | ZodError issues =>
      mkError 400 (lit "Validation failed") None
              (Some (map (fun e => join_dot (fst e) ++ lit ": " ++ snd e) issues))
  | OtherError => mkError 500 (lit "Internal server error") None None
  end.

Definition str_eqb (a b : str) : bool :=
  if list_eq_dec N.eq_dec a b then true else false.

(** [s.endsWith(suffix)]. *)
Definition endsWith (s suffix : str) : bool :=
  (length suffix <=? length s)%nat
  && str_eqb (skipn (length s - length suffix) s) suffix.

(** [l.includes(x)]. *)
Definition includes (l : list str) (x : str) : bool := existsb (str_eqb x) l.

(** [s.split(".").pop()]: what follows the last dot, the whole of [s]
    when it has none.  [current] is the part being read. *)
Fixpoint last_part (s current : str) : str :=
  match s with
  | [] => current
  | c :: r => if (c =? 46)%N then last_part r [] else last_part r (current ++ [c])
  end.

(** The class [[a-zA-Z0-9._-]]. *)
Definition allowed (c : codeunit) : bool :=
  ((97 <=? c) && (c <=? 122) || (65 <=? c) && (c <=? 90) || (48 <=? c) && (c <=? 57)
   || (c =? 46) || (c =? 95) || (c =? 45))%N.

(** [name.replace(/[^a-zA-Z0-9._-]/g, "_")]. *)
Definition sanitize (name : str) : str :=
  map (fun c => if allowed c then c else 95%N) name.

(** A [File] of the form data. *)
Record File := mkFile {
  name : str;
  size : N;
  type : str;
  arrayBuffer : Result bytes
}.

(** The entry [formData.get("file")]: a text field or a file. *)
Inductive FormEntry :=
| TextField (value : str)
| FileField (file : File).

(** What a route runs in.  [toLowerCase] is the string method;
    [createServerClient] is [true] when the client is made and [false]
    when making it throws; [storage_upload path data contentType] answers
    with the message of the upload error if there is one, or throws. *)
Record Env := mkEnv {
  toLowerCase : str -> str;
  createServerClient : bool;
  randomUUID : str;
  storage_upload : str -> bytes -> str -> Result (option str)
}.

Inductive UploadResponse :=
| Stored (storagePath fileName : str) (fileSize : N)
| Refused (e : ErrorResponse).

(** A call of [supabase.storage.from("audiobooks").upload]. *)
Definition StorageCall : Type := str * bytes * str.

Definition failed (e : ApiError) : UploadResponse * list StorageCall :=
  (Refused (handleApiError e), []).

(** The end of both upload routes, from [createServerClient()] on. *)
Definition store (env : Env) (folder contentType : str) (file : File)
  : UploadResponse * list StorageCall :=
  if createServerClient env then
    let fileId := randomUUID env in
    let sanitizedName := sanitize (name file) in
    let storagePath := folder ++ lit "/" ++ fileId ++ lit "/" ++ sanitizedName in
    match arrayBuffer file with
    | Throw _ => failed OtherError
    | Ok buffer =>
        let call := (storagePath, buffer, contentType) in
        match storage_upload env storagePath buffer contentType with
        | Throw _ => (Refused (handleApiError OtherError), [call])
        | Ok (Some message) =>
            (Refused (handleApiError
                        (AppError (lit "UPLOAD_FAILED")
                                  (lit "Failed to upload file: " ++ message) 500)),
             [call])
        | Ok None => (Stored storagePath (name file) (size file), [call])
        end
    end
  else failed OtherError.

Module Pdf.

Definition MAX_FILE_SIZE : N := 100 * 1024 * 1024.

(** [POST] of the PDF upload route.  [formData] is what
    [request.formData()] followed by [get("file")] gives.  A text field
    that is not empty passes the first test and has no [name], so that
    reading its name throws a [TypeError]. *)
Definition POST (env : Env) (formData : Result (option FormEntry))
  : UploadResponse * list StorageCall :=
  match formData with
  | Throw _ => failed OtherError
  | Ok None => failed (AppError (lit "MISSING_FILE") (lit "No file provided") 400)
  | Ok (Some (TextField value)) =>
      if truthy value then failed OtherError
      else failed (AppError (lit "MISSING_FILE") (lit "No file provided") 400)
  | Ok (Some (FileField file)) =>
      if negb (endsWith (toLowerCase env (name file)) (lit ".pdf")) then
        failed (AppError (lit "INVALID_TYPE") (lit "Only PDF files are supported") 400)
      else if (MAX_FILE_SIZE <? size file)%N then
        failed (AppError (lit "FILE_TOO_LARGE")
                         (lit "File too large. Maximum size is 100MB.") 400)
      else if (size file =? 0)%N then
        failed (AppError (lit "EMPTY_FILE") (lit "File is empty") 400)
      else store env (lit "pdfs") (lit "application/pdf") file
  end.

End Pdf.

Module Audio.

Definition ALLOWED_TYPES : list str :=
  [lit "audio/mpeg"; lit "audio/mp3"; lit "audio/wav"; lit "audio/x-wav";
   lit "audio/m4a"; lit "audio/x-m4a"; lit "audio/mp4"; lit "audio/ogg";
   lit "audio/webm"].

Definition VALID_EXTENSIONS : list str :=
  [lit "mp3"; lit "wav"; lit "m4a"; lit "ogg"; lit "webm"; lit "mp4"].

Definition MAX_FILE_SIZE : N := 50 * 1024 * 1024.

(** [file.name.split(".").pop()?.toLowerCase()]. *)
Definition ext (env : Env) (file : File) : str :=
  toLowerCase env (last_part (name file) []).

(** [POST] of the voice sample upload route. *)
Definition POST (env : Env) (formData : Result (option FormEntry))
  : UploadResponse * list StorageCall :=
  match formData with
  | Throw _ => failed OtherError
  | Ok None => failed (AppError (lit "MISSING_FILE") (lit "No file provided") 400)
  | Ok (Some (TextField value)) =>
      if truthy value then failed OtherError
      else failed (AppError (lit "MISSING_FILE") (lit "No file provided") 400)
  | Ok (Some (FileField file)) =>
      if (MAX_FILE_SIZE <? size file)%N then
        failed (AppError (lit "FILE_TOO_LARGE")
                         (lit "File too large. Maximum size is 50MB.") 400)
      else if (size file =? 0)%N then
        failed (AppError (lit "EMPTY_FILE") (lit "File is empty") 400)
      else if negb (includes ALLOWED_TYPES (type file))
              && negb (includes VALID_EXTENSIONS (ext env file)) then
        failed (AppError (lit "INVALID_TYPE")
                         (lit "Unsupported audio format. Use MP3, WAV, M4A, or OGG.") 400)
      else store env (lit "voices")
                 (if truthy (type file) then type file else lit "audio/mpeg") file
  end.

End Audio.

(** Lower case for the ASCII letters, for the examples. *)
Definition ascii_lower (s : str) : str :=
  map (fun c => if ((65 <=? c) && (c <=? 90))%N then (c + 32)%N else c) s.

Definition sample_env : Env :=
  mkEnv ascii_lower true (lit "0b5e") (fun _ _ _ => Ok None).

Definition sample_pdf : File :=
  mkFile (lit "My Book (final).PDF") 5 (lit "application/pdf") (Ok [37; 80; 68; 70; 45]%N).

Definition sample_voice : File :=
  mkFile (lit "voice memo") 4 (lit "audio/wav") (Ok [82; 73; 70; 70]%N).

End Api.

(* ================================================================== *)
(** ** The route that creates a job and dispatches the task *)

Module JobsRoute.
Import JS Task Api.

(** The numbers of a request body.  [seconds_ok] is the check
    [z.number().min(0).max(300)]; [zero] and [sixty] are the defaults of
    the schema, which pass it. *)
Class Numbers := {
  number : Type;
  zero : number;
  sixty : number;
  seconds_ok : number -> bool;
  zero_ok : seconds_ok zero = true;
  sixty_ok : seconds_ok sixty = true
}.

(** A property of the body, as a schema for values of type [A] sees it:
    not there, there with a value of another type, or there with a value
    of type [A]. *)
Inductive Field (A : Type) :=
| Missing
| Mistyped
| Given (a : A).
Arguments Missing {A}.
Arguments Mistyped {A}.
Arguments Given {A} a.

Section WithNumbers.
Context {NB : Numbers}.

(** The body of the request, when it is an object. *)
Record Body := mkBody {
  b_pdfStoragePath : Field str;
  b_bookTitle : Field str;
  b_voiceStoragePath : Field str;
  b_videoId : Field str;
  b_voiceName : Field str;
  b_startTime : Field number;
  b_endTime : Field number
}.

Record CreateJobInput := mkInput {
  pdfStoragePath : str;
  bookTitle : str;
  voiceStoragePath : option str;
  videoId : option str;
  voiceName : str;
  startTime : number;
  endTime : number
}.

(** A schema for a value that must be there. *)
Definition required {A} (ok : A -> bool) (f : Field A) : option A :=
  match f with
  | Given a => if ok a then Some a else None
  | _ => None
  end.

(** [.optional()]: the value may be missing. *)
Definition optional {A} (ok : A -> bool) (f : Field A) : option (option A) :=
  match f with
  | Missing => Some None
  | Mistyped => None
  | Given a => if ok a then Some (Some a) else None
  end.

(** [.default(d)] after [.optional()]. *)
Definition default {A} (d : A) (o : option (option A)) : option A :=
  match o with
  | Some (Some a) => Some a
  | Some None => Some d
  | None => None
  end.

Definition min_len (n : nat) (s : str) : bool := (n <=? length s)%nat.
Definition max_len (n : nat) (s : str) : bool := (length s <=? n)%nat.

(** [createJobSchema.parse(body)]: the parsed input, or nothing when the
    schema throws its [ZodError]. *)
Definition createJobSchema (body : option Body) : option CreateJobInput :=
  match body with
  | None => None
  | Some b =>
      match required (min_len 1) (b_pdfStoragePath b),
            default (lit "Untitled")
                    (optional (fun s => min_len 1 s && max_len 200 s) (b_bookTitle b)),
            optional (fun _ => true) (b_voiceStoragePath b),
            optional (fun _ => true) (b_videoId b),
            default (lit "Custom Voice") (optional (max_len 200) (b_voiceName b)),
            default zero (optional seconds_ok (b_startTime b)),
            default sixty (optional seconds_ok (b_endTime b))
      with
      | Some pdf, Some title, Some voice, Some video, Some vname, Some st, Some en =>
          if truthy_opt voice || truthy_opt video
          then Some (mkInput pdf title voice video vname st en)
          else None
      | _, _, _, _, _, _, _ => None
      end
  end.

(** [value || null]. *)
Definition or_null (value : option str) : option str :=
  if truthy_opt value then value else None.

(** [value || ""]. *)
Definition or_empty (value : option str) : str :=
  match or_null value with
  | Some s => s
  | None => []
  end.

Record JobRow := mkRow {
  id : str;
  user_id : str;
  book_title : str;
  voice_name : str;
  row_status : Status;
  progress : Z;
  pdf_storage_path : str;
  voice_storage_path : str;
  video_id : option str;
  start_time : number;
  end_time : number;
  row_error : option str;
  trigger_task_id : option str
}.

(** The [payload] of the request that triggers the task. *)
Record TriggerPayload := mkTrigger {
  payload_jobId : str;
  payload_pdfStoragePath : str;
  payload_voiceStoragePath : option str;
  payload_videoId : option str;
  payload_startTime : number;
  payload_endTime : number
}.

(** The answer of Trigger.dev: its [ok] flag, and [triggerData.id || null]
    or what reading it throws. *)
Record TriggerResponse := mkTriggerResponse {
  t_ok : bool;
  t_id : Result (option str)
}.

(** What the route runs in.  [zod_issues] are the issues of the
    [ZodError] for a body that the schema rejects; [createServerClient]
    is [true] when the client is made and [false] when making it throws;
    [jobs_insert] answers with the row as the table returns it (its [id]
    and [status]) and the message of the insert error if there is one. *)
Record Env := mkEnv {
  zod_issues : option Body -> list (list str * str);
  createServerClient : bool;
  randomUUID : str;
  jobs_insert : JobRow -> option (str * str) * option str;
  TRIGGER_API_URL : option str;
  TRIGGER_SECRET_KEY : option str;
  fetch : str -> str -> TriggerPayload -> Result TriggerResponse
}.

(** The requests the route makes. *)
Inductive Call :=
| Inserted (row : JobRow)
| Dispatched (url authorization : str) (payload : TriggerPayload)
| TaskIdSet (jobId : str) (task : option str).

Inductive JobsResponse :=
| Created (jobId status message : str)
| Rejected (e : ErrorResponse).

(** The inner [try] block: every failure in it is caught and logged. *)
Definition dispatch (env : Env) (jobId : str) (parsed : CreateJobInput) : list Call :=
  match TRIGGER_API_URL env, TRIGGER_SECRET_KEY env with
  | Some triggerUrl, Some triggerApiKey =>
      if truthy triggerUrl && truthy triggerApiKey then
        let url := triggerUrl ++ lit "/api/v1/tasks/generate-audiobook/trigger" in
        let authorization := lit "Bearer " ++ triggerApiKey in
        let payload :=
          mkTrigger jobId (pdfStoragePath parsed)
                    (or_null (voiceStoragePath parsed)) (or_null (videoId parsed))
                    (startTime parsed) (endTime parsed) in
        Dispatched url authorization payload ::
        match fetch env url authorization payload with
        | Ok triggerRes =>
            if t_ok triggerRes then
              match t_id triggerRes with
              | Ok task => [TaskIdSet jobId task]
              | Throw _ => []
              end
            else []
        | Throw _ => []
        end
      else []
  | _, _ => []
  end.

Definition new_row (jobId : str) (parsed : CreateJobInput) : JobRow :=
  mkRow jobId (lit "anonymous") (bookTitle parsed) (voiceName parsed) queued 0
        (pdfStoragePath parsed) (or_empty (voiceStoragePath parsed))
        (or_null (videoId parsed)) (startTime parsed) (endTime parsed) None None.

(** [POST].  [request_json] is what [request.json()] gives: the body when
    it is an object, nothing for any other value, or what it throws. *)
Definition POST (env : Env) (request_json : Result (option Body))
  : JobsResponse * list Call :=
  match request_json with
  | Throw _ => (Rejected (handleApiError OtherError), [])
  | Ok body =>
      match createJobSchema body with
      | None => (Rejected (handleApiError (ZodError (zod_issues env body))), [])
      | Some parsed =>
          if createServerClient env then
            let jobId := randomUUID env in
            let row := new_row jobId parsed in
            match jobs_insert env row with
            | (_, Some message) =>
                (Rejected (handleApiError
                             (AppError (lit "DB_INSERT_FAILED")
                                       (lit "Failed to create job: " ++ message) 500)),
                 [Inserted row])
            | (job, None) =>
                let calls := Inserted row :: dispatch env jobId parsed in
                match job with
                | Some (job_id, job_status) =>
                    (Created job_id job_status (lit "Job created successfully"), calls)
                | None => (Rejected (handleApiError OtherError), calls)
                end
            end
          else (Rejected (handleApiError OtherError), [])
      end
  end.

(** The payload of the task run carries what was dispatched. *)
Definition carries (p : GenerateAudiobookPayload) (d : TriggerPayload) : Prop :=
  Task.jobId p = payload_jobId d
  /\ Task.pdfStoragePath p = payload_pdfStoragePath d
  /\ Task.voiceStoragePath p = payload_voiceStoragePath d
  /\ Task.videoId p = payload_videoId d.

End WithNumbers.

(** Whole seconds, for the examples. *)
#[export] Instance whole_seconds : Numbers.
Proof.
  refine {| number := Z; zero := 0%Z; sixty := 60%Z;
            seconds_ok := fun x => (0 <=? x)%Z && (x <=? 300)%Z |};
    reflexivity.
Defined.

Definition sample_body : Body :=
  mkBody (Given (lit "pdfs/book.pdf")) Missing Missing (Given (lit "dQw4w9WgXcQ"))
         Missing Missing Missing.

Definition sample_url : str :=
  lit "https://trigger.example/api/v1/tasks/generate-audiobook/trigger".

Definition sample_payload : TriggerPayload :=
  mkTrigger (lit "job-2") (lit "pdfs/book.pdf") None (Some (lit "dQw4w9WgXcQ")) 0%Z 60%Z.

Definition sample_env (up : bool) : Env :=
  mkEnv (fun _ => []) true (lit "job-2")
        (fun row => (Some (id row, lit "queued"), None))
        (Some (lit "https://trigger.example")) (Some (lit "tr_secret"))
        (fun _ _ _ => if up then Ok (mkTriggerResponse true (Ok (Some (lit "run_1"))))
                      else Throw (JsError (lit "fetch failed"))).

End JobsRoute.

(* ================================================================== *)
(** ** Strings: whitespace, trimming, words *)

Section Strings.
Import JS.

Lemma is_ws_sp : is_ws sp = true.
Proof. reflexivity. Qed.

Lemma punct_not_ws (c : codeunit) : is_punct c = true -> is_ws c = false.
Proof.
  unfold is_punct, is_ws. intros H.
  repeat (apply orb_prop in H; destruct H as [H|H]);
    apply N.eqb_eq in H; subst c; reflexivity.
Qed.

Lemma blank_app (a b : str) : blank (a ++ b) = blank a && blank b.
Proof. apply forallb_app. Qed.

Lemma trimStart_blank (s : str) : blank s = true -> trimStart s = [].
Proof.
  induction s as [|c r IH]; simpl; [reflexivity|].
  intros H. apply andb_prop in H. destruct H as [Hc Hr].
  rewrite Hc. auto.
Qed.

Lemma trimEnd_blank (s : str) : blank s = true -> trimEnd s = [].
Proof.
  induction s as [|c r IH]; simpl; [reflexivity|].
  intros H. apply andb_prop in H. destruct H as [Hc Hr].
  rewrite (IH Hr), Hc. reflexivity.
Qed.

Lemma trimEnd_nil_blank (s : str) : trimEnd s = [] -> blank s = true.
Proof.
  induction s as [|c r IH]; simpl; [reflexivity|].
  destruct (trimEnd r) eqn:E.
  - destruct (is_ws c); [auto | discriminate].
  - discriminate.
Qed.

Lemma trimStart_head (s : str) : starts_ws (trimStart s) = false.
Proof.
  induction s as [|c r IH]; simpl; [reflexivity|].
  destruct (is_ws c) eqn:E; [exact IH | simpl; exact E].
Qed.

Lemma blank_head_nil (s : str) : blank s = true -> starts_ws s = false -> s = [].
Proof.
  destruct s as [|c r]; simpl; [reflexivity|].
  intros H1 H2. rewrite H2 in H1. discriminate.
Qed.

Lemma trim_nil_blank (s : str) : trim s = [] <-> blank s = true.
Proof.
  unfold trim. split.
  - intros H. apply trimEnd_nil_blank in H.
    induction s as [|c r IH]; simpl in *; [reflexivity|].
    destruct (is_ws c) eqn:E; simpl; [auto|].
    simpl in H. rewrite E in H. discriminate.
  - intros H. rewrite trimStart_blank by exact H. reflexivity.
Qed.

Lemma truthy_false_nil (s : str) : truthy s = false <-> s = [].
Proof. destruct s; simpl; split; intros; congruence. Qed.

Lemma truthy_true_not_nil (s : str) : truthy s = true <-> s <> [].
Proof. destruct s; simpl; split; intros; congruence. Qed.

Lemma trimEnd_cons_keep (c : codeunit) (r : str) :
  is_ws c = false -> trimEnd (c :: r) = c :: trimEnd r.
Proof. intros H. simpl. rewrite H. destruct (trimEnd r); reflexivity. Qed.

(** [trimEnd] removes a blank suffix, [trimStart] a blank prefix. *)
Lemma trimEnd_split (s : str) :
  exists suf, s = trimEnd s ++ suf /\ blank suf = true.
Proof.
  induction s as [|c r IH].
  - exists []. split; reflexivity.
  - destruct IH as (suf & Hs & Hb). simpl.
    destruct (trimEnd r) eqn:E.
    + destruct (is_ws c) eqn:Ec.
      * exists (c :: r). split; [reflexivity|].
        simpl. rewrite Ec. apply trimEnd_nil_blank. exact E.
      * exists r. split; [reflexivity|]. apply trimEnd_nil_blank. exact E.
    + exists suf. split; [|exact Hb].
      simpl. f_equal. exact Hs.
Qed.

Lemma trimStart_split (s : str) :
  exists pre, s = pre ++ trimStart s /\ blank pre = true.
Proof.
  induction s as [|c r IH].
  - exists []. split; reflexivity.
  - destruct IH as (pre & Hs & Hb). simpl.
    destruct (is_ws c) eqn:Ec.
    + exists (c :: pre). split; [simpl; f_equal; exact Hs|].
      simpl. rewrite Ec. exact Hb.
    + exists []. split; reflexivity.
Qed.

Lemma trimEnd_app_blank (s b : str) : blank b = true -> trimEnd (s ++ b) = trimEnd s.
Proof.
  intros Hb. induction s as [|c r IH]; simpl.
  - apply trimEnd_blank. exact Hb.
  - rewrite IH. reflexivity.
Qed.

Lemma trimStart_app_blank (s b : str) :
  blank b = true ->
  trimStart (s ++ b) = if blank s then [] else trimStart s ++ b.
Proof.
  intros Hb. induction s as [|c r IH]; simpl.
  - apply trimStart_blank. exact Hb.
  - destruct (is_ws c); simpl; [exact IH | reflexivity].
Qed.

Lemma trim_app_blank (s b : str) : blank b = true -> trim (s ++ b) = trim s.
Proof.
  intros Hb. unfold trim. rewrite trimStart_app_blank by exact Hb.
  destruct (blank s) eqn:E.
  - rewrite trimStart_blank by exact E. reflexivity.
  - apply trimEnd_app_blank. exact Hb.
Qed.

(** [trimEnd] is [trimStart] seen from the other end. *)
Lemma trimEnd_app_keep (s : str) (c : codeunit) :
  is_ws c = false -> trimEnd (s ++ [c]) = s ++ [c].
Proof.
  intros Hc. induction s as [|x s IH]; simpl.
  - rewrite Hc. reflexivity.
  - rewrite IH. destruct (s ++ [c]) eqn:E; [|reflexivity].
    destruct s; discriminate.
Qed.

Lemma trimEnd_rev (s : str) : trimEnd s = rev (trimStart (rev s)).
Proof.
  induction s as [|c s IH] using rev_ind; [reflexivity|].
  rewrite rev_app_distr. simpl. destruct (is_ws c) eqn:Ec.
  - rewrite trimEnd_app_blank by (simpl; rewrite Ec; reflexivity). exact IH.
  - simpl. rewrite rev_involutive. apply trimEnd_app_keep. exact Ec.
Qed.

Lemma trimStart_length (s : str) : (length (trimStart s) <= length s)%nat.
Proof.
  induction s as [|c r IH]; simpl; [lia|].
  destruct (is_ws c); simpl; lia.
Qed.

Lemma trimEnd_length (s : str) : (length (trimEnd s) <= length s)%nat.
Proof.
  destruct (trimEnd_split s) as (suf & Hs & _).
  rewrite Hs at 2. rewrite length_app. lia.
Qed.

Lemma trim_length (s : str) : (len (trim s) <= len s)%Z.
Proof.
  unfold len, trim.
  pose proof (trimEnd_length (trimStart s)). pose proof (trimStart_length s). lia.
Qed.

(** *** Words *)

Lemma words_blank (s : str) : blank s = true -> words s = [].
Proof.
  induction s as [|c r IH]; simpl; [reflexivity|].
  intros H. apply andb_prop in H. destruct H as [Hc Hr].
  rewrite Hc. auto.
Qed.

Lemma words_head (c : codeunit) (r : str) : is_ws c = false -> words (c :: r) <> [].
Proof.
  intros H. simpl. rewrite H.
  destruct (starts_ws r); [discriminate|].
  destruct (words r); discriminate.
Qed.

Lemma words_nil_blank (s : str) : words s = [] -> blank s = true.
Proof.
  induction s as [|c r IH]; [reflexivity|].
  intros H. simpl. destruct (is_ws c) eqn:E.
  - simpl in H. rewrite E in H. auto.
  - exfalso. exact (words_head c r E H).
Qed.

Lemma words_not_nil (s : str) : In [] (words s) -> False.
Proof.
  induction s as [|c r IH]; simpl; [tauto|].
  destruct (is_ws c); [exact IH|].
  destruct (starts_ws r).
  - simpl. intros [H|H]; [discriminate | auto].
  - destruct (words r) as [|w ws]; simpl.
    + intros [H|H]; [discriminate | tauto].
    + intros [H|H]; [discriminate|]. apply IH. right. exact H.
Qed.

(** Words do not cross a whitespace character. *)
Lemma words_app_ws (a b : str) (c : codeunit) :
  is_ws c = true -> words (a ++ c :: b) = words a ++ words b.
Proof.
  intros Hc. induction a as [|x a IH].
  - simpl. rewrite Hc. reflexivity.
  - change ((x :: a) ++ c :: b) with (x :: (a ++ c :: b)).
    simpl words at 1 2. destruct (is_ws x) eqn:Ex; [exact IH|].
    rewrite IH. destruct a as [|y a].
    + simpl. rewrite Hc. reflexivity.
    + simpl starts_ws. destruct (is_ws y) eqn:Ey; [reflexivity|].
      pose proof (words_head y a Ey) as Hne.
      destruct (words (y :: a)); [congruence | reflexivity].
Qed.

Lemma words_app_blank (a b : str) : blank b = true -> words (a ++ b) = words a.
Proof.
  intros Hb. destruct b as [|c b].
  - rewrite app_nil_r. reflexivity.
  - simpl in Hb. apply andb_prop in Hb. destruct Hb as [Hc Hb].
    rewrite words_app_ws by exact Hc.
    rewrite (words_blank b Hb). apply app_nil_r.
Qed.

Lemma words_blank_app (a b : str) : blank a = true -> words (a ++ b) = words b.
Proof.
  induction a as [|c a IH]; simpl; [reflexivity|].
  intros H. apply andb_prop in H. destruct H as [Hc Ha].
  rewrite Hc. auto.
Qed.

Lemma words_trimEnd (s : str) : words (trimEnd s) = words s.
Proof.
  destruct (trimEnd_split s) as (suf & Hs & Hb).
  rewrite Hs at 2. rewrite words_app_blank by exact Hb. reflexivity.
Qed.

Lemma words_trimStart (s : str) : words (trimStart s) = words s.
Proof.
  destruct (trimStart_split s) as (pre & Hs & Hb).
  rewrite Hs at 2. rewrite words_blank_app by exact Hb. reflexivity.
Qed.

Lemma words_trim (s : str) : words (trim s) = words s.
Proof. unfold trim. rewrite words_trimEnd. apply words_trimStart. Qed.

Lemma words_join_sp (l : list str) : words (join_sp l) = concat (map words l).
Proof.
  induction l as [|x l IH]; [reflexivity|].
  destruct l as [|y l].
  - simpl. rewrite app_nil_r. reflexivity.
  - change (join_sp (x :: y :: l)) with (x ++ sp :: join_sp (y :: l)).
    rewrite words_app_ws by apply is_ws_sp.
    rewrite IH. reflexivity.
Qed.

(** *** Normalisation, through words *)

Lemma join_sp_cons (x : str) (l : list str) :
  join_sp (x :: l) = x ++ match l with [] => [] | _ => sp :: join_sp l end.
Proof. destruct l; simpl; [rewrite app_nil_r|]; reflexivity. Qed.

Lemma join_sp_nil_inv (l : list str) :
  (In [] l -> False) -> join_sp l = [] -> l = [].
Proof.
  destruct l as [|x l]; [reflexivity|].
  intros Hn H. rewrite join_sp_cons in H.
  destruct x; [exfalso; apply Hn; left; reflexivity | discriminate].
Qed.

Lemma trimStart_collapse (b : bool) (s : str) :
  trimStart (collapse_from b s) = collapse_from false (trimStart s).
Proof.
  revert b. induction s as [|c r IH]; intros b; simpl; [reflexivity|].
  destruct (is_ws c) eqn:E.
  - destruct b; simpl; apply IH.
  - simpl. rewrite E. reflexivity.
Qed.

Lemma trimEnd_collapse (s : str) :
  trimEnd (collapse_from true s) = join_sp (words s)
  /\ trimEnd (collapse_from false s)
     = (if starts_ws s && truthy (join_sp (words s)) then [sp] else [])
       ++ join_sp (words s).
Proof.
  induction s as [|c r [IHt IHf]]; [split; reflexivity|].
  simpl collapse_from. simpl words. simpl starts_ws.
  destruct (is_ws c) eqn:E.
  - split; [exact IHt|].
    simpl trimEnd. rewrite IHt.
    destruct (join_sp (words r)); reflexivity.
  - rewrite (trimEnd_cons_keep c _ E), IHf. simpl andb.
    assert (c :: (if starts_ws r && truthy (join_sp (words r)) then [sp] else [])
                 ++ join_sp (words r)
            = join_sp (if starts_ws r then [c] :: words r
                       else match words r with
                            | [] => [[c]]
                            | w :: ws => (c :: w) :: ws
                            end)) as H.
    { destruct (starts_ws r) eqn:Er.
      - rewrite join_sp_cons. simpl.
        destruct (words r) as [|w ws] eqn:Ew; [reflexivity|].
        assert (Hnn : join_sp (w :: ws) <> []).
        { intros Hj. apply join_sp_nil_inv in Hj; [discriminate|].
          rewrite <- Ew. apply words_not_nil. }
        destruct (join_sp (w :: ws)); [congruence | reflexivity].
      - simpl. destruct (words r) as [|w ws]; [reflexivity|].
        rewrite !join_sp_cons. reflexivity. }
    split; exact H.
Qed.

(** The normalisation of a string is its words joined by single spaces. *)
Lemma normalize_ws_words (s : str) : normalize_ws s = join_sp (words s).
Proof.
  unfold normalize_ws, collapse_ws, trim.
  rewrite trimStart_collapse.
  destruct (trimEnd_collapse (trimStart s)) as [_ H].
  rewrite H, trimStart_head, words_trimStart. reflexivity.
Qed.

End Strings.

(* ================================================================== *)
(** ** The sentences of a text *)

Section Sentences.
Import JS.

Lemma split_sentences_from_not_nil (b : bool) (s : str) :
  split_sentences_from b s <> [].
Proof.
  revert b. induction s as [|c r IH]; intros b; simpl; [discriminate|].
  destruct (b && is_ws c); [apply IH|].
  destruct (is_punct c && starts_ws r); [discriminate|].
  destruct (split_sentences_from false r); discriminate.
Qed.

(** Outside a separator, the first piece starts where the text starts. *)
Lemma split_sentences_head (r : str) :
  exists p ps, split_sentences_from false r = p :: ps
               /\ starts_ws p = starts_ws r /\ (p = [] -> r = []).
Proof.
  destruct r as [|d r]; simpl.
  - exists [], []. auto.
  - destruct (is_punct d && starts_ws r).
    + exists [d], (split_sentences_from true r). repeat split. discriminate.
    + destruct (split_sentences_from false r) as [|p ps].
      * exists [d], []. repeat split. discriminate.
      * exists (d :: p), ps. repeat split. discriminate.
Qed.

(** Splitting into sentences keeps the words, in order. *)
Lemma split_sentences_words (b : bool) (s : str) :
  concat (map words (split_sentences_from b s)) = words s.
Proof.
  revert b. induction s as [|c r IH]; intros b; [reflexivity|].
  simpl split_sentences_from.
  destruct (b && is_ws c) eqn:E1.
  - apply andb_prop in E1. destruct E1 as [_ Hc].
    rewrite IH. simpl. rewrite Hc. reflexivity.
  - destruct (is_punct c && starts_ws r) eqn:E2.
    + apply andb_prop in E2. destruct E2 as [Hp Hr].
      apply punct_not_ws in Hp.
      simpl. rewrite Hp, Hr, IH. reflexivity.
    + specialize (IH false).
      destruct (split_sentences_head r) as (p & ps & Hs & Hh & Hn).
      rewrite Hs in IH |- *. simpl map in IH |- *. simpl concat in IH |- *.
      simpl words. destruct (is_ws c) eqn:Ec; [exact IH|].
      rewrite Hh. destruct (starts_ws r) eqn:Er.
      * simpl. rewrite IH. reflexivity.
      * rewrite <- IH. destruct p as [|d p].
        -- rewrite (Hn eq_refl) in IH. simpl in IH.
           simpl. rewrite IH. reflexivity.
        -- simpl in Hh. pose proof (words_head d p Hh) as Hne.
           destruct (words (d :: p)); [congruence | reflexivity].
Qed.

Lemma concat_nil_Forall {A} (l : list (list A)) :
  concat l = [] -> Forall (fun x => x = []) l.
Proof.
  induction l as [|x l IH]; simpl; intros H; constructor.
  - destruct x; [reflexivity | discriminate].
  - apply IH. destruct x; [exact H | discriminate].
Qed.

(** A blank text has blank sentences only. *)
Lemma split_sentences_blank (text : str) :
  blank text = true -> Forall (fun s => blank s = true) (split_sentences text).
Proof.
  intros Hb. pose proof (split_sentences_words false text) as H.
  rewrite (words_blank text Hb) in H.
  apply concat_nil_Forall in H. rewrite Forall_map in H.
  eapply Forall_impl; [|exact H]. intros a. apply words_nil_blank.
Qed.

End Sentences.

(* ================================================================== *)
(** ** The chunker *)

Section Chunker.
Import JS PdfParseTask Chunks.

(** What the last [if (current.trim()) chunks.push(current.trim())] makes
    of the state of the loop. *)
Lemma splitText_unfold (text : str) (maxChars : Z) :
  splitText text maxChars =
  let st := fold_left (splitText_step maxChars) (split_sentences text) ([], []) in
  let chunks := if truthy (trim (snd st)) then fst st ++ [trim (snd st)] else fst st in
  match chunks with
  | [] => [slice0 text maxChars]
  | _ :: _ => chunks
  end.
Proof.
  unfold splitText.
  destruct (fold_left _ _ _) as [chunks current]. simpl.
  destruct (if truthy (trim current) then chunks ++ [trim current] else chunks);
    reflexivity.
Qed.

Lemma splitText_step_blank (m : Z) (st : list str * str) (s : str) :
  blank s = true -> splitText_step m st s = st.
Proof.
  intros Hb. unfold splitText_step. destruct st as [chunks current].
  apply trim_nil_blank in Hb. rewrite Hb. reflexivity.
Qed.

Lemma fold_blank (m : Z) (l : list str) (st : list str * str) :
  Forall (fun s => blank s = true) l -> fold_left (splitText_step m) l st = st.
Proof.
  intros H. revert st. induction H as [|s l Hs _ IH]; intros st; simpl; [reflexivity|].
  rewrite splitText_step_blank by exact Hs. apply IH.
Qed.

(** A blank text falls through to the last line of [splitText]. *)
Lemma splitText_blank (text : str) (m : Z) :
  blank text = true -> splitText text m = [slice0 text m].
Proof.
  intros Hb. rewrite splitText_unfold.
  rewrite fold_blank by (apply split_sentences_blank; exact Hb). reflexivity.
Qed.

Lemma splitText_not_nil (text : str) (m : Z) : splitText text m <> [].
Proof.
  rewrite splitText_unfold. cbv zeta.
  destruct (if truthy _ then _ else _); discriminate.
Qed.

Lemma slice0_nonneg (s : str) (m : Z) :
  (0 <= m)%Z -> slice0 s m = firstn (Z.to_nat m) s.
Proof.
  intros Hm. unfold slice0.
  destruct (m <? 0)%Z eqn:E; [apply Z.ltb_lt in E; lia|].
  unfold len. destruct (Z.min_spec m (Z.of_nat (length s))) as [[H1 H2]|[H1 H2]];
    rewrite H2; [reflexivity|].
  rewrite Nat2Z.id. rewrite firstn_all. symmetry. apply firstn_all2. lia.
Qed.

(** *** Length of the segments *)

Lemma step_fits (all : list str) (m : Z) (st : list str * str) (s : str) :
  In s all ->
  Forall (fits all m) (fst st) -> fits all m (trim (snd st)) ->
  Forall (fits all m) (fst (splitText_step m st s))
  /\ fits all m (trim (snd (splitText_step m st s))).
Proof.
  destruct st as [chunks current]. simpl. intros Hin Hc Hcur.
  unfold splitText_step, fits in *.
  destruct (truthy (trim s)); simpl; [|auto].
  destruct (len current + len s + 1 <=? m)%Z eqn:E; simpl.
  - split; [exact Hc|]. left. apply Z.leb_le in E.
    pose proof (trim_length (current ++ s ++ [sp])) as Hl.
    unfold len in *. rewrite !length_app in Hl. simpl in Hl. lia.
  - split.
    + destruct (truthy (trim current)); [|exact Hc].
      apply Forall_app. split; [exact Hc|]. constructor; [exact Hcur | constructor].
    + rewrite trim_app_blank by reflexivity.
      destruct (Z_le_gt_dec (len s) m) as [Hle|Hgt].
      * left. pose proof (trim_length s). lia.
      * right. exists s. repeat split; [exact Hin | lia].
Qed.

Lemma fold_fits (all : list str) (m : Z) (l : list str) (st : list str * str) :
  incl l all ->
  Forall (fits all m) (fst st) -> fits all m (trim (snd st)) ->
  Forall (fits all m) (fst (fold_left (splitText_step m) l st))
  /\ fits all m (trim (snd (fold_left (splitText_step m) l st))).
Proof.
  revert st. induction l as [|s l IH]; intros st Hincl Hc Hcur; simpl; [auto|].
  destruct (step_fits all m st s) as [H1 H2]; auto.
  - apply Hincl. left. reflexivity.
  - apply IH; auto. intros x Hx. apply Hincl. right. exact Hx.
Qed.

(** *** A sentence over the bound is kept, alone *)

Lemma step_kept_old (m : Z) (st : list str * str) (s s' : str) :
  truthy (trim s) = true -> (m < len s)%Z ->
  kept st s -> kept (splitText_step m st s') s.
Proof.
  destruct st as [chunks current]. unfold kept. simpl. intros Ht Hm Hk.
  unfold splitText_step.
  destruct (truthy (trim s')); simpl; [|exact Hk].
  destruct (len current + len s' + 1 <=? m)%Z eqn:E; simpl.
  - destruct Hk as [Hk|Hk]; [left; exact Hk|].
    exfalso. apply Z.leb_le in E. subst current.
    unfold len in *. rewrite length_app in E. simpl in E. lia.
  - left. destruct Hk as [Hk|Hk].
    + destruct (truthy (trim current)); [apply in_or_app; left|]; exact Hk.
    + subst current. rewrite trim_app_blank by reflexivity.
      rewrite Ht. apply in_or_app. right. left. reflexivity.
Qed.

Lemma step_kept_new (m : Z) (st : list str * str) (s : str) :
  truthy (trim s) = true -> (m < len s)%Z -> kept (splitText_step m st s) s.
Proof.
  destruct st as [chunks current]. intros Ht Hm.
  unfold kept, splitText_step. rewrite Ht. simpl negb. cbv iota.
  destruct (len current + len s + 1 <=? m)%Z eqn:E.
  - exfalso. apply Z.leb_le in E. unfold len in *. lia.
  - right. reflexivity.
Qed.

Lemma fold_kept_old (m : Z) (l : list str) (st : list str * str) (s : str) :
  truthy (trim s) = true -> (m < len s)%Z ->
  kept st s -> kept (fold_left (splitText_step m) l st) s.
Proof.
  intros Ht Hm. revert st. induction l as [|s' l IH]; intros st Hk; simpl; [exact Hk|].
  apply IH. apply step_kept_old; assumption.
Qed.

Lemma fold_kept (m : Z) (l : list str) (st : list str * str) (s : str) :
  In s l -> truthy (trim s) = true -> (m < len s)%Z ->
  kept (fold_left (splitText_step m) l st) s.
Proof.
  intros Hin Ht Hm. revert st. induction l as [|s' l IH]; intros st; [destruct Hin|].
  simpl. destruct Hin as [->|Hin].
  - apply fold_kept_old; [assumption..|]. apply step_kept_new; assumption.
  - apply IH. exact Hin.
Qed.

(** *** The words of the segments *)

Lemma step_content (m : Z) (st : list str * str) (s : str) :
  spaced (snd st) ->
  content (splitText_step m st s) = content st ++ words s
  /\ spaced (snd (splitText_step m st s)).
Proof.
  destruct st as [chunks current]. unfold content, spaced. simpl. intros Hsp.
  unfold splitText_step.
  destruct (truthy (trim s)) eqn:Et; simpl.
  - destruct (len current + len s + 1 <=? m)%Z; simpl.
    + split; [|right; exists (current ++ s); apply app_assoc].
      rewrite <- app_assoc. f_equal.
      rewrite (app_assoc current s [sp]).
      rewrite words_app_blank by reflexivity.
      destruct Hsp as [->|(x & ->)]; [reflexivity|].
      rewrite <- (app_assoc x [sp] s). simpl.
      rewrite words_app_ws by apply is_ws_sp.
      rewrite words_app_blank by reflexivity. reflexivity.
    + split; [|right; exists s; reflexivity].
      rewrite words_app_blank by reflexivity.
      f_equal.
      destruct (truthy (trim current)) eqn:Ec.
      * rewrite map_app, concat_app. simpl.
        rewrite app_nil_r, words_trim. reflexivity.
      * apply truthy_false_nil in Ec. apply trim_nil_blank in Ec.
        rewrite (words_blank current Ec), app_nil_r. reflexivity.
  - split; [|exact Hsp].
    apply truthy_false_nil in Et. apply trim_nil_blank in Et.
    rewrite (words_blank s Et), app_nil_r. reflexivity.
Qed.

Lemma fold_content (m : Z) (l : list str) (st : list str * str) :
  spaced (snd st) ->
  content (fold_left (splitText_step m) l st) = content st ++ concat (map words l).
Proof.
  revert st. induction l as [|s l IH]; intros st Hsp; simpl.
  - unfold content. rewrite app_nil_r. reflexivity.
  - destruct (step_content m st s Hsp) as [H1 H2].
    rewrite IH by exact H2. rewrite H1, <- app_assoc. reflexivity.
Qed.

(** The segments hold the words of the text, in order. *)
Lemma splitText_words (text : str) (m : Z) :
  concat (map words (splitText text m)) = words text.
Proof.
  rewrite splitText_unfold. cbv zeta.
  pose proof (fold_content m (split_sentences text) ([], []) (or_introl eq_refl)) as H.
  pose proof (split_sentences_words false text) as Hw.
  fold (split_sentences text) in Hw.
  unfold content in H. rewrite Hw in H. simpl in H. clear Hw.
  set (st := fold_left (splitText_step m) (split_sentences text) ([], [])) in *.
  assert (Hc : concat (map words
                (if truthy (trim (snd st)) then fst st ++ [trim (snd st)] else fst st))
               = words text).
  { rewrite <- H. destruct (truthy (trim (snd st))) eqn:Ec.
    - rewrite map_app, concat_app. simpl. rewrite app_nil_r, words_trim. reflexivity.
    - apply truthy_false_nil in Ec. apply trim_nil_blank in Ec.
      rewrite (words_blank _ Ec), app_nil_r. reflexivity. }
  destruct (if truthy (trim (snd st)) then fst st ++ [trim (snd st)] else fst st)
    as [|c cs]; [|exact Hc].
  simpl in Hc. symmetry in Hc. apply words_nil_blank in Hc.
  simpl. rewrite app_nil_r. rewrite (words_blank text Hc).
  apply words_blank. unfold slice0.
  rewrite <- (firstn_skipn (Z.to_nat (if (m <? 0)%Z then Z.max (len text + m) 0
                                       else Z.min m (len text))) text) in Hc.
  rewrite blank_app in Hc. apply andb_prop in Hc. apply Hc.
Qed.

End Chunker.

(* ================================================================== *)
(** ** The chunker: what holds of [splitText] *)

Section ChunkerClaims.
Import JS PdfParseTask Chunks.

Example splitText_three_sentences :
  splitText (lit "Hello world. This is a test. Goodbye now.") 15
  = [lit "Hello world."; lit "This is a test."; lit "Goodbye now."].
Proof. vm_compute. reflexivity. Qed.

Example split_sentences_runs :
  split_sentences (lit "  a.  b!c ?  ") = [lit "  a."; lit "b!c ?"; lit ""].
Proof. vm_compute. reflexivity. Qed.

Example splitText_long_sentence :
  splitText (lit "Tiny. This one is far too long. Ok.") 8
  = [lit "Tiny."; lit "This one is far too long."; lit "Ok."].
Proof. vm_compute. reflexivity. Qed.

Example normalize_ws_runs :
  normalize_ws (lit "  a  b
 c  ") = lit "a b c".
Proof. vm_compute. reflexivity. Qed.

(** Leading whitespace counts in the length of a sentence, and is
    trimmed off the segment. *)
Example splitText_leading_whitespace :
  split_sentences (lit "   a. b") = [lit "   a."; lit "b"]
  /\ splitText (lit "   a. b") 4 = [lit "a."; lit "b"].
Proof. vm_compute. split; reflexivity. Qed.

(** C4, as stated, fails: for the empty text the one segment returned is
    the empty string. *)
Lemma splitText_empty_text_empty_segment :
  ~ (exists seg, splitText (lit "") 1 = [seg] /\ seg <> []).
Proof.
  intros (seg & H & Hne). vm_compute in H.
  injection H as <-. apply Hne. reflexivity.
Qed.

(** C4, amended.  For every [maxChars >= 1], [splitText] returns exactly
    one segment for the empty text and for the text of three spaces, and
    for every blank text: the first [maxChars] characters of the raw text.
    That segment is the empty string for the empty text and is not empty
    for the three spaces.  No text and no bound give zero segments;
    [splitText] is a total function, it raises nothing. *)
Theorem splitText_blank_text (maxChars : Z) :
  (1 <= maxChars)%Z ->
  splitText (lit "") maxChars = [lit ""]
  /\ (exists seg, splitText (lit "   ") maxChars = [seg]
                  /\ seg = firstn (Z.to_nat maxChars) (lit "   ") /\ seg <> [])
  /\ (forall text, blank text = true ->
        splitText text maxChars = [firstn (Z.to_nat maxChars) text])
  /\ (forall text m, splitText text m <> []).
Proof.
  intros Hm.
  assert (Hb : forall text, blank text = true ->
                 splitText text maxChars = [firstn (Z.to_nat maxChars) text]).
  { intros text Hb. rewrite splitText_blank by exact Hb.
    rewrite slice0_nonneg by lia. reflexivity. }
  repeat split.
  - rewrite Hb by reflexivity. rewrite firstn_nil. reflexivity.
  - exists (firstn (Z.to_nat maxChars) (lit "   ")).
    repeat split; [apply Hb; reflexivity|].
    destruct (Z.to_nat maxChars) eqn:E; [lia | discriminate].
  - exact Hb.
  - apply splitText_not_nil.
Qed.

Lemma splitText_blank_text_witness :
  (1 <= 2)%Z
  /\ splitText (lit "") 2 = [lit ""]
  /\ (exists seg, splitText (lit "   ") 2 = [seg]
                  /\ seg = firstn (Z.to_nat 2) (lit "   ") /\ seg <> [])
  /\ (forall text, blank text = true -> splitText text 2 = [firstn (Z.to_nat 2) text])
  /\ (forall text m, splitText text m <> []).
Proof. split; [lia | apply (splitText_blank_text 2); lia]. Defined.

(** C5.  For every text and every [maxChars >= 1], a segment returned by
    [splitText] has at most [maxChars] characters, unless it is a single
    sentence (trimmed, as every segment is) that has more than [maxChars]
    characters by itself; and every such sentence that is not blank is
    returned as a segment of its own: it is neither cut nor dropped. *)
Theorem splitText_segment_bound (text : str) (maxChars : Z) :
  (1 <= maxChars)%Z ->
  (forall seg, In seg (splitText text maxChars) ->
     (len seg <= maxChars)%Z
     \/ exists s, In s (split_sentences text) /\ (maxChars < len s)%Z /\ seg = trim s)
  /\ (forall s, In s (split_sentences text) -> (maxChars < len s)%Z ->
        blank s = false -> In (trim s) (splitText text maxChars)).
Proof.
  intros Hm. rewrite splitText_unfold. cbv zeta.
  set (st := fold_left (splitText_step maxChars) (split_sentences text) ([], [])).
  split.
  - intros seg Hin.
    destruct (fold_fits (split_sentences text) maxChars (split_sentences text) ([], []))
      as [H1 H2].
    { apply incl_refl. }
    { constructor. }
    { left. unfold len. simpl. lia. }
    fold st in H1, H2. unfold fits in H2.
    rewrite Forall_forall in H1.
    destruct (if truthy (trim (snd st)) then fst st ++ [trim (snd st)] else fst st)
      as [|c cs] eqn:E.
    + destruct Hin as [<-|[]]. left.
      rewrite slice0_nonneg by lia. unfold len. rewrite length_firstn. lia.
    + rewrite <- E in Hin. destruct (truthy (trim (snd st))).
      * apply in_app_or in Hin. destruct Hin as [Hin|[<-|[]]]; [|exact H2].
        apply (H1 seg Hin).
      * apply (H1 seg Hin).
  - intros s Hin Hlen Hb.
    assert (Ht : truthy (trim s) = true).
    { apply truthy_true_not_nil. intros Hn. apply trim_nil_blank in Hn. congruence. }
    pose proof (fold_kept maxChars (split_sentences text) ([], []) s Hin Ht Hlen) as Hk.
    fold st in Hk. unfold kept in Hk.
    assert (Hin' : In (trim s)
                     (if truthy (trim (snd st)) then fst st ++ [trim (snd st)] else fst st)).
    { destruct Hk as [Hk|Hk].
      - destruct (truthy (trim (snd st))); [apply in_or_app; left|]; exact Hk.
      - rewrite Hk. rewrite trim_app_blank by reflexivity. rewrite Ht.
        apply in_or_app. right. left. reflexivity. }
    destruct (if truthy (trim (snd st)) then fst st ++ [trim (snd st)] else fst st);
      [destruct Hin' | exact Hin'].
Qed.

Lemma splitText_segment_bound_witness :
  (1 <= 8)%Z
  /\ (forall seg, In seg (splitText (lit "Tiny. This one is far too long. Ok.") 8) ->
        (len seg <= 8)%Z
        \/ exists s, In s (split_sentences (lit "Tiny. This one is far too long. Ok."))
                     /\ (8 < len s)%Z /\ seg = trim s)
  /\ (forall s, In s (split_sentences (lit "Tiny. This one is far too long. Ok.")) ->
        (8 < len s)%Z -> blank s = false ->
        In (trim s) (splitText (lit "Tiny. This one is far too long. Ok.") 8)).
Proof.
  split; [lia|].
  apply (splitText_segment_bound (lit "Tiny. This one is far too long. Ok.") 8). lia.
Defined.

(** C6.  For every text that is not empty and not made of whitespace
    only, and every [maxChars >= 1]: joining the segments of
    [splitText text maxChars] with single spaces, then collapsing every
    whitespace run to one space and trimming, gives the text normalised
    the same way.  So nothing but whitespace is lost or repeated, and the
    segments come in the order of the text. *)
Theorem splitText_lossless (text : str) (maxChars : Z) :
  text <> [] -> blank text = false -> (1 <= maxChars)%Z ->
  normalize_ws (join_sp (splitText text maxChars)) = normalize_ws text.
Proof.
  intros _ _ _.
  rewrite !normalize_ws_words, words_join_sp, splitText_words. reflexivity.
Qed.

Lemma splitText_lossless_witness :
  lit "Hello  world. This is
 a test.   Goodbye now. " <> []
  /\ blank (lit "Hello  world. This is
 a test.   Goodbye now. ") = false
  /\ (1 <= 15)%Z
  /\ normalize_ws (join_sp (splitText (lit "Hello  world. This is
 a test.   Goodbye now. ") 15))
     = normalize_ws (lit "Hello  world. This is
 a test.   Goodbye now. ").
Proof.
  assert (Hne : lit "Hello  world. This is
 a test.   Goodbye now. " <> []) by (vm_compute; discriminate).
  assert (Hb : blank (lit "Hello  world. This is
 a test.   Goodbye now. ") = false) by reflexivity.
  assert (Hm : (1 <= 15)%Z) by lia.
  exact (conj Hne (conj Hb (conj Hm (splitText_lossless _ 15 Hne Hb Hm)))).
Defined.

(** C10.  The chunker of the pdf-parse variant and the chunker of the
    regex-extraction variant return the same segments for every text and
    every bound. *)
Theorem splitText_variants_agree (text : str) (maxChars : Z) :
  PdfParseTask.splitText text maxChars = RegexTask.splitText text maxChars.
Proof.
  assert (Hstep : forall st s,
             PdfParseTask.splitText_step maxChars st s
             = RegexTask.splitText_step maxChars st s).
  { intros [chunks current] s. reflexivity. }
  assert (Hloop : forall l st,
             fold_left (PdfParseTask.splitText_step maxChars) l st
             = fold_left (RegexTask.splitText_step maxChars) l st).
  { induction l as [|s l IH]; intros st; simpl; [reflexivity|].
    rewrite Hstep. apply IH. }
  unfold PdfParseTask.splitText, RegexTask.splitText.
  rewrite Hloop. reflexivity.
Qed.

End ChunkerClaims.

(* ================================================================== *)
(** ** Traces and the steps of a run *)

Arguments JS.lit : simpl never.
Arguments JS.of_nat : simpl never.

Create Rewrite HintDb trace.

Section Steps.
Import JS Task PdfParseTask Trace.

Lemma updates_app (a b : list Event) : updates (a ++ b) = updates a ++ updates b.
Proof.
  induction a as [|ev a IH]; simpl; [reflexivity|].
  destruct ev; simpl; rewrite ?IH; reflexivity.
Qed.

Lemma synth_calls_app (a b : list Event) :
  synth_calls (a ++ b) = synth_calls a ++ synth_calls b.
Proof.
  induction a as [|ev a IH]; simpl; [reflexivity|].
  destruct ev; simpl; rewrite ?IH; reflexivity.
Qed.

Lemma uploads_app (a b : list Event) : uploads (a ++ b) = uploads a ++ uploads b.
Proof.
  induction a as [|ev a IH]; simpl; [reflexivity|].
  destruct ev; simpl; rewrite ?IH; reflexivity.
Qed.

Lemma without_warnings_app (a b : list Event) :
  without_warnings (a ++ b) = without_warnings a ++ without_warnings b.
Proof.
  induction a as [|ev a IH]; simpl; [reflexivity|].
  destruct ev; simpl; rewrite ?IH; reflexivity.
Qed.

Lemma progresses_app (a b : list JobUpdate) :
  progresses (a ++ b) = progresses a ++ progresses b.
Proof.
  induction a as [|u a IH]; simpl; [reflexivity|].
  destruct (u_progress u); simpl; rewrite IH; reflexivity.
Qed.

Lemma warning_silent (w : World) (id : str) (u : JobUpdate) (t : list Event) :
  updates (warning w id u t) = [] /\ synth_calls (warning w id u t) = []
  /\ uploads (warning w id u t) = [] /\ without_warnings (warning w id u t) = [].
Proof. unfold warning. destruct (jobs_update w _ id u); repeat split. Qed.

Lemma updates_warning (w : World) (id : str) (u : JobUpdate) (t : list Event) :
  updates (warning w id u t) = [].
Proof. apply warning_silent. Qed.

Lemma synth_calls_warning (w : World) (id : str) (u : JobUpdate) (t : list Event) :
  synth_calls (warning w id u t) = [].
Proof. apply warning_silent. Qed.

Lemma uploads_warning (w : World) (id : str) (u : JobUpdate) (t : list Event) :
  uploads (warning w id u t) = [].
Proof. apply warning_silent. Qed.

Lemma without_warnings_warning (w : World) (id : str) (u : JobUpdate) (t : list Event) :
  without_warnings (warning w id u t) = [].
Proof. apply warning_silent. Qed.

Lemma updates_update (w : World) (id : str) (u : JobUpdate) (t : list Event) :
  updates (EvUpdate id u :: warning w id u t) = [u].
Proof. simpl. f_equal. apply warning_silent. Qed.

Lemma synth_calls_update (w : World) (id : str) (u : JobUpdate) (t : list Event) :
  synth_calls (EvUpdate id u :: warning w id u t) = [].
Proof. simpl. apply warning_silent. Qed.

Lemma uploads_update (w : World) (id : str) (u : JobUpdate) (t : list Event) :
  uploads (EvUpdate id u :: warning w id u t) = [].
Proof. simpl. apply warning_silent. Qed.

Lemma without_warnings_update (w : World) (id : str) (u : JobUpdate) (t : list Event) :
  without_warnings (EvUpdate id u :: warning w id u t) = [EvUpdate id u].
Proof. simpl. f_equal. apply warning_silent. Qed.

(** [updateJob] appends the update, and a warning when the table refuses
    it; it always resolves. *)
Lemma updateJob_run (w : World) (id : str) (u : JobUpdate) (t : list Event) :
  updateJob w id u t = (Ok tt, t ++ EvUpdate id u :: warning w id u t).
Proof.
  unfold updateJob, bind, updates_so_far, emit, warning, ret.
  destruct (jobs_update w _ id u); [|reflexivity].
  rewrite <- app_assoc. reflexivity.
Qed.

Lemma bind_updateJob {B} (w : World) (id : str) (u : JobUpdate) (f : unit -> M B)
  (t : list Event) :
  bind (updateJob w id u) f t = f tt (t ++ EvUpdate id u :: warning w id u t).
Proof. unfold bind. rewrite updateJob_run. reflexivity. Qed.

(** The three steps that do not look at the trace. *)
Lemma extract_text_run (w : World) (path : str) (t : list Event) :
  extract_text w path t
  = (result_of (extract_text w path), t ++ events_of (extract_text w path)).
Proof.
  unfold result_of, events_of, extract_text, bind, emit, lift, throw, ret.
  destruct (storage_download w path) as [[data|] [message|]]; simpl;
    try reflexivity.
  destruct (PDFParse_getText w data) as [text|e]; simpl.
  - destruct (truthy (trim text)); simpl; rewrite <- app_assoc; reflexivity.
  - rewrite <- app_assoc. reflexivity.
Qed.

Lemma extract_text_events (w : World) (path : str) :
  updates (events_of (extract_text w path)) = []
  /\ synth_calls (events_of (extract_text w path)) = []
  /\ uploads (events_of (extract_text w path)) = []
  /\ without_warnings (events_of (extract_text w path)) = events_of (extract_text w path).
Proof.
  unfold events_of, extract_text, bind, emit, lift, throw, ret.
  destruct (storage_download w path) as [[data|] [message|]]; simpl;
    try (repeat split; reflexivity).
  destruct (PDFParse_getText w data) as [text|e]; simpl.
  - destruct (truthy (trim text)); simpl; repeat split; reflexivity.
  - repeat split; reflexivity.
Qed.

Lemma voice_file_url_run (w : World) (vsp vid : option str) (t : list Event) :
  voice_file_url w vsp vid t = (result_of (voice_file_url w vsp vid), t).
Proof.
  unfold result_of, voice_file_url, throw, ret.
  destruct (truthy_opt vsp); [reflexivity|].
  destruct (truthy_opt vid); reflexivity.
Qed.

Lemma chunk_audio_run (w : World) (model url : str) (i : nat) (chunk : str)
  (t : list Event) :
  chunk_audio w model url i chunk t
  = (chunk_result w model url i chunk, t ++ events_of (chunk_audio w model url i chunk)).
Proof.
  unfold chunk_result, result_of, events_of, chunk_audio, bind, emit, lift, throw, ret.
  simpl. destruct (replicate_run w i model chunk url) as [output|e]; simpl;
    [|reflexivity].
  destruct (fetch w i (audio_url output)) as [res|e]; simpl.
  - destruct (r_ok res); simpl; rewrite <- app_assoc; reflexivity.
  - rewrite <- app_assoc. reflexivity.
Qed.

Lemma chunk_audio_events (w : World) (model url : str) (i : nat) (chunk : str) :
  updates (events_of (chunk_audio w model url i chunk)) = []
  /\ synth_calls (events_of (chunk_audio w model url i chunk)) = [(i, chunk)]
  /\ uploads (events_of (chunk_audio w model url i chunk)) = []
  /\ without_warnings (events_of (chunk_audio w model url i chunk))
     = events_of (chunk_audio w model url i chunk).
Proof.
  unfold events_of, chunk_audio, bind, emit, lift, throw, ret.
  simpl. destruct (replicate_run w i model chunk url) as [output|e]; simpl;
    [|repeat split; reflexivity].
  destruct (fetch w i (audio_url output)) as [res|e]; simpl.
  - destruct (r_ok res); simpl; repeat split; reflexivity.
  - repeat split; reflexivity.
Qed.

End Steps.

#[export] Hint Rewrite updates_app synth_calls_app uploads_app without_warnings_app
  progresses_app updates_update synth_calls_update uploads_update
  without_warnings_update updates_warning synth_calls_warning uploads_warning
  without_warnings_warning app_nil_l app_nil_r : trace.

(** Compute the readings of a trace that is given by its pieces. *)
Ltac trace_simpl :=
  repeat (progress (autorewrite with trace;
                    cbn [Trace.updates Trace.synth_calls Trace.uploads
                         Trace.without_warnings])).

(* ================================================================== *)
(** ** The loop over the chunks *)

Section Loop.
Import JS Task PdfParseTask Trace.
Context {FR : FloorRatio}.

(** The loop calls the synthesizer for the chunks in turn, from index
    [i] on.  It resolves when every chunk is synthesized, with the audio
    in the order of the chunks; it rejects at the first chunk that fails,
    and then has made no call for the chunks after that one. *)
Lemma synth_loop_run (w : World) (id url : str) (n : nat) (rest : list str) :
  forall (i : nat) (acc : list bytes) (t : list Event),
  match synth_loop w id (f5ttsModel w) url n i rest acc t with
  | (Ok out, t') =>
      exists bodies,
        out = acc ++ bodies
        /\ Forall2 (synthesized w url) (combine (seq i (length rest)) rest) bodies
        /\ synth_calls t' = synth_calls t ++ combine (seq i (length rest)) rest
        /\ updates t'
           = updates t ++ map (fun j => progress_only (chunkProgress j n))
                              (seq i (length rest))
        /\ uploads t' = uploads t
  | (Throw e, t') =>
      exists k chunk bodies,
        nth_error rest k = Some chunk
        /\ chunk_result w (f5ttsModel w) url (i + k) chunk = Throw e
        /\ Forall2 (synthesized w url) (combine (seq i k) (firstn k rest)) bodies
        /\ synth_calls t' = synth_calls t ++ combine (seq i (S k)) (firstn (S k) rest)
        /\ updates t'
           = updates t ++ map (fun j => progress_only (chunkProgress j n)) (seq i k)
        /\ uploads t' = uploads t
  end.
Proof.
  induction rest as [|chunk rest IH]; intros i acc t.
  - simpl. exists []. rewrite !app_nil_r. repeat split. constructor.
  - simpl synth_loop. unfold bind at 1. rewrite chunk_audio_run.
    destruct (chunk_audio_events w (f5ttsModel w) url i chunk) as (Eu & Es & Ep & _).
    destruct (chunk_result w (f5ttsModel w) url i chunk) as [body|e] eqn:Er.
    + rewrite bind_updateJob.
      match goal with
      | |- context [synth_loop _ _ _ _ _ _ _ _ ?t2] => set (t' := t2)
      end.
      specialize (IH (S i) (acc ++ [body]) t').
      assert (Hs : synth_calls t' = synth_calls t ++ [(i, chunk)]).
      { unfold t'. autorewrite with trace. rewrite Es, ?app_nil_r. reflexivity. }
      assert (Hu : updates t' = updates t ++ [progress_only (chunkProgress i n)]).
      { unfold t'. autorewrite with trace. rewrite Eu, ?app_nil_r. reflexivity. }
      assert (Hp : uploads t' = uploads t).
      { unfold t'. autorewrite with trace. rewrite Ep, ?app_nil_r. reflexivity. }
      destruct (synth_loop w id (f5ttsModel w) url n (S i) rest (acc ++ [body]) t')
        as [[out|e] t''].
      * destruct IH as (bodies & Ho & Hf & Hs' & Hu' & Hp').
        exists (body :: bodies). simpl. repeat split.
        -- rewrite Ho, <- app_assoc. reflexivity.
        -- constructor; [exact Er | exact Hf].
        -- rewrite Hs', Hs, <- app_assoc. reflexivity.
        -- rewrite Hu', Hu, <- app_assoc. reflexivity.
        -- congruence.
      * destruct IH as (k & c & bodies & Hn & Hr & Hf & Hs' & Hu' & Hp').
        exists (S k), c, (body :: bodies). repeat split.
        -- exact Hn.
        -- rewrite <- Hr. f_equal. lia.
        -- simpl. constructor; [exact Er | exact Hf].
        -- rewrite Hs', Hs, <- app_assoc. reflexivity.
        -- rewrite Hu', Hu, <- app_assoc. reflexivity.
        -- congruence.
    + exists 0%nat, chunk, []. repeat split.
      * rewrite Nat.add_0_r. exact Er.
      * constructor.
      * simpl. rewrite synth_calls_app, Es. reflexivity.
      * simpl. rewrite updates_app, Eu. reflexivity.
      * rewrite uploads_app, Ep, app_nil_r. reflexivity.
Qed.

End Loop.

(* ================================================================== *)
(** ** The shapes of a run *)

Section Run.
Import JS Task PdfParseTask Trace.
Context {FR : FloorRatio}.

Lemma firstn_seq_le (k a n : nat) : (k <= n)%nat -> firstn k (seq a n) = seq a k.
Proof.
  revert a n. induction k as [|k IH]; intros a n Hk; [reflexivity|].
  destruct n as [|n]; [lia|]. simpl. f_equal. apply IH. lia.
Qed.

Lemma indexed_firstn (chunks : list str) (k : nat) :
  (k <= length chunks)%nat ->
  combine (seq 0 k) (firstn k chunks) = firstn k (indexed chunks).
Proof.
  intros Hk. unfold indexed. rewrite combine_firstn, firstn_seq_le by exact Hk.
  reflexivity.
Qed.

(** The [try] block fails before the loop, or in the loop at the first
    chunk that cannot be synthesized, or at the upload, or it returns. *)
Lemma run_body_cases (w : World) (p : GenerateAudiobookPayload)
  (r : Result Success) (t : list Event) :
  run_body w p [] = (r, t) ->
  (exists e k,
      r = Throw e /\ synth_calls t = [] /\ uploads t = []
      /\ updates t = firstn k base_updates
      /\ (result_of (extract_text w (pdfStoragePath p)) = Throw e
          \/ (exists text, result_of (extract_text w (pdfStoragePath p)) = Ok text)
             /\ result_of (voice_file_url w (voiceStoragePath p) (videoId p)) = Throw e))
  \/ exists text url,
      result_of (extract_text w (pdfStoragePath p)) = Ok text
      /\ result_of (voice_file_url w (voiceStoragePath p) (videoId p)) = Ok url
      /\ let chunks := splitText text maxChunkChars in
         let n := length chunks in
         (exists k chunk e bodies,
             nth_error chunks k = Some chunk
             /\ chunk_result w (f5ttsModel w) url k chunk = Throw e
             /\ Forall2 (synthesized w url) (firstn k (indexed chunks)) bodies
             /\ r = Throw e
             /\ synth_calls t = firstn (S k) (indexed chunks)
             /\ uploads t = []
             /\ updates t = base_updates ++ chunk_updates n k)
         \/ exists bodies,
             Forall2 (synthesized w url) (indexed chunks) bodies
             /\ synth_calls t = indexed chunks
             /\ uploads t = [(outputPath (jobId p), Buffer_concat bodies)]
             /\ ((exists message,
                     storage_upload w (outputPath (jobId p)) (Buffer_concat bodies)
                     = Some message
                     /\ r = Throw (JsError (lit "Failed to upload audiobook: " ++ message))
                     /\ updates t
                        = base_updates ++ chunk_updates n n ++ [progress_only 90])
                 \/ (storage_upload w (outputPath (jobId p)) (Buffer_concat bodies) = None
                     /\ r = Ok (mkSuccess (jobId p) (outputPath (jobId p)))
                     /\ updates t
                        = base_updates ++ chunk_updates n n
                          ++ [progress_only 90; ready_update (jobId p)])).
Proof.
  intros H. cbv zeta. unfold run_body in H.
  rewrite !bind_updateJob in H. unfold bind at 1 in H. rewrite extract_text_run in H.
  destruct (extract_text_events w (pdfStoragePath p)) as (Xu & Xs & Xp & _).
  destruct (result_of (extract_text w (pdfStoragePath p))) as [text|e] eqn:Ex.
  2:{ apply pair_equal_spec in H; destruct H as [<- <-].
      left. exists e, 2%nat. trace_simpl. rewrite Xu, Xs, Xp.
      repeat (split; [reflexivity|]). left. reflexivity. }
  rewrite bind_updateJob in H. unfold bind at 1 in H. rewrite voice_file_url_run in H.
  destruct (result_of (voice_file_url w (voiceStoragePath p) (videoId p)))
    as [url|e] eqn:Ev.
  2:{ apply pair_equal_spec in H; destruct H as [<- <-].
      left. exists e, 3%nat. trace_simpl. rewrite Xu, Xs, Xp.
      repeat (split; [reflexivity|]). right. split; [exists text|]; reflexivity. }
  right. exists text, url. split; [reflexivity|]. split; [reflexivity|].
  rewrite bind_updateJob in H. unfold bind at 1 in H.
  match type of H with
  | context [synth_loop _ _ _ _ _ _ _ _ ?t2] => set (t0 := t2) in H
  end.
  assert (Hs0 : synth_calls t0 = []).
  { unfold t0. trace_simpl. rewrite Xs. reflexivity. }
  assert (Hu0 : updates t0 = base_updates).
  { unfold t0. trace_simpl. rewrite Xu. reflexivity. }
  assert (Hp0 : uploads t0 = []).
  { unfold t0. trace_simpl. rewrite Xp. reflexivity. }
  clearbody t0.
  set (chunks := splitText text maxChunkChars) in *.
  pose proof (synth_loop_run w (jobId p) url (length chunks) chunks 0 [] t0) as HL.
  destruct (synth_loop w (jobId p) (f5ttsModel w) url (length chunks) 0 chunks [] t0)
    as [[out|e] t'].
  - destruct HL as (bodies & Ho & Hf & Hs & Hu & Hp). simpl in Ho. subst out.
    right. exists bodies. rewrite bind_updateJob in H. unfold bind at 1, emit in H.
    fold (indexed chunks) in Hf, Hs.
    destruct (storage_upload w (outputPath (jobId p)) (Buffer_concat bodies))
      as [message|] eqn:Eup.
    + unfold throw in H. apply pair_equal_spec in H; destruct H as [<- <-]. trace_simpl.
      rewrite Hs, Hu, Hp, Hs0, Hu0, Hp0. trace_simpl.
      split; [exact Hf|]. split; [reflexivity|]. split; [reflexivity|].
      left. exists message. split; [reflexivity|]. split; [reflexivity|].
      unfold chunk_updates. rewrite <- app_assoc. reflexivity.
    + rewrite bind_updateJob in H. unfold ret in H. apply pair_equal_spec in H; destruct H as [<- <-].
      trace_simpl.
      rewrite Hs, Hu, Hp, Hs0, Hu0, Hp0. trace_simpl.
      split; [exact Hf|]. split; [reflexivity|]. split; [reflexivity|].
      right. split; [reflexivity|]. split; [reflexivity|].
      unfold chunk_updates, ready_update. rewrite <- !app_assoc. reflexivity.
  - destruct HL as (k & chunk & bodies & Hn & Hr & Hf & Hs & Hu & Hp).
    assert (Hk : (k < length chunks)%nat).
    { apply nth_error_Some. congruence. }
    apply pair_equal_spec in H; destruct H as [<- <-].
    left. exists k, chunk, e, bodies.
    rewrite indexed_firstn in Hf, Hs by lia.
    repeat split; try assumption.
    + rewrite Hs, Hs0. reflexivity.
    + congruence.
    + rewrite Hu, Hu0. reflexivity.
Qed.

(** The [catch] block: log the error, write the failure, throw again. *)
Lemma generateAudiobook_run (w : World) (p : GenerateAudiobookPayload) :
  generateAudiobook w p =
  match run_body w p [] with
  | (Ok s, t) => (Ok s, t)
  | (Throw e, t) =>
      (Throw e,
       (t ++ [EvLogError (jobId p) (error_message e)])
       ++ EvUpdate (jobId p) (failed_update e)
          :: warning w (jobId p) (failed_update e)
               (t ++ [EvLogError (jobId p) (error_message e)]))
  end.
Proof.
  unfold generateAudiobook, run, try_catch.
  destruct (run_body w p []) as [[s|e] t]; [reflexivity|].
  unfold bind at 1, emit. rewrite bind_updateJob. reflexivity.
Qed.

End Run.

(* ================================================================== *)
(** ** Runs that differ in the answers of the [jobs] table *)

Section Warnings.
Import JS Task PdfParseTask Trace.
Context {FR : FloorRatio}.

Lemma same_ret {A} (a : A) : same_but_warnings (ret a) (ret a).
Proof. intros t1 t2 H. split; [reflexivity | exact H]. Qed.

Lemma same_throw {A} (e : Thrown) : same_but_warnings (@throw A e) (throw e).
Proof. intros t1 t2 H. split; [reflexivity | exact H]. Qed.

Lemma same_emit (ev : Event) : same_but_warnings (emit ev) (emit ev).
Proof.
  intros t1 t2 H. split; [reflexivity|].
  unfold emit. simpl. rewrite !without_warnings_app, H. reflexivity.
Qed.

Lemma same_bind {A B} (m1 m2 : M A) (f1 f2 : A -> M B) :
  same_but_warnings m1 m2 -> (forall a, same_but_warnings (f1 a) (f2 a)) ->
  same_but_warnings (bind m1 f1) (bind m2 f2).
Proof.
  intros Hm Hf t1 t2 H. unfold bind.
  destruct (Hm t1 t2 H) as [Hr Ht].
  destruct (m1 t1) as [[a1|e1] t1'], (m2 t2) as [[a2|e2] t2']; simpl in Hr, Ht;
    try discriminate.
  - injection Hr as ->. apply Hf. exact Ht.
  - injection Hr as ->. split; [reflexivity | exact Ht].
Qed.

Lemma same_try_catch {A} (m1 m2 : M A) (h1 h2 : Thrown -> M A) :
  same_but_warnings m1 m2 -> (forall e, same_but_warnings (h1 e) (h2 e)) ->
  same_but_warnings (try_catch m1 h1) (try_catch m2 h2).
Proof.
  intros Hm Hh t1 t2 H. unfold try_catch.
  destruct (Hm t1 t2 H) as [Hr Ht].
  destruct (m1 t1) as [[a1|e1] t1'], (m2 t2) as [[a2|e2] t2']; simpl in Hr, Ht;
    try discriminate.
  - split; [exact Hr | exact Ht].
  - injection Hr as ->. apply Hh. exact Ht.
Qed.

(** A step that does not look at the trace and logs no warning. *)
Lemma same_oblivious {A} (m : M A) :
  (forall t, m t = (result_of m, t ++ events_of m)) -> same_but_warnings m m.
Proof.
  intros Hm t1 t2 H. rewrite (Hm t1), (Hm t2). simpl.
  rewrite !without_warnings_app, H. split; reflexivity.
Qed.

Lemma same_updateJob (w w' : World) (id : str) (u : JobUpdate) :
  same_but_warnings (updateJob w id u) (updateJob w' id u).
Proof.
  intros t1 t2 H. rewrite !updateJob_run. simpl. split; [reflexivity|].
  trace_simpl. rewrite H. reflexivity.
Qed.

Lemma same_synth_loop (w : World) (f : nat -> str -> JobUpdate -> option str)
  (id model url : str) (n : nat) (rest : list str) :
  forall i acc,
    same_but_warnings (synth_loop (with_jobs_update w f) id model url n i rest acc)
                      (synth_loop w id model url n i rest acc).
Proof.
  induction rest as [|chunk rest IH]; intros i acc; simpl.
  - apply same_ret.
  - apply same_bind.
    + apply (same_oblivious (chunk_audio w model url i chunk)).
      intros t. apply chunk_audio_run.
    + intros body. apply same_bind; [apply same_updateJob | intros _; apply IH].
Qed.

Lemma same_run (w : World) (f : nat -> str -> JobUpdate -> option str)
  (p : GenerateAudiobookPayload) :
  same_but_warnings (run (with_jobs_update w f) p) (run w p).
Proof.
  unfold run. apply same_try_catch.
  - unfold run_body.
    apply same_bind; [apply same_updateJob | intros _].
    apply same_bind; [apply same_updateJob | intros _].
    apply same_bind.
    { apply (same_oblivious (extract_text w (pdfStoragePath p))).
      intros t. apply extract_text_run. }
    intros text.
    apply same_bind; [apply same_updateJob | intros _].
    apply same_bind.
    { apply (same_oblivious (voice_file_url w (voiceStoragePath p) (videoId p))).
      intros t. rewrite voice_file_url_run. unfold events_of.
      rewrite voice_file_url_run. simpl. rewrite app_nil_r. reflexivity. }
    intros url.
    apply same_bind; [apply same_updateJob | intros _].
    apply same_bind; [apply same_synth_loop | intros audio].
    apply same_bind; [apply same_updateJob | intros _].
    apply same_bind; [apply same_emit | intros _].
    change (storage_upload (with_jobs_update w f)) with (storage_upload w).
    destruct (storage_upload w (outputPath (jobId p)) (Buffer_concat audio)).
    + apply same_throw.
    + apply same_bind; [apply same_updateJob | intros _; apply same_ret].
  - intros e.
    apply same_bind; [apply same_emit | intros _].
    apply same_bind; [apply same_updateJob | intros _; apply same_throw].
Qed.

End Warnings.

(* ================================================================== *)
(** ** The task: what holds of a run *)

Section Sorted.
Import Trace.

Lemma sorted_app (a b : list Z) (lo : Z) :
  sorted a -> sorted b ->
  (forall x, In x a -> (x <= lo)%Z) -> (forall y, In y b -> (lo <= y)%Z) ->
  sorted (a ++ b).
Proof.
  intros Ha Hb Hlo Hhi. induction a as [|x a IH]; [exact Hb|].
  destruct a as [|x' a].
  - simpl. destruct b as [|y b]; [exact I|]. split; [|exact Hb].
    specialize (Hlo x (or_introl eq_refl)). specialize (Hhi y (or_introl eq_refl)). lia.
  - destruct Ha as [Hx Ha]. split; [exact Hx|].
    apply IH; [exact Ha|]. intros z Hz. apply Hlo. right. exact Hz.
Qed.

Lemma sorted_map_seq (f : nat -> Z) (a k : nat) :
  (forall i j, (a <= i)%nat -> (i <= j)%nat -> (j < a + k)%nat -> (f i <= f j)%Z) ->
  sorted (map f (seq a k)).
Proof.
  revert a. induction k as [|k IH]; intros a Hf; [exact I|].
  destruct k as [|k]; [exact I|].
  split; [apply Hf; lia | apply (IH (S a))].
  intros i j Hi Hij Hj. apply Hf; lia.
Qed.

End Sorted.

Section RunClaims.
Import JS Task PdfParseTask Trace.
Context {FR : FloorRatio}.

Lemma progresses_progress_only (f : nat -> Z) (l : list nat) :
  progresses (map (fun j => progress_only (f j)) l) = map f l.
Proof. induction l as [|j l IH]; simpl; [|rewrite IH]; reflexivity. Qed.

Lemma Forall_firstn {A} (P : A -> Prop) (k : nat) (l : list A) :
  Forall P l -> Forall P (firstn k l).
Proof.
  intros H. rewrite <- (firstn_skipn k l) in H.
  apply Forall_app in H. apply H.
Qed.

Lemma base_updates_in_progress : Forall in_progress base_updates.
Proof. repeat constructor. Qed.

Lemma chunk_updates_in_progress (n k : nat) : Forall in_progress (chunk_updates n k).
Proof.
  unfold chunk_updates. apply Forall_map, Forall_forall.
  intros j _. repeat split.
Qed.

(** While the [try] block has not returned, no update ends the job or
    sets the output location. *)
Lemma failed_body_in_progress (w : World) (p : GenerateAudiobookPayload)
  (e : Thrown) (tb : list Event) :
  run_body w p [] = (Throw e, tb) -> Forall in_progress (updates tb).
Proof.
  intros H. apply run_body_cases in H.
  destruct H as [(e' & k & _ & _ & _ & Hu & _) | (text & url & _ & _ & H)].
  - rewrite Hu. apply Forall_firstn, base_updates_in_progress.
  - cbv zeta in H.
    destruct H as [(k & chunk & e' & bodies & _ & _ & _ & _ & _ & _ & Hu)
                  | (bodies & _ & _ & _ & [(m & _ & _ & Hu) | (_ & Hr & _)])].
    + rewrite Hu. apply Forall_app. split;
        [apply base_updates_in_progress | apply chunk_updates_in_progress].
    + rewrite Hu. apply Forall_app. split; [apply base_updates_in_progress|].
      apply Forall_app. split; [apply chunk_updates_in_progress|].
      repeat constructor.
    + discriminate.
Qed.

Lemma Forall2_nth_error_l {A B} (P : A -> B -> Prop) (l : list A) (l' : list B)
  (k : nat) (x : A) :
  Forall2 P l l' -> nth_error l k = Some x -> exists y, P x y.
Proof.
  intros H. revert k. induction H as [|a b l l' Hab _ IH]; intros k Hk.
  - destruct k; discriminate.
  - destruct k as [|k]; simpl in Hk.
    + injection Hk as <-. exists b. exact Hab.
    + apply (IH k Hk).
Qed.

Lemma Throw_inj {A} (e e' : Thrown) : @Throw A e = Throw e' -> e = e'.
Proof. intros H. injection H as H. exact H. Qed.

Lemma map_fst_combine {A B} (l : list A) (l' : list B) :
  length l = length l' -> map fst (combine l l') = l.
Proof.
  revert l'. induction l as [|a l IH]; intros [|b l'] H; try discriminate;
    [reflexivity|].
  simpl. f_equal. apply IH. simpl in H. lia.
Qed.

Lemma nth_error_combine_seq (chunks : list str) (a k : nat) (chunk : str) :
  nth_error chunks k = Some chunk ->
  nth_error (combine (seq a (length chunks)) chunks) k = Some ((a + k)%nat, chunk).
Proof.
  revert a k. induction chunks as [|c chunks IH]; intros a k Hk.
  - destruct k; discriminate.
  - destruct k as [|k]; simpl in *.
    + injection Hk as <-. rewrite Nat.add_0_r. reflexivity.
    + rewrite (IH (S a) k Hk). do 2 f_equal. lia.
Qed.

Lemma nth_error_indexed (chunks : list str) (k : nat) (chunk : str) :
  nth_error chunks k = Some chunk -> nth_error (indexed chunks) k = Some (k, chunk).
Proof. intros H. apply (nth_error_combine_seq chunks 0 k chunk H). Qed.

(** What the [catch] block adds to the readings of the trace. *)
Lemma generateAudiobook_readings (w : World) (p : GenerateAudiobookPayload)
  (r : Result Success) (tb : list Event) :
  run_body w p [] = (r, tb) ->
  fst (generateAudiobook w p) = r
  /\ uploads (snd (generateAudiobook w p)) = uploads tb
  /\ synth_calls (snd (generateAudiobook w p)) = synth_calls tb
  /\ updates (snd (generateAudiobook w p))
     = updates tb ++ match r with
                     | Throw e => [failed_update e]
                     | Ok _ => []
                     end.
Proof.
  intros H. rewrite generateAudiobook_run, H.
  destruct r as [s|e]; simpl fst; simpl snd.
  - rewrite app_nil_r. repeat split.
  - trace_simpl. repeat split.
Qed.


(** C3.  In a run that returns, the progress values written are 5, 10,
    25, 35, then [35 + floor(((i + 1) / N) * 50)] for the chunks
    [i = 0 .. N-1] in turn, then 90, then 100: a non-decreasing sequence
    whose last value is 100.  In no run, returning or not, is an update of
    status [ready] written after one of status [failed]. *)
Theorem progress_is_monotone (w : World) (p : GenerateAudiobookPayload) :
  (forall s, fst (generateAudiobook w p) = Ok s ->
     exists text n,
       result_of (extract_text w (pdfStoragePath p)) = Ok text
       /\ n = length (splitText text maxChunkChars) /\ (1 <= n)%nat
       /\ progresses (updates (snd (generateAudiobook w p)))
          = [5; 10; 25; 35]%Z
            ++ map (fun i => (35 + floor_ratio50 (i + 1) n)%Z) (seq 0 n)
            ++ [90; 100]%Z
       /\ sorted (progresses (updates (snd (generateAudiobook w p))))
       /\ last (progresses (updates (snd (generateAudiobook w p)))) 0%Z = 100%Z)
  /\ no_ready_after_failed (updates (snd (generateAudiobook w p))).
Proof.
  destruct (run_body w p []) as [r tb] eqn:E.
  destruct (generateAudiobook_readings w p r tb E) as (Hr & _ & _ & Hu).
  rewrite Hr, Hu. clear Hr Hu. split.
  - intros s ->. rewrite app_nil_r. apply run_body_cases in E.
    destruct E as [(e & k & He & _) | (text & url & Hx & _ & E)]; [discriminate|].
    cbv zeta in E.
    destruct E as [(k & chunk & e & bodies & _ & _ & _ & He & _)
                  | (bodies & _ & _ & _ & [(m & _ & He & _) | (_ & _ & Hu)])];
      try discriminate.
    exists text, (length (splitText text maxChunkChars)).
    assert (Hn : (1 <= length (splitText text maxChunkChars))%nat).
    { pose proof (splitText_not_nil text maxChunkChars) as Hne.
      destruct (splitText text maxChunkChars); [congruence | simpl; lia]. }
    set (n := length (splitText text maxChunkChars)) in *.
    assert (Hp : progresses (updates tb)
                 = [5; 10; 25; 35]%Z
                   ++ map (fun i => (35 + floor_ratio50 (i + 1) n)%Z) (seq 0 n)
                   ++ [90; 100]%Z).
    { rewrite Hu, !progresses_app. unfold chunk_updates.
      rewrite progresses_progress_only. reflexivity. }
    rewrite Hp. split; [exact Hx|]. split; [reflexivity|]. split; [exact Hn|].
    split; [reflexivity|]. split.
    + apply (sorted_app _ _ 35%Z).
      * simpl. lia.
      * apply (sorted_app _ _ 85%Z).
        -- apply sorted_map_seq. intros i j _ Hij Hj.
           pose proof (floor_ratio50_mono (i + 1) (j + 1) n). lia.
        -- simpl. lia.
        -- intros x Hx'. apply in_map_iff in Hx'. destruct Hx' as (i & <- & Hi).
           apply in_seq in Hi. pose proof (floor_ratio50_range (i + 1) n). lia.
        -- simpl. intros y [<-|[<-|[]]]; lia.
      * simpl. intros x [<-|[<-|[<-|[<-|[]]]]]; lia.
      * intros y Hy. apply in_app_or in Hy. destruct Hy as [Hy|Hy].
        -- apply in_map_iff in Hy. destruct Hy as (i & <- & Hi).
           apply in_seq in Hi. pose proof (floor_ratio50_range (i + 1) n). lia.
        -- simpl in Hy. destruct Hy as [<-|[<-|[]]]; lia.
    + rewrite !app_assoc.
      change ([90; 100]%Z) with ([90]%Z ++ [100]%Z). rewrite !app_assoc.
      apply last_last.
  - intros pre post u u' Hus Hf Hin.
    destruct r as [s|e].
    + rewrite app_nil_r in Hus. exfalso.
      assert (Hall : Forall (fun x => has_status failed x = false) (updates tb)).
      { apply run_body_cases in E.
        destruct E as [(e & k & He & _) | (text & url & _ & _ & E)]; [discriminate|].
        cbv zeta in E.
        destruct E as [(k & chunk & e & bodies & _ & _ & _ & He & _)
                      | (bodies & _ & _ & _ & [(m & _ & He & _) | (_ & _ & Hu)])];
          try discriminate.
        rewrite Hu. apply Forall_app. split.
        - repeat constructor.
        - apply Forall_app. split; [|repeat constructor].
          eapply Forall_impl; [|apply chunk_updates_in_progress].
          intros a Ha. apply Ha. }
      rewrite Hus in Hall. apply Forall_app in Hall. destruct Hall as [_ Hall].
      inversion Hall as [|? ? Hu' _]. congruence.
    + assert (Hall : Forall (fun x => has_status ready x = false)
                            (updates tb ++ [failed_update e])).
      { apply Forall_app. split; [|repeat constructor].
        eapply Forall_impl; [|apply (failed_body_in_progress w p e tb E)].
        intros a Ha. apply Ha. }
      rewrite Hus in Hall. apply Forall_app in Hall. destruct Hall as [_ Hall].
      inversion Hall as [|? ? _ Hpost]. rewrite Forall_forall in Hpost.
      apply Hpost. exact Hin.
Qed.

(** C9.  [updateJob] never raises: when the [jobs] table refuses an
    update it logs a warning and resolves.  And the answers of the table
    change nothing else in a run: with any other table the run resolves
    or rejects in the same way and makes the same calls, the warnings
    apart. *)
Theorem recorder_failure_is_not_fatal (w : World)
  (f : nat -> str -> JobUpdate -> option str) (p : GenerateAudiobookPayload) :
  (forall id u t,
      exists t', updateJob w id u t = (Ok tt, t')
                 /\ match jobs_update w (length (filter is_update t)) id u with
                    | Some message => t' = t ++ [EvUpdate id u; EvWarn id message]
                    | None => t' = t ++ [EvUpdate id u]
                    end)
  /\ fst (generateAudiobook (with_jobs_update w f) p) = fst (generateAudiobook w p)
  /\ without_warnings (snd (generateAudiobook (with_jobs_update w f) p))
     = without_warnings (snd (generateAudiobook w p)).
Proof.
  split.
  - intros id u t. eexists. split; [apply updateJob_run|].
    unfold warning. destruct (jobs_update w _ id u); reflexivity.
  - apply (same_run w f p [] []). reflexivity.
Qed.

(** C2, amended.  When the [try] block raises an error [e], whatever the
    step: the steps after the failing one are not run (an error before
    the loop leaves the synthesizer uncalled and nothing uploaded; an
    error at chunk [k] leaves exactly the calls for chunks [0 .. k] and
    nothing uploaded; the only other error is that of the upload); the
    error is logged and the last write to the job is
    [{status: "failed", error: <message of e>}]; no write of the run sets
    the output location or the status [ready]; and the run then throws
    [e] again, to whoever awaits it. *)
Theorem failure_is_recorded (w : World) (p : GenerateAudiobookPayload)
  (e : Thrown) (tb : list Event) :
  run_body w p [] = (Throw e, tb) ->
  fst (generateAudiobook w p) = Throw e
  /\ (exists warn,
         snd (generateAudiobook w p)
         = tb ++ EvLogError (jobId p) (error_message e)
              :: EvUpdate (jobId p)
                   (mkUpdate (Some failed) None (Some (error_message e)) None)
              :: warn
         /\ updates warn = [])
  /\ updates (snd (generateAudiobook w p))
     = updates tb ++ [mkUpdate (Some failed) None (Some (error_message e)) None]
  /\ Forall (fun u => u_audio_storage_path u = None /\ has_status ready u = false)
            (updates (snd (generateAudiobook w p)))
  /\ ((synth_calls (snd (generateAudiobook w p)) = []
       /\ uploads (snd (generateAudiobook w p)) = []
       /\ (result_of (extract_text w (pdfStoragePath p)) = Throw e
           \/ result_of (voice_file_url w (voiceStoragePath p) (videoId p)) = Throw e))
      \/ (exists text url k chunk,
             result_of (extract_text w (pdfStoragePath p)) = Ok text
             /\ result_of (voice_file_url w (voiceStoragePath p) (videoId p)) = Ok url
             /\ nth_error (splitText text maxChunkChars) k = Some chunk
             /\ chunk_result w (f5ttsModel w) url k chunk = Throw e
             /\ synth_calls (snd (generateAudiobook w p))
                = firstn (S k) (indexed (splitText text maxChunkChars))
             /\ uploads (snd (generateAudiobook w p)) = [])
      \/ (exists message,
             e = JsError (lit "Failed to upload audiobook: " ++ message)))
  /\ (forall text url k chunk e',
         result_of (extract_text w (pdfStoragePath p)) = Ok text ->
         result_of (voice_file_url w (voiceStoragePath p) (videoId p)) = Ok url ->
         nth_error (splitText text maxChunkChars) k = Some chunk ->
         (forall j c, (j < k)%nat -> nth_error (splitText text maxChunkChars) j = Some c ->
                      exists body, chunk_result w (f5ttsModel w) url j c = Ok body) ->
         chunk_result w (f5ttsModel w) url k chunk = Throw e' ->
         e = e'
         /\ map fst (synth_calls (snd (generateAudiobook w p))) = seq 0 (S k)
         /\ uploads (snd (generateAudiobook w p)) = []).
Proof.
  intros E.
  destruct (generateAudiobook_readings w p _ tb E) as (Hr & Hp & Hs & Hu).
  pose proof (failed_body_in_progress w p e tb E) as Hprog.
  assert (Ht : snd (generateAudiobook w p)
               = tb ++ EvLogError (jobId p) (error_message e)
                    :: EvUpdate (jobId p) (failed_update e)
                    :: warning w (jobId p) (failed_update e)
                         (tb ++ [EvLogError (jobId p) (error_message e)])).
  { rewrite generateAudiobook_run, E. simpl snd. rewrite <- app_assoc. reflexivity. }
  rewrite Hp, Hs, Hu.
  split; [exact Hr|]. split.
  { eexists. split; [exact Ht | apply updates_warning]. }
  split; [reflexivity|]. split.
  { apply Forall_app. split; [|repeat constructor].
    eapply Forall_impl; [|exact Hprog]. intros a Ha. split; apply Ha. }
  apply run_body_cases in E.
  destruct E as [(e0 & k0 & He & Hs0 & Hp0 & _ & Hwhy) | (text & url & Hx & Hv & E)].
  - apply Throw_inj in He. subst e0. split.
    + left. split; [exact Hs0|]. split; [exact Hp0|].
      destruct Hwhy as [Hw|[_ Hw]]; [left | right]; exact Hw.
    + intros text url k chunk e' Hx Hv _ _ _.
      destruct Hwhy as [Hw|[_ Hw]]; congruence.
  - cbv zeta in E.
    destruct E as [(k0 & chunk0 & e0 & bodies & Hn0 & Hc0 & Hf0 & He & Hs0 & Hp0 & _)
                  | (bodies & Hf0 & Hs0 & Hp0 & [(m & _ & He & _) | (_ & He & _)])];
      [| |discriminate].
    + apply Throw_inj in He. subst e0. split.
      * right. left. exists text, url, k0, chunk0. repeat split; assumption.
      * intros text' url' k chunk e' Hx' Hv' Hn Hbefore Hc.
        assert (text' = text) by congruence.
        assert (url' = url) by congruence. subst text' url'.
        destruct (lt_eq_lt_dec k k0) as [[Hlt|Heq]|Hgt].
        -- exfalso.
           assert (Hk : nth_error (firstn k0 (indexed (splitText text maxChunkChars))) k
                        = Some (k, chunk)).
           { rewrite nth_error_firstn.
             destruct (Nat.ltb_spec k k0); [|lia].
             apply nth_error_indexed. exact Hn. }
           destruct (Forall2_nth_error_l _ _ _ _ _ Hf0 Hk) as (body & Hb).
           unfold synthesized in Hb. simpl in Hb. congruence.
        -- subst k0. assert (chunk0 = chunk) by congruence. subst chunk0.
           split; [congruence|]. split; [|exact Hp0].
           rewrite Hs0. unfold indexed. rewrite combine_firstn.
           assert (Hk : (S k <= length (splitText text maxChunkChars))%nat).
           { apply Nat.le_succ_l. apply nth_error_Some. congruence. }
           rewrite firstn_seq_le by exact Hk.
           rewrite map_fst_combine; [reflexivity|].
           rewrite length_seq, length_firstn. lia.
        -- exfalso. destruct (Hbefore k0 chunk0 Hgt Hn0) as (body & Hb). congruence.
    + apply Throw_inj in He. subst e. split.
      * right. right. exists m. reflexivity.
      * intros text' url' k chunk e' Hx' Hv' Hn _ Hc. exfalso.
        assert (text' = text) by congruence.
        assert (url' = url) by congruence. subst text' url'.
        destruct (Forall2_nth_error_l _ _ _ _ _ Hf0 (nth_error_indexed _ _ _ Hn))
          as (body & Hb).
        unfold synthesized in Hb. simpl in Hb. congruence.
Qed.

(** C7, amended.  The step that gets the URL of the voice sample fails
    exactly when the job has no path of an uploaded sample ([null], or
    the empty string).  With a path it takes the public URL of the sample
    and goes on.  Without one it fails: with the error that asks for an
    upload when the job has a video id, with "No voice sample provided"
    when it has neither; the run then rejects without calling the
    synthesizer. *)
Theorem voice_step_needs_upload (w : World) (p : GenerateAudiobookPayload) :
  let vsp := voiceStoragePath p in
  let vid := videoId p in
  (forall t, (exists e, fst (voice_file_url w vsp vid t) = Throw e)
             <-> truthy_opt vsp = false)
  /\ (forall t path, vsp = Some path -> path <> [] ->
        voice_file_url w vsp vid t = (Ok (storage_getPublicUrl w path), t))
  /\ (forall t, truthy_opt vsp = false -> truthy_opt vid = true ->
        voice_file_url w vsp vid t
        = (Throw (JsError (lit
            "YouTube audio extraction requires yt-dlp. Please upload a voice sample directly for now.")),
           t))
  /\ (forall t, truthy_opt vsp = false -> truthy_opt vid = false ->
        voice_file_url w vsp vid t = (Throw (JsError (lit "No voice sample provided")), t))
  /\ (truthy_opt vsp = false ->
        exists e, fst (generateAudiobook w p) = Throw e
                  /\ synth_calls (snd (generateAudiobook w p)) = []
                  /\ uploads (snd (generateAudiobook w p)) = []).
Proof.
  cbv zeta. split; [|split; [|split; [|split]]].
  - intros t. unfold voice_file_url, throw, ret.
    destruct (truthy_opt (voiceStoragePath p)); simpl.
    + split; [intros (e & He); discriminate | discriminate].
    + split; [reflexivity|]. intros _.
      destruct (truthy_opt (videoId p)); eexists; reflexivity.
  - intros t path Hp Hne. unfold voice_file_url. rewrite Hp. simpl.
    destruct path; [congruence | reflexivity].
  - intros t H1 H2. unfold voice_file_url. rewrite H1, H2. reflexivity.
  - intros t H1 H2. unfold voice_file_url. rewrite H1, H2. reflexivity.
  - intros Hv.
    assert (Hno : forall url,
               result_of (voice_file_url w (voiceStoragePath p) (videoId p)) <> Ok url).
    { intros url. unfold result_of, voice_file_url. rewrite Hv.
      destruct (truthy_opt (videoId p)); discriminate. }
    destruct (run_body w p []) as [r tb] eqn:E.
    destruct (generateAudiobook_readings w p r tb E) as (Hr & Hp & Hs & _).
    rewrite Hr, Hp, Hs. apply run_body_cases in E.
    destruct E as [(e & k & He & Hs0 & Hp0 & _) | (text & url & _ & Hu & _)].
    + exists e. repeat split; assumption.
    + exfalso. exact (Hno url Hu).
Qed.

(** C8, amended.  When [replicate.run] resolves, the audio of the chunk
    is what [fetch] gets from one URL: the answer itself when it is a
    string, its [url] property when it is an object that has one, and
    [String(output)] otherwise.  The chunk yields the body of the
    response when the response is ok, and fails otherwise.  So a byte
    payload is not returned as bytes: its elements joined by commas are
    fetched as if they were a URL. *)
Theorem audio_is_fetched_from_a_url (w : World) (model url chunk : str) (i : nat)
  (output : Output) :
  replicate_run w i model chunk url = Ok output ->
  (forall t,
      chunk_audio w model url i chunk t
      = (match fetch w i (audio_url output) with
         | Ok res =>
             if r_ok res then Ok (r_body res)
             else Throw (JsError (lit "Failed to download generated audio for chunk "
                                  ++ of_nat (i + 1)))
         | Throw e => Throw e
         end,
         t ++ [EvRun i model chunk url; EvFetch i (audio_url output)]))
  /\ (forall s, output = OutString s -> audio_url output = s)
  /\ (forall u, output = OutUrlObject u -> audio_url output = u)
  /\ (forall b, output = OutBytes b ->
        audio_url output = join_comma (map (fun x => of_nat (N.to_nat x)) b)).
Proof.
  intros Hrun. split.
  - intros t. unfold chunk_audio, bind, emit, lift, throw, ret. rewrite Hrun.
    destruct (fetch w i (audio_url output)) as [res|e].
    + destruct (r_ok res); simpl; rewrite <- app_assoc; reflexivity.
    + rewrite <- app_assoc. reflexivity.
  - repeat split; intros x ->; reflexivity.
Qed.

End RunClaims.

(* ================================================================== *)
(** ** Runs against the stub collaborators *)

Section Scenarios.
Import JS Task PdfParseTask Trace Stub.

Example five_chunks :
  map (@length codeunit) (splitText five_sentences maxChunkChars)
  = [4000; 4000; 4000; 4000; 4000]%nat.
Proof. vm_compute. reflexivity. Qed.

(** A run that returns: five calls in order, the five bodies in order in
    the uploaded file, the job ready at 100. *)
Example run_returns :
  fst (generateAudiobook book upload_job)
  = Ok (mkSuccess (lit "job-1") (lit "output/job-1/audiobook.wav"))
  /\ map fst (synth_calls (snd (generateAudiobook book upload_job)))
     = [0; 1; 2; 3; 4]%nat
  /\ uploads (snd (generateAudiobook book upload_job))
     = [(lit "output/job-1/audiobook.wav", [0; 1; 2; 3; 4]%N)]
  /\ progresses (updates (snd (generateAudiobook book upload_job)))
     = [5; 10; 25; 35; 45; 55; 65; 75; 85; 90; 100]%Z.
Proof. vm_compute. repeat split. Qed.

(** The synthesizer fails on chunk 2 of 5: three calls, nothing
    uploaded, the job failed. *)
Example run_fails_at_chunk_2 :
  let t := snd (generateAudiobook (world five_sentences url_output (Some 2%nat))
                                  upload_job) in
  map fst (synth_calls t) = [0; 1; 2]%nat
  /\ uploads t = []
  /\ last (updates t) (progress_only 0)
     = mkUpdate (Some failed) None (Some (lit "Prediction failed")) None.
Proof. vm_compute. repeat split. Qed.


(** C2, as stated, fails: the error of a failed run is thrown again, it
    does escape to the caller of [run]. *)
Lemma failed_run_throws_again :
  fst (generateAudiobook (no_pdf book) upload_job)
  = Throw (JsError (lit "Failed to download PDF: Object not found")).
Proof. vm_compute. reflexivity. Qed.

Lemma failure_is_recorded_witness :
  run_body (world five_sentences url_output (Some 2%nat)) upload_job []
  = (Throw (JsError (lit "Prediction failed")),
     snd (run_body (world five_sentences url_output (Some 2%nat)) upload_job []))
  /\ fst (generateAudiobook (world five_sentences url_output (Some 2%nat)) upload_job)
     = Throw (JsError (lit "Prediction failed")).
Proof.
  assert (H : run_body (world five_sentences url_output (Some 2%nat)) upload_job []
              = (Throw (JsError (lit "Prediction failed")),
                 snd (run_body (world five_sentences url_output (Some 2%nat))
                               upload_job []))).
  { vm_compute. reflexivity. }
  exact (conj H (proj1 (failure_is_recorded _ _ _ _ H))).
Defined.

Lemma progress_is_monotone_witness :
  fst (generateAudiobook book upload_job)
  = Ok (mkSuccess (lit "job-1") (lit "output/job-1/audiobook.wav"))
  /\ exists text n,
      result_of (extract_text book (pdfStoragePath upload_job)) = Ok text
      /\ n = length (splitText text maxChunkChars) /\ (1 <= n)%nat
      /\ progresses (updates (snd (generateAudiobook book upload_job)))
         = [5; 10; 25; 35]%Z
           ++ map (fun i => (35 + floor_ratio50 (i + 1) n)%Z) (seq 0 n)
           ++ [90; 100]%Z
      /\ sorted (progresses (updates (snd (generateAudiobook book upload_job))))
      /\ last (progresses (updates (snd (generateAudiobook book upload_job)))) 0%Z
         = 100%Z.
Proof.
  assert (H : fst (generateAudiobook book upload_job)
              = Ok (mkSuccess (lit "job-1") (lit "output/job-1/audiobook.wav"))).
  { vm_compute. reflexivity. }
  exact (conj H (proj1 (progress_is_monotone book upload_job) _ H)).
Defined.

(** C7, as stated, fails: a job that has a video id and no uploaded
    sample gets no URL; it fails at that step, before any synthesis. *)
Lemma video_only_job_fails :
  fst (generateAudiobook book video_job)
  = Throw (JsError (lit
      "YouTube audio extraction requires yt-dlp. Please upload a voice sample directly for now."))
  /\ synth_calls (snd (generateAudiobook book video_job)) = []
  /\ ~ (exists url t, voice_file_url book None (Some (lit "dQw4w9WgXcQ")) [] = (Ok url, t)).
Proof.
  split; [vm_compute; reflexivity|]. split; [vm_compute; reflexivity|].
  intros (url & t & H). vm_compute in H. discriminate.
Qed.

Lemma voice_step_needs_upload_witness :
  truthy_opt (voiceStoragePath video_job) = false
  /\ exists e, fst (generateAudiobook book video_job) = Throw e
               /\ synth_calls (snd (generateAudiobook book video_job)) = []
               /\ uploads (snd (generateAudiobook book video_job)) = [].
Proof.
  assert (H : truthy_opt (voiceStoragePath video_job) = false) by reflexivity.
  exact (conj H (proj2 (proj2 (proj2 (proj2
                  (voice_step_needs_upload book video_job)))) H)).
Defined.

(** C8, as stated, fails: when the synthesizer answers with the bytes of
    the audio, the chunk does not yield them; the bytes are printed,
    the print is fetched as a URL, and the chunk fails. *)
Lemma bytes_payload_is_not_returned :
  replicate_run (world five_sentences bytes_output None) 0 default_model
                (lit "Hello.") (lit "https://storage.test/audiobooks/voices/me.wav")
  = Ok (OutBytes [82; 73; 70; 70; 0]%N)
  /\ chunk_audio (world five_sentences bytes_output None) default_model
                 (lit "https://storage.test/audiobooks/voices/me.wav") 0 (lit "Hello.") []
     = (Throw (JsError (lit "Failed to parse URL")),
        [EvRun 0 default_model (lit "Hello.")
               (lit "https://storage.test/audiobooks/voices/me.wav");
         EvFetch 0 (lit "82,73,70,70,0")]).
Proof. split; vm_compute; reflexivity. Qed.

Lemma audio_is_fetched_from_a_url_witness :
  replicate_run book 3 default_model (lit "Hello.") (lit "https://storage.test/v.wav")
  = Ok (OutString (lit "https://replicate.test/out/3"))
  /\ forall t,
      chunk_audio book default_model (lit "https://storage.test/v.wav") 3 (lit "Hello.") t
      = (match fetch book 3 (audio_url (OutString (lit "https://replicate.test/out/3"))) with
         | Ok res =>
             if r_ok res then Ok (r_body res)
             else Throw (JsError (lit "Failed to download generated audio for chunk "
                                  ++ of_nat (3 + 1)))
         | Throw e => Throw e
         end,
         t ++ [EvRun 3 default_model (lit "Hello.") (lit "https://storage.test/v.wav");
               EvFetch 3 (audio_url (OutString (lit "https://replicate.test/out/3")))]).
Proof.
  assert (H : replicate_run book 3 default_model (lit "Hello.")
                            (lit "https://storage.test/v.wav")
              = Ok (OutString (lit "https://replicate.test/out/3"))).
  { vm_compute. reflexivity. }
  exact (conj H (proj1 (audio_is_fetched_from_a_url book default_model
                          (lit "https://storage.test/v.wav") (lit "Hello.") 3 _ H))).
Defined.

End Scenarios.



(* ================================================================== *)
(** ** More on the chunker *)

Section ChunkerShape.
Import JS PdfParseTask Chunks.

Lemma trimStart_id (s : str) : starts_ws s = false -> trimStart s = s.
Proof. destruct s as [|c r]; simpl; [reflexivity|]. intros ->. reflexivity. Qed.

Lemma trimEnd_head (s : str) : starts_ws s = false -> starts_ws (trimEnd s) = false.
Proof.
  destruct s as [|c r]; simpl; [reflexivity|]. intros Hc.
  destruct (trimEnd r); [rewrite Hc|]; simpl; exact Hc.
Qed.

Lemma trimEnd_idem (s : str) : trimEnd (trimEnd s) = trimEnd s.
Proof.
  rewrite (trimEnd_rev (trimEnd s)), (trimEnd_rev s), rev_involutive.
  rewrite (trimStart_id (trimStart (rev s))) by apply trimStart_head. reflexivity.
Qed.

Lemma trim_idem (s : str) : trim (trim s) = trim s.
Proof.
  unfold trim.
  rewrite (trimStart_id (trimEnd (trimStart s)))
    by (apply trimEnd_head, trimStart_head).
  apply trimEnd_idem.
Qed.

(** The chunks pushed by the loop are trimmed and not empty. *)
Lemma fold_trimmed (m : Z) (l : list str) (st : list str * str) :
  Forall (fun seg => seg <> [] /\ trim seg = seg) (fst st) ->
  Forall (fun seg => seg <> [] /\ trim seg = seg)
         (fst (fold_left (splitText_step m) l st)).
Proof.
  revert st. induction l as [|s l IH]; intros st H; simpl; [exact H|].
  apply IH. destruct st as [chunks current]. unfold splitText_step.
  destruct (truthy (trim s)); simpl; [|exact H].
  destruct (len current + len s + 1 <=? m)%Z; simpl; [exact H|].
  destruct (truthy (trim current)) eqn:E; [|exact H].
  apply Forall_app. split; [exact H|]. constructor; [|constructor].
  split; [apply truthy_true_not_nil; exact E | apply trim_idem].
Qed.

(** The chunks before the last line of [splitText] hold the words of the
    text. *)
Lemma flushed_words (text : str) (m : Z) :
  let st := fold_left (splitText_step m) (split_sentences text) ([], []) in
  concat (map words (if truthy (trim (snd st)) then fst st ++ [trim (snd st)]
                     else fst st))
  = words text.
Proof.
  cbv zeta.
  pose proof (fold_content m (split_sentences text) ([], []) (or_introl eq_refl)) as H.
  pose proof (split_sentences_words false text) as Hw.
  fold (split_sentences text) in Hw.
  unfold content in H. rewrite Hw in H. simpl in H. rewrite <- H.
  destruct (truthy (trim (snd _))) eqn:Ec.
  - rewrite map_app, concat_app. simpl. rewrite app_nil_r, words_trim. reflexivity.
  - apply truthy_false_nil in Ec. apply trim_nil_blank in Ec.
    rewrite (words_blank _ Ec), app_nil_r. reflexivity.
Qed.

(** For a text that is not blank the last line of [splitText] returns
    the chunks of the loop. *)
Lemma splitText_not_blank (text : str) (m : Z) :
  blank text = false ->
  let st := fold_left (splitText_step m) (split_sentences text) ([], []) in
  splitText text m
  = (if truthy (trim (snd st)) then fst st ++ [trim (snd st)] else fst st).
Proof.
  intros Hb. cbv zeta. rewrite splitText_unfold. cbv zeta.
  pose proof (flushed_words text m) as Hw. cbv zeta in Hw.
  destruct (if truthy (trim (snd _)) then _ else _) as [|c cs]; [|reflexivity].
  simpl in Hw. symmetry in Hw. apply words_nil_blank in Hw. congruence.
Qed.

(** X1.  For a text that is not blank, every segment is non-empty and has no
    whitespace at either end. *)
Theorem splitText_segments_trimmed (text : str) (maxChars : Z) :
  blank text = false ->
  Forall (fun seg => seg <> [] /\ trim seg = seg /\ blank seg = false)
         (splitText text maxChars).
Proof.
  intros Hb. rewrite (splitText_not_blank text maxChars Hb). cbv zeta.
  pose proof (fold_trimmed maxChars (split_sentences text) ([], [])
                (Forall_nil _)) as Hf.
  set (st := fold_left (splitText_step maxChars) (split_sentences text) ([], [])) in *.
  assert (Hall : Forall (fun seg => seg <> [] /\ trim seg = seg)
                   (if truthy (trim (snd st)) then fst st ++ [trim (snd st)]
                    else fst st)).
  { destruct (truthy (trim (snd st))) eqn:E; [|exact Hf].
    apply Forall_app. split; [exact Hf|]. constructor; [|constructor].
    split; [apply truthy_true_not_nil; exact E | apply trim_idem]. }
  eapply Forall_impl; [|exact Hall].
  intros seg [Hne Ht]. split; [exact Hne|]. split; [exact Ht|].
  destruct (blank seg) eqn:E; [|reflexivity].
  apply trim_nil_blank in E. congruence.
Qed.

Lemma splitText_segments_trimmed_witness :
  blank (lit " Hello  world. Bye. ") = false
  /\ Forall (fun seg => seg <> [] /\ trim seg = seg /\ blank seg = false)
            (splitText (lit " Hello  world. Bye. ") 10).
Proof.
  assert (H : blank (lit " Hello  world. Bye. ") = false) by reflexivity.
  exact (conj H (splitText_segments_trimmed _ 10 H)).
Defined.

(** *** Segments are made of whole sentences *)

Lemma truthy_trim_blank (s : str) : truthy (trim s) = negb (blank s).
Proof.
  destruct (blank s) eqn:E.
  - apply trim_nil_blank in E. rewrite E. reflexivity.
  - destruct (trim s) eqn:Et; [|reflexivity].
    apply trim_nil_blank in Et. congruence.
Qed.

Lemma spaced_concat (g : list str) :
  g <> [] -> concat (map (fun s => s ++ [sp]) g) = join_sp g ++ [sp].
Proof.
  induction g as [|x g IH]; [congruence|]. intros _.
  destruct g as [|y g].
  - simpl. rewrite app_nil_r. reflexivity.
  - change (join_sp (x :: y :: g)) with (x ++ sp :: join_sp (y :: g)).
    simpl concat. simpl in IH. rewrite IH by discriminate.
    rewrite <- !app_assoc. reflexivity.
Qed.

Lemma join_sp_not_blank (x : str) (g : list str) :
  blank x = false -> blank (join_sp (x :: g)) = false.
Proof.
  intros Hx. rewrite join_sp_cons, blank_app, Hx. reflexivity.
Qed.

(** What the loop holds: [chunks] are the finished groups of sentences,
    [current] is the group being filled. *)
Lemma fold_groups (m : Z) (l : list str) :
  forall (st : list str * str) (groups : list (list str)) (g : list str),
    Forall (fun s => blank s = false) g ->
    Forall (fun g => g <> []) groups ->
    fst st = map (fun g => trim (join_sp g)) groups ->
    snd st = concat (map (fun s => s ++ [sp]) g) ->
    exists groups' g',
      Forall (fun s => blank s = false) g'
      /\ Forall (fun g => g <> []) groups'
      /\ fst (fold_left (splitText_step m) l st)
         = map (fun g => trim (join_sp g)) groups'
      /\ snd (fold_left (splitText_step m) l st)
         = concat (map (fun s => s ++ [sp]) g')
      /\ concat groups' ++ g'
         = (concat groups ++ g) ++ filter (fun s => negb (blank s)) l.
Proof.
  induction l as [|s l IH]; intros [chunks current] groups g Hg Hgs Hc Hcur;
    simpl in Hc, Hcur.
  - exists groups, g. simpl. rewrite app_nil_r. repeat split; assumption.
  - simpl fold_left. unfold splitText_step at 2.
    rewrite truthy_trim_blank. simpl filter.
    destruct (blank s) eqn:Es; simpl negb; cbv iota.
    + apply (IH (chunks, current) groups g); assumption.
    + destruct (len current + len s + 1 <=? m)%Z.
      * destruct (IH (chunks, current ++ s ++ [sp]) groups (g ++ [s]))
          as (groups' & g' & H1 & H2 & H3 & H4 & H5); try assumption.
        { apply Forall_app. split; [exact Hg|]. repeat constructor. exact Es. }
        { simpl. rewrite Hcur, map_app, concat_app. simpl.
          rewrite app_nil_r. reflexivity. }
        exists groups', g'. repeat split; try assumption.
        rewrite H5, <- !app_assoc. reflexivity.
      * destruct g as [|x g].
        -- simpl in Hcur. subst current. simpl truthy. cbv iota.
           destruct (IH (chunks, s ++ [sp]) groups [s])
             as (groups' & g' & H1 & H2 & H3 & H4 & H5); try assumption.
           { repeat constructor. exact Es. }
           { simpl. rewrite app_nil_r. reflexivity. }
           exists groups', g'. repeat split; try assumption.
           rewrite H5, app_nil_r, <- app_assoc. reflexivity.
        -- assert (Ht : trim current = trim (join_sp (x :: g))).
           { rewrite Hcur, spaced_concat by discriminate.
             apply trim_app_blank. reflexivity. }
           assert (Hnb : truthy (trim current) = true).
           { rewrite truthy_trim_blank, Hcur, spaced_concat by discriminate.
             rewrite blank_app, join_sp_not_blank; [reflexivity|].
             inversion Hg. assumption. }
           rewrite Hnb.
           destruct (IH (chunks ++ [trim current], s ++ [sp])
                        (groups ++ [x :: g]) [s])
             as (groups' & g' & H1 & H2 & H3 & H4 & H5).
           { repeat constructor. exact Es. }
           { apply Forall_app. split; [exact Hgs|]. repeat constructor. discriminate. }
           { simpl. rewrite map_app, Hc, Ht. reflexivity. }
           { simpl. rewrite app_nil_r. reflexivity. }
           exists groups', g'. repeat split; try assumption.
           rewrite H5, concat_app. simpl. rewrite app_nil_r, <- !app_assoc.
           reflexivity.
Qed.

Lemma splitText_groups (text : str) (maxChars : Z) :
  blank text = false ->
  exists groups : list (list str),
    concat groups = filter (fun s => negb (blank s)) (split_sentences text)
    /\ Forall (fun g => g <> []) groups
    /\ splitText text maxChars = map (fun g => trim (join_sp g)) groups.
Proof.
  intros Hb. rewrite (splitText_not_blank text maxChars Hb). cbv zeta.
  destruct (fold_groups maxChars (split_sentences text) ([], []) [] [])
    as (groups & g & Hg & Hgs & Hc & Hcur & Hall); try constructor.
  simpl in Hall.
  set (st := fold_left (splitText_step maxChars) (split_sentences text) ([], [])) in *.
  destruct g as [|x g].
  - simpl in Hcur. rewrite Hcur. simpl. exists groups.
    rewrite app_nil_r in Hall. repeat split; assumption.
  - assert (Ht : trim (snd st) = trim (join_sp (x :: g))).
    { rewrite Hcur, spaced_concat by discriminate.
      apply trim_app_blank. reflexivity. }
    assert (Hnb : truthy (trim (snd st)) = true).
    { rewrite truthy_trim_blank, Hcur, spaced_concat by discriminate.
      rewrite blank_app, join_sp_not_blank; [reflexivity|].
      inversion Hg. assumption. }
    rewrite Hnb. exists (groups ++ [x :: g]). repeat split.
    + rewrite concat_app. simpl. rewrite app_nil_r. exact Hall.
    + apply Forall_app. split; [exact Hgs|]. repeat constructor. discriminate.
    + rewrite map_app, Hc, Ht. reflexivity.
Qed.

(** X2.  For a text that is not blank, the segments are made of whole
    sentences: the sentences that are not blank, kept in order, are cut
    into consecutive groups, and each segment is one group joined by
    single spaces and trimmed.  No sentence is cut, repeated or moved. *)
Theorem splitText_whole_sentences (text : str) (maxChars : Z) :
  blank text = false ->
  exists groups : list (list str),
    concat groups = filter (fun s => negb (blank s)) (split_sentences text)
    /\ Forall (fun g => g <> []) groups
    /\ splitText text maxChars = map (fun g => trim (join_sp g)) groups.
Proof.
  intros Hb. destruct (splitText_groups text maxChars Hb) as (groups & H).
  exists groups. exact H.
Qed.

Lemma splitText_whole_sentences_witness :
  blank (lit "One. Two!  Three? Four.") = false
  /\ exists groups : list (list str),
      concat groups
      = filter (fun s => negb (blank s)) (split_sentences (lit "One. Two!  Three? Four."))
      /\ Forall (fun g => g <> []) groups
      /\ splitText (lit "One. Two!  Three? Four.") 12
         = map (fun g => trim (join_sp g)) groups.
Proof.
  assert (H : blank (lit "One. Two!  Three? Four.") = false) by reflexivity.
  exact (conj H (splitText_whole_sentences _ 12 H)).
Defined.

(** *** A text shorter than the bound is one segment *)

(** The sentences with one joining space each fit in the text with one
    more character: every separator has at least one character. *)
Lemma split_sentences_total (b : bool) (s : str) :
  (list_sum (map (fun x => S (length x)) (split_sentences_from b s))
   + (if b && starts_ws s then 1 else 0) <= S (length s))%nat.
Proof.
  revert b. induction s as [|c r IH]; intros b.
  - simpl. rewrite andb_false_r. lia.
  - simpl split_sentences_from. simpl starts_ws. simpl length.
    destruct (b && is_ws c) eqn:E1.
    + specialize (IH true). destruct (true && starts_ws r); lia.
    + destruct (is_punct c && starts_ws r) eqn:E2.
      * apply andb_prop in E2. destruct E2 as [_ Hr].
        specialize (IH true). rewrite Hr in IH. simpl in IH |- *. lia.
      * specialize (IH false). simpl in IH.
        destruct (split_sentences_from false r) as [|p ps]; simpl in IH |- *; lia.
Qed.

Lemma fold_fits_in_current (m : Z) (l : list str) (st : list str * str) :
  (len (snd st) + Z.of_nat (list_sum (map (fun x => S (length x)) l)) <= m)%Z ->
  fst (fold_left (splitText_step m) l st) = fst st.
Proof.
  revert st. induction l as [|s l IH]; intros [chunks current] H; [reflexivity|].
  simpl in H. simpl fold_left. unfold splitText_step at 1.
  destruct (truthy (trim s)); simpl negb; cbv iota.
  - destruct (len current + len s + 1 <=? m)%Z eqn:E.
    + rewrite IH; [reflexivity|]. simpl. unfold len in *.
      rewrite !length_app. simpl. lia.
    + apply Z.leb_gt in E. unfold len in *. lia.
  - rewrite IH; [reflexivity|]. simpl. lia.
Qed.

(** X3.  A text that is not blank and is shorter than [maxChars] comes back as
    one segment, which is the text up to whitespace: in the task, a
    document of fewer than 4000 characters is synthesized in one call. *)
Theorem splitText_short_text (text : str) (maxChars : Z) :
  blank text = false -> (len text < maxChars)%Z ->
  exists seg, splitText text maxChars = [seg]
              /\ normalize_ws seg = normalize_ws text.
Proof.
  intros Hb Hlen. rewrite (splitText_not_blank text maxChars Hb). cbv zeta.
  pose proof (flushed_words text maxChars) as Hw. cbv zeta in Hw.
  assert (Hf : fst (fold_left (splitText_step maxChars) (split_sentences text) ([], []))
               = []).
  { apply (fold_fits_in_current maxChars (split_sentences text) ([], [])).
    pose proof (split_sentences_total false text) as Ht. simpl in Ht.
    unfold split_sentences, len in *. simpl. lia. }
  rewrite Hf in Hw |- *.
  destruct (truthy (trim (snd _))).
  - eexists. split; [reflexivity|].
    simpl in Hw. rewrite app_nil_r in Hw.
    rewrite !normalize_ws_words, Hw. reflexivity.
  - exfalso. simpl in Hw. symmetry in Hw. apply words_nil_blank in Hw. congruence.
Qed.

Lemma splitText_short_text_witness :
  blank (lit "Short book. Two sentences.") = false
  /\ (len (lit "Short book. Two sentences.") < 4000)%Z
  /\ exists seg, splitText (lit "Short book. Two sentences.") 4000 = [seg]
                 /\ normalize_ws seg = normalize_ws (lit "Short book. Two sentences.").
Proof.
  assert (H1 : blank (lit "Short book. Two sentences.") = false) by reflexivity.
  assert (H2 : (len (lit "Short book. Two sentences.") < 4000)%Z) by (vm_compute; reflexivity).
  exact (conj H1 (conj H2 (splitText_short_text _ 4000 H1 H2))).
Defined.

(** The bound is sharp: a text of exactly [maxChars] characters can be
    cut in two. *)
Example splitText_at_the_bound :
  len (lit "a. b") = 4%Z /\ splitText (lit "a. b") 4 = [lit "a."; lit "b"].
Proof. vm_compute. split; reflexivity. Qed.

End ChunkerShape.

(* ================================================================== *)
(** ** Whitespace normalisation, once more *)

Section Normal.
Import JS.

Lemma words_are_words (s : str) :
  Forall (fun w => w <> [] /\ Forall (fun c => is_ws c = false /\ In c s) w) (words s).
Proof.
  induction s as [|c r IH]; [constructor|].
  assert (IH' : Forall (fun w => w <> []
                   /\ Forall (fun x => is_ws x = false /\ In x (c :: r)) w) (words r)).
  { eapply Forall_impl; [|exact IH]. intros w [Hne Hw]. split; [exact Hne|].
    eapply Forall_impl; [|exact Hw]. intros x [H1 H2]. split; [exact H1|].
    right. exact H2. }
  simpl words. destruct (is_ws c) eqn:Ec; [exact IH'|].
  assert (Hc : is_ws c = false /\ In c (c :: r)) by (split; [exact Ec | left; reflexivity]).
  destruct (starts_ws r).
  - constructor; [|exact IH']. split; [discriminate|].
    constructor; [exact Hc | constructor].
  - destruct (words r) as [|w ws].
    + constructor; [|constructor]. split; [discriminate|].
      constructor; [exact Hc | constructor].
    + inversion IH' as [|? ? [Hne Hw] Hws]. constructor; [|exact Hws].
      split; [discriminate|]. constructor; [exact Hc | exact Hw].
Qed.

(** A word is its own only word. *)
Lemma words_of_word (w : str) :
  w <> [] -> Forall (fun c => is_ws c = false) w -> words w = [w].
Proof.
  induction w as [|c r IH]; [congruence|]. intros _ H.
  inversion H as [|? ? Hc Hr]. subst. simpl. rewrite Hc.
  destruct r as [|d r]; [reflexivity|].
  inversion Hr as [|? ? Hd _]. subst. simpl starts_ws. rewrite Hd.
  rewrite IH by (try discriminate; exact Hr). reflexivity.
Qed.

Lemma words_words (s : str) : concat (map words (words s)) = words s.
Proof.
  pose proof (words_are_words s) as H.
  induction H as [|w ws [Hne Hw] _ IH]; [reflexivity|].
  simpl. rewrite IH, words_of_word; [reflexivity | exact Hne|].
  eapply Forall_impl; [|exact Hw]. intros c Hc. apply Hc.
Qed.

(** Normalising twice is normalising once. *)
Lemma normalize_ws_idem (s : str) : normalize_ws (normalize_ws s) = normalize_ws s.
Proof.
  rewrite (normalize_ws_words (normalize_ws s)), (normalize_ws_words s).
  rewrite words_join_sp, words_words. reflexivity.
Qed.

Lemma trim_normalize_ws (s : str) : trim (normalize_ws s) = normalize_ws s.
Proof. unfold normalize_ws. apply trim_idem. Qed.

Lemma in_join_sp (c : codeunit) (l : list str) :
  In c (join_sp l) -> c = sp \/ exists x, In x l /\ In c x.
Proof.
  induction l as [|x l IH]; [intros []|].
  rewrite join_sp_cons. intros H. apply in_app_or in H. destruct H as [H|H].
  - right. exists x. split; [left; reflexivity | exact H].
  - destruct l as [|y l]; [destruct H|]. destruct H as [H|H]; [left; auto|].
    destruct (IH H) as [Hs|(z & Hz & Hc)]; [left; exact Hs|].
    right. exists z. split; [right; exact Hz | exact Hc].
Qed.

(** The characters of a normalised string are spaces and characters of
    the string that are not whitespace. *)
Lemma in_normalize_ws (c : codeunit) (s : str) :
  In c (normalize_ws s) -> c = sp \/ (In c s /\ is_ws c = false).
Proof.
  rewrite normalize_ws_words. intros H.
  apply in_join_sp in H. destruct H as [H|(w & Hw & Hc)]; [left; exact H|].
  right. pose proof (words_are_words s) as Hall.
  rewrite Forall_forall in Hall. destruct (Hall w Hw) as [_ Hcs].
  rewrite Forall_forall in Hcs. destruct (Hcs c Hc). split; assumption.
Qed.

Lemma in_trim (c : codeunit) (s : str) : In c (trim s) -> In c s.
Proof.
  unfold trim. intros H.
  destruct (trimStart_split s) as (pre & Hs & _).
  destruct (trimEnd_split (trimStart s)) as (suf & Hs' & _).
  rewrite Hs, Hs'. apply in_or_app. right. apply in_or_app. left. exact H.
Qed.

End Normal.

(* ================================================================== *)
(** ** Text extracted with regular expressions *)

Section PdfText.
Import JS Task RegexVariant.

Lemma starts_with_split (pat s : str) :
  starts_with pat s = true -> s = pat ++ skipn (length pat) s.
Proof.
  revert s. induction pat as [|p pat IH]; intros s H; [reflexivity|].
  destruct s as [|c s]; [discriminate|]. simpl in H.
  apply andb_prop in H. destruct H as [Hc Hs].
  apply N.eqb_eq in Hc. subst c. simpl. f_equal. apply IH. exact Hs.
Qed.

(** [find_sub] cuts the string around an occurrence of the pattern. *)
Lemma find_sub_split (pat s pre post : str) :
  find_sub pat s = Some (pre, post) -> s = pre ++ pat ++ post.
Proof.
  revert pre post. induction s as [|c r IH]; intros pre post H; simpl in H.
  - destruct (starts_with pat []) eqn:E; [|discriminate].
    injection H as <- <-. destruct pat; [reflexivity | discriminate].
  - destruct (starts_with pat (c :: r)) eqn:E.
    + injection H as <- <-. apply (starts_with_split pat (c :: r) E).
    + destruct (find_sub pat r) as [[pre' post']|]; [|discriminate].
      injection H as <- <-. simpl. f_equal. apply IH. reflexivity.
Qed.

Lemma find_sub_char_before (c : codeunit) (s pre post : str) :
  find_sub [c] s = Some (pre, post) -> ~ In c pre.
Proof.
  revert pre post. induction s as [|x r IH]; intros pre post H; simpl in H.
  - discriminate.
  - destruct (c =? x)%N eqn:E; simpl in H.
    + injection H as <- <-. intros [].
    + destruct (find_sub [c] r) as [[pre' post']|]; [|discriminate].
      injection H as <- <-. intros [Hx|Hin].
      * subst x. rewrite N.eqb_refl in E. discriminate.
      * exact (IH pre' post' eq_refl Hin).
Qed.

Lemma find_sub_char_none (c : codeunit) (s : str) :
  ~ In c s -> find_sub [c] s = None.
Proof.
  induction s as [|x r IH]; intros H; simpl; [reflexivity|].
  destruct (c =? x)%N eqn:E; simpl.
  - apply N.eqb_eq in E. subst x. exfalso. apply H. left. reflexivity.
  - rewrite IH; [reflexivity|]. intros Hin. apply H. right. exact Hin.
Qed.

Lemma in_trimStart (c : codeunit) (s : str) : In c (trimStart s) -> In c s.
Proof.
  destruct (trimStart_split s) as (pre & Hs & _). intros H.
  rewrite Hs. apply in_or_app. right. exact H.
Qed.

(** The blocks between [BT] and [ET] are pieces of the content. *)
Lemma btEt_blocks_within (fuel : nat) (content : str) :
  Forall (fun block => forall c, In c block -> In c content) (btEt_blocks fuel content).
Proof.
  revert content. induction fuel as [|fuel IH]; intros content; [constructor|].
  simpl. destruct (find_sub (lit "BT") content) as [[pre after]|] eqn:E1; [|constructor].
  destruct (find_sub (lit "ET") (trimStart after)) as [[block rest]|] eqn:E2;
    [|constructor].
  apply find_sub_split in E1. apply find_sub_split in E2.
  assert (Hafter : forall c, In c (trimStart after) -> In c content).
  { intros c Hc. apply in_trimStart in Hc. rewrite E1.
    apply in_or_app. right. apply in_or_app. right. exact Hc. }
  constructor.
  - intros c Hc. apply Hafter. rewrite E2. apply in_or_app. left. exact Hc.
  - eapply Forall_impl; [|apply IH]. intros b Hb c Hc. apply Hafter.
    rewrite E2. apply in_or_app. right. apply in_or_app. right. apply Hb. exact Hc.
Qed.

(** What is captured between parentheses has no closing parenthesis. *)
Lemma paren_strings_no_close (fuel : nat) (block : str) :
  Forall (fun inside => ~ In 41%N inside) (paren_strings fuel block).
Proof.
  revert block. induction fuel as [|fuel IH]; intros block; [constructor|].
  simpl. destruct (find_sub [40%N] block) as [[pre after]|]; [|constructor].
  destruct (find_sub [41%N] after) as [[inside rest]|] eqn:E; [|constructor].
  constructor; [|apply IH]. apply (find_sub_char_before _ _ _ _ E).
Qed.

Lemma paren_strings_none (fuel : nat) (block : str) :
  ~ In 40%N block \/ ~ In 41%N block -> paren_strings fuel block = [].
Proof.
  intros H. destruct fuel as [|fuel]; [reflexivity|]. cbn [paren_strings].
  destruct (find_sub [40%N] block) as [[pre after]|] eqn:E1; [|reflexivity].
  destruct H as [H|H].
  - assert (E0 : Some (pre, after) = None)
      by (rewrite <- E1; apply find_sub_char_none; exact H).
    discriminate.
  - apply find_sub_split in E1.
    assert (E2 : find_sub [41%N] after = None).
    { apply find_sub_char_none. intros Hin. apply H. rewrite E1.
      apply in_or_app. right. right. exact Hin. }
    rewrite E2. reflexivity.
Qed.

Lemma replace2_absent (a b : codeunit) (rep s : str) :
  ~ In b s -> replace2 a b rep s = s.
Proof.
  induction s as [|x t IH]; intros H; [reflexivity|].
  destruct t as [|y r]; [reflexivity|]. simpl.
  destruct (y =? b)%N eqn:E.
  - apply N.eqb_eq in E. subst y. exfalso. apply H. right. left. reflexivity.
  - rewrite andb_false_r. f_equal. apply IH. intros Hin. apply H. right. exact Hin.
Qed.

Lemma in_replace2 (a b : codeunit) (rep s : str) (c : codeunit) :
  In c (replace2 a b rep s) -> In c rep \/ In c s.
Proof.
  assert (H : (In c (replace2 a b rep s) -> In c rep \/ In c s)
              /\ forall x, In c (replace2 a b rep (x :: s)) -> In c rep \/ In c (x :: s)).
  { induction s as [|y r [IH1 IH2]].
    - split; [intros [] | intros x Hx; right; exact Hx].
    - split; [apply IH2|]. intros x. simpl replace2.
      destruct ((x =? a)%N && (y =? b)%N).
      + intros Hin. apply in_app_or in Hin. destruct Hin as [Hin|Hin]; [left; exact Hin|].
        destruct (IH1 Hin) as [H|H]; [left; exact H | right; right; right; exact H].
      + intros [Hx|Hin]; [right; left; exact Hx|].
        destruct (IH2 y Hin) as [H|H]; [left; exact H | right; right; exact H]. }
  apply H.
Qed.

(** Decoding never brings in a closing parenthesis: the rule for the
    escaped closing parenthesis has nothing to work on. *)
Lemma decode_no_close (s : str) : ~ In 41%N s -> ~ In 41%N (decode s).
Proof.
  intros H. unfold decode.
  assert (Hstep : forall a b rep x,
             ~ In 41%N rep -> ~ In 41%N x -> ~ In 41%N (replace2 a b rep x)).
  { intros a b rep x Hr Hx Hin. apply in_replace2 in Hin. tauto. }
  apply Hstep; [intros [E|[]]; discriminate|].
  rewrite replace2_absent.
  - repeat (apply Hstep; [intros [E|[]]; discriminate|]). exact H.
  - repeat (apply Hstep; [intros [E|[]]; discriminate|]). exact H.
Qed.

Lemma bt_text_blocks_no_close (content : str) :
  Forall (fun text => ~ In 41%N text) (bt_text_blocks content).
Proof.
  unfold bt_text_blocks. apply Forall_flat_map, Forall_forall. intros block _.
  apply Forall_forall. intros text Hin. apply filter_In in Hin. destruct Hin as [Hin _].
  apply in_map_iff in Hin. destruct Hin as (inside & <- & Hin).
  apply decode_no_close.
  pose proof (paren_strings_no_close (length block) block) as H.
  rewrite Forall_forall in H. exact (H inside Hin).
Qed.

Lemma until_close_run (s run rest : str) :
  until_close s = (run, rest) -> ~ In 41%N run.
Proof.
  revert run rest. induction s as [|c r IH]; intros run rest H; simpl in H.
  - injection H as <- <-. intros [].
  - destruct (c =? 41)%N eqn:E.
    + injection H as <- <-. intros [].
    + destruct (until_close r) as [run' rest']. injection H as <- <-.
      intros [Hc|Hin].
      * subst c. discriminate.
      * exact (IH run' rest' eq_refl Hin).
Qed.

Lemma simple_strings_no_close (fuel : nat) (content : str) :
  Forall (fun inside => ~ In 41%N inside) (simple_strings fuel content).
Proof.
  revert content. induction fuel as [|fuel IH]; intros content; [constructor|].
  cbn [simple_strings].
  destruct (find_sub [40%N] content) as [[pre after]|]; [|constructor].
  destruct (until_close after) as [run rest] eqn:E.
  destruct rest as [|x rest']; [constructor|].
  destruct (2 <=? length run)%nat; [|apply IH].
  constructor; [|apply IH]. apply (until_close_run _ _ _ E).
Qed.

Lemma simple_strings_none (fuel : nat) (content : str) :
  ~ In 40%N content \/ ~ In 41%N content -> simple_strings fuel content = [].
Proof.
  revert content. induction fuel as [|fuel IH]; intros content H; [reflexivity|].
  cbn [simple_strings].
  destruct (find_sub [40%N] content) as [[pre after]|] eqn:E1; [|reflexivity].
  destruct H as [H|H].
  { assert (E0 : Some (pre, after) = None)
      by (rewrite <- E1; apply find_sub_char_none; exact H).
    discriminate. }
  apply find_sub_split in E1.
  assert (Hafter : ~ In 41%N after).
  { intros Hin. apply H. rewrite E1. apply in_or_app. right. right. exact Hin. }
  destruct (until_close after) as [run rest] eqn:E.
  destruct rest as [|x rest']; [reflexivity|].
  exfalso. apply Hafter. clear -E.
  revert run E. induction after as [|c r IH]; intros run E; simpl in E.
  - discriminate.
  - destruct (c =? 41)%N eqn:Ec.
    + apply N.eqb_eq in Ec. left. exact Ec.
    + destruct (until_close r) as [run' rest''] eqn:Er. injection E as <- ->.
      right. apply (IH run' eq_refl).
Qed.

Lemma simple_text_blocks_chars (content : str) :
  Forall (fun text => Forall (fun c => c <> 41%N /\ (printable c = true \/ c = sp)) text)
         (simple_text_blocks content).
Proof.
  unfold simple_text_blocks. apply Forall_forall. intros text Hin.
  apply filter_In in Hin. destruct Hin as [Hin _].
  apply in_map_iff in Hin. destruct Hin as (inside & <- & Hin).
  apply Forall_forall. intros c Hc. apply in_trim in Hc.
  apply in_map_iff in Hc. destruct Hc as (x & Hx & Hxin).
  pose proof (simple_strings_no_close (length content) content) as H.
  rewrite Forall_forall in H. specialize (H inside Hin).
  destruct (printable x) eqn:Ep.
  - subst c. split; [|left; exact Ep]. intros ->. exact (H Hxin).
  - subst c. split; [discriminate | right; reflexivity].
Qed.

(** *** The loops end before the fuel does *)

Lemma until_close_split (s run rest : str) :
  until_close s = (run, rest) -> s = run ++ rest.
Proof.
  revert run rest. induction s as [|c r IH]; intros run rest H; simpl in H.
  - injection H as <- <-. reflexivity.
  - destruct (c =? 41)%N.
    + injection H as <- <-. reflexivity.
    + destruct (until_close r) as [run' rest']. injection H as <- <-.
      simpl. f_equal. apply IH. reflexivity.
Qed.

Lemma find_sub_length (pat s pre post : str) :
  find_sub pat s = Some (pre, post) ->
  length s = (length pre + length pat + length post)%nat.
Proof.
  intros H. apply find_sub_split in H. subst s. rewrite !length_app. lia.
Qed.

Lemma btEt_blocks_fuel (f1 f2 : nat) (content : str) :
  (length content <= f1)%nat -> (length content <= f2)%nat ->
  btEt_blocks f1 content = btEt_blocks f2 content.
Proof.
  revert f2 content. induction f1 as [|f1 IH]; intros f2 content H1 H2.
  - destruct content; [|simpl in H1; lia]. destruct f2; reflexivity.
  - destruct f2 as [|f2].
    { destruct content; [reflexivity | simpl in H2; lia]. }
    cbn [btEt_blocks].
    destruct (find_sub (lit "BT") content) as [[pre after]|] eqn:E1; [|reflexivity].
    destruct (find_sub (lit "ET") (trimStart after)) as [[block rest]|] eqn:E2;
      [|reflexivity].
    apply find_sub_length in E1. apply find_sub_length in E2.
    pose proof (trimStart_length after) as Ht.
    change (length (lit "BT")) with 2%nat in E1.
    change (length (lit "ET")) with 2%nat in E2.
    f_equal. apply IH; lia.
Qed.

Lemma paren_strings_fuel (f1 f2 : nat) (block : str) :
  (length block <= f1)%nat -> (length block <= f2)%nat ->
  paren_strings f1 block = paren_strings f2 block.
Proof.
  revert f2 block. induction f1 as [|f1 IH]; intros f2 block H1 H2.
  - destruct block; [|simpl in H1; lia]. destruct f2; reflexivity.
  - destruct f2 as [|f2].
    { destruct block; [reflexivity | simpl in H2; lia]. }
    cbn [paren_strings].
    destruct (find_sub [40%N] block) as [[pre after]|] eqn:E1; [|reflexivity].
    destruct (find_sub [41%N] after) as [[inside rest]|] eqn:E2; [|reflexivity].
    apply find_sub_length in E1. apply find_sub_length in E2. simpl in E1, E2.
    f_equal. apply IH; lia.
Qed.

Lemma simple_strings_fuel (f1 f2 : nat) (content : str) :
  (length content <= f1)%nat -> (length content <= f2)%nat ->
  simple_strings f1 content = simple_strings f2 content.
Proof.
  revert f2 content. induction f1 as [|f1 IH]; intros f2 content H1 H2.
  - destruct content; [|simpl in H1; lia]. destruct f2; reflexivity.
  - destruct f2 as [|f2].
    { destruct content; [reflexivity | simpl in H2; lia]. }
    cbn [simple_strings].
    destruct (find_sub [40%N] content) as [[pre after]|] eqn:E1; [|reflexivity].
    destruct (until_close after) as [run rest] eqn:E2.
    destruct rest as [|x rest']; [reflexivity|].
    apply find_sub_length in E1. apply until_close_split in E2. simpl in E1.
    assert (Hl : length after = (length run + S (length rest'))%nat).
    { rewrite E2, length_app. reflexivity. }
    destruct (2 <=? length run)%nat; [f_equal|]; apply IH; lia.
Qed.

Lemma normalize_ws_extracted (buffer : bytes) :
  normalize_ws (extractTextFromPdfBuffer buffer) = extractTextFromPdfBuffer buffer.
Proof. unfold extractTextFromPdfBuffer. cbv zeta. apply normalize_ws_idem. Qed.

(** X5.  The extracted text is normalised: it has no whitespace at either end,
    and normalising it again changes nothing, so that its only whitespace
    is single spaces between words. *)
Theorem extracted_text_is_normalised (buffer : bytes) :
  normalize_ws (extractTextFromPdfBuffer buffer) = extractTextFromPdfBuffer buffer
  /\ trim (extractTextFromPdfBuffer buffer) = extractTextFromPdfBuffer buffer
  /\ Forall (fun c => is_ws c = true -> c = sp) (extractTextFromPdfBuffer buffer).
Proof.
  unfold extractTextFromPdfBuffer. cbv zeta.
  split; [apply normalize_ws_idem|]. split; [apply trim_normalize_ws|].
  apply Forall_forall. intros c Hc Hws.
  apply in_normalize_ws in Hc. destruct Hc as [Hc|[_ Hc]]; [exact Hc | congruence].
Qed.

(** X6.  The extracted text never has a closing parenthesis: a capture stops at
    the first one, escaped or not. *)
Theorem extracted_text_has_no_closing_parenthesis (buffer : bytes) :
  Forall (fun c => c <> 41%N) (extractTextFromPdfBuffer buffer).
Proof.
  apply Forall_forall. intros c Hin ->. revert Hin.
  unfold extractTextFromPdfBuffer. cbv zeta. intros Hin.
  apply in_normalize_ws in Hin. destruct Hin as [Hin|[Hin _]]; [discriminate|].
  apply in_join_sp in Hin. destruct Hin as [Hin|(text & Ht & Hc)]; [discriminate|].
  destruct (length (bt_text_blocks buffer) =? 0)%nat.
  - pose proof (simple_text_blocks_chars buffer) as H.
    rewrite Forall_forall in H. specialize (H text Ht).
    rewrite Forall_forall in H. destruct (H _ Hc) as [Hne _]. congruence.
  - pose proof (bt_text_blocks_no_close buffer) as H.
    rewrite Forall_forall in H. exact (H text Ht Hc).
Qed.

Lemma no_parentheses_no_blocks (buffer : bytes) :
  ~ In 40%N buffer \/ ~ In 41%N buffer ->
  bt_text_blocks buffer = [] /\ simple_text_blocks buffer = [].
Proof.
  intros H.
  assert (Hbt : bt_text_blocks buffer = []).
  { assert (Hall : forall blocks : list str,
               Forall (fun block => forall c, In c block -> In c buffer) blocks ->
               flat_map (fun block =>
                           filter (fun decoded => truthy (trim decoded))
                                  (map decode (paren_strings (length block) block)))
                        blocks = []).
    { intros blocks Hw. induction Hw as [|block blocks Hb _ IH]; [reflexivity|].
      simpl. rewrite IH, paren_strings_none; [reflexivity|].
      destruct H as [H|H]; [left | right]; intros Hin; apply H, Hb, Hin. }
    apply Hall. apply btEt_blocks_within. }
  split; [exact Hbt|].
  unfold simple_text_blocks. rewrite simple_strings_none by exact H. reflexivity.
Qed.

Lemma no_blocks_no_text (buffer : bytes) :
  bt_text_blocks buffer = [] -> simple_text_blocks buffer = [] ->
  extractTextFromPdfBuffer buffer = [].
Proof.
  intros Hbt Hs. unfold extractTextFromPdfBuffer. cbv zeta.
  rewrite Hbt. simpl. rewrite Hs. reflexivity.
Qed.

(** X7.  A buffer without an opening parenthesis, or without a closing one,
    gives the empty text. *)
Theorem no_parentheses_no_text (buffer : bytes) :
  ~ In 40%N buffer \/ ~ In 41%N buffer -> extractTextFromPdfBuffer buffer = [].
Proof.
  intros H. destruct (no_parentheses_no_blocks buffer H) as [Hbt Hs].
  exact (no_blocks_no_text buffer Hbt Hs).
Qed.

Lemma no_parentheses_no_text_witness :
  (~ In 40%N (lit "%PDF-1.4 stream x^9c endstream") \/
   ~ In 41%N (lit "%PDF-1.4 stream x^9c endstream"))
  /\ extractTextFromPdfBuffer (lit "%PDF-1.4 stream x^9c endstream") = [].
Proof.
  assert (H : ~ In 40%N (lit "%PDF-1.4 stream x^9c endstream") \/
              ~ In 41%N (lit "%PDF-1.4 stream x^9c endstream")).
  { left. vm_compute. intuition discriminate. }
  exact (conj H (no_parentheses_no_text _ H)).
Defined.

(** X8.  When no block between [BT] and [ET] gives text, the text extracted
    by the simpler approach is made of printable ASCII characters only. *)
Theorem simple_text_is_printable (buffer : bytes) :
  bt_text_blocks buffer = [] ->
  Forall (fun c => (32 <= c <= 126)%N) (extractTextFromPdfBuffer buffer).
Proof.
  intros Hbt. unfold extractTextFromPdfBuffer. cbv zeta. rewrite Hbt. simpl.
  apply Forall_forall. intros c Hin.
  apply in_normalize_ws in Hin. destruct Hin as [->|[Hin Hws]]; [unfold sp; lia|].
  apply in_join_sp in Hin. destruct Hin as [->|(text & Ht & Hc)]; [unfold sp; lia|].
  pose proof (simple_text_blocks_chars buffer) as H.
  rewrite Forall_forall in H. specialize (H text Ht).
  rewrite Forall_forall in H. destruct (H _ Hc) as [_ [Hp| ->]]; [|unfold sp; lia].
  unfold printable in Hp. unfold is_ws in Hws.
  repeat (apply orb_prop in Hp; destruct Hp as [Hp|Hp]).
  - apply andb_prop in Hp. destruct Hp as [H1 H2].
    apply N.leb_le in H1. apply N.leb_le in H2. lia.
  - apply N.eqb_eq in Hp. subst c. discriminate.
  - apply N.eqb_eq in Hp. subst c. discriminate.
  - apply N.eqb_eq in Hp. subst c. discriminate.
Qed.

Lemma simple_text_is_printable_witness :
  bt_text_blocks (lit "stream (caf" ++ [233%N] ++ lit " au lait) endstream") = []
  /\ Forall (fun c => (32 <= c <= 126)%N)
            (extractTextFromPdfBuffer
               (lit "stream (caf" ++ [233%N] ++ lit " au lait) endstream")).
Proof.
  assert (H : bt_text_blocks (lit "stream (caf" ++ [233%N] ++ lit " au lait) endstream")
              = []) by (vm_compute; reflexivity).
  exact (conj H (simple_text_is_printable _ H)).
Defined.

End PdfText.

(* ================================================================== *)
(** ** The two variants of the task *)

Section Variants.
Import JS Task Trace RegexVariant.
Context {FR : FloorRatio}.

Lemma without_getText_app (a b : list Event) :
  without_getText (a ++ b) = without_getText a ++ without_getText b.
Proof. apply filter_app. Qed.

Lemma updates_without_getText (t : list Event) :
  filter is_update (without_getText t) = filter is_update t.
Proof.
  induction t as [|ev t IH]; [reflexivity|].
  destruct ev; simpl; rewrite ?IH; reflexivity.
Qed.

Lemma parser_ret {A} (a : A) : same_but_parser (ret a) (ret a).
Proof. intros t1 t2 H. split; [reflexivity | exact H]. Qed.

Lemma parser_throw {A} (e : Thrown) : same_but_parser (@throw A e) (throw e).
Proof. intros t1 t2 H. split; [reflexivity | exact H]. Qed.

Lemma parser_emit (ev : Event) :
  without_getText [ev] = [ev] -> same_but_parser (emit ev) (emit ev).
Proof.
  intros Hev t1 t2 H. split; [reflexivity|].
  unfold emit. simpl. rewrite without_getText_app, Hev, H. reflexivity.
Qed.

Lemma parser_bind {A B} (m1 m2 : M A) (f1 f2 : A -> M B) :
  same_but_parser m1 m2 -> (forall a, same_but_parser (f1 a) (f2 a)) ->
  same_but_parser (bind m1 f1) (bind m2 f2).
Proof.
  intros Hm Hf t1 t2 H. unfold bind.
  destruct (Hm t1 t2 H) as [Hr Ht].
  destruct (m1 t1) as [[a1|e1] t1'], (m2 t2) as [[a2|e2] t2']; simpl in Hr, Ht;
    try discriminate.
  - injection Hr as ->. apply Hf. exact Ht.
  - injection Hr as ->. split; [reflexivity | exact Ht].
Qed.

Lemma parser_try_catch {A} (m1 m2 : M A) (h1 h2 : Thrown -> M A) :
  same_but_parser m1 m2 -> (forall e, same_but_parser (h1 e) (h2 e)) ->
  same_but_parser (try_catch m1 h1) (try_catch m2 h2).
Proof.
  intros Hm Hh t1 t2 H. unfold try_catch.
  destruct (Hm t1 t2 H) as [Hr Ht].
  destruct (m1 t1) as [[a1|e1] t1'], (m2 t2) as [[a2|e2] t2']; simpl in Hr, Ht;
    try discriminate.
  - split; [exact Hr | exact Ht].
  - injection Hr as ->. apply Hh. exact Ht.
Qed.

Lemma parser_updateJob (w : World) (parse : bytes -> Result str) (id : str)
  (u : JobUpdate) :
  same_but_parser (PdfParseTask.updateJob w id u)
                  (PdfParseTask.updateJob (with_parser w parse) id u).
Proof.
  intros t1 t2 H. rewrite !updateJob_run. simpl. split; [reflexivity|].
  rewrite without_getText_app. subst t1. f_equal.
  unfold warning. rewrite updates_without_getText.
  change (jobs_update (with_parser w parse)) with (jobs_update w).
  destruct (jobs_update w _ id u); reflexivity.
Qed.

Lemma parser_oblivious {A} (m : M A) :
  (forall t, m t = (result_of m, t ++ events_of m)) ->
  without_getText (events_of m) = events_of m ->
  same_but_parser m m.
Proof.
  intros Hm Hev t1 t2 H. rewrite (Hm t1), (Hm t2). simpl.
  rewrite without_getText_app, Hev, H. split; reflexivity.
Qed.

Lemma chunk_audio_no_parser (w : World) (model url : str) (i : nat) (chunk : str) :
  without_getText (events_of (PdfParseTask.chunk_audio w model url i chunk))
  = events_of (PdfParseTask.chunk_audio w model url i chunk).
Proof.
  unfold events_of, PdfParseTask.chunk_audio, bind, emit, lift, throw, ret.
  simpl. destruct (replicate_run w i model chunk url) as [output|e]; simpl;
    [|reflexivity].
  destruct (fetch w i (PdfParseTask.audio_url output)) as [res|e]; simpl;
    [destruct (r_ok res)|]; reflexivity.
Qed.

Lemma parser_synth_loop (w : World) (parse : bytes -> Result str)
  (id model url : str) (n : nat) (rest : list str) :
  forall i acc,
    same_but_parser (PdfParseTask.synth_loop w id model url n i rest acc)
                    (PdfParseTask.synth_loop (with_parser w parse) id model url n i
                                             rest acc).
Proof.
  induction rest as [|chunk rest IH]; intros i acc; simpl.
  - apply parser_ret.
  - apply parser_bind.
    + apply (parser_oblivious (PdfParseTask.chunk_audio w model url i chunk)).
      * intros t. apply chunk_audio_run.
      * apply chunk_audio_no_parser.
    + intros body. apply parser_bind; [apply parser_updateJob | intros _; apply IH].
Qed.

(** Step 2 of the regex variant is step 2 of the pdf-parse variant when
    the parser is [extractTextFromPdfBuffer], the call of the parser
    apart. *)
Lemma parser_extract_text (w : World) (path : str) :
  same_but_parser
    (extract_text w path)
    (PdfParseTask.extract_text
       (with_parser w (fun buffer => Ok (extractTextFromPdfBuffer buffer))) path).
Proof.
  intros t1 t2 H. subst t1.
  unfold extract_text, PdfParseTask.extract_text, bind, emit, lift, throw, ret.
  change (storage_download (with_parser w _) path) with (storage_download w path).
  destruct (storage_download w path) as [[data|] [message|]]; simpl;
    try (split; [reflexivity | rewrite without_getText_app; reflexivity]).
  destruct (truthy (trim (extractTextFromPdfBuffer data))); simpl;
    (split; [reflexivity | rewrite !without_getText_app; simpl;
                           rewrite app_nil_r; reflexivity]).
Qed.

Lemma splitText_same (text : str) (maxChars : Z) :
  RegexTask.splitText text maxChars = PdfParseTask.splitText text maxChars.
Proof. reflexivity. Qed.

(** X9.  The regex-extraction variant of the task runs as the pdf-parse variant
    does when its parser is [extractTextFromPdfBuffer]: both resolve to
    the same value or reject with the same error, and make the same calls
    in the same order, the call of the parser apart. *)
Theorem regex_variant_is_pdf_parse_variant (w : World) (p : GenerateAudiobookPayload) :
  let w' := with_parser w (fun buffer => Ok (extractTextFromPdfBuffer buffer)) in
  fst (generateAudiobook w p) = fst (PdfParseTask.generateAudiobook w' p)
  /\ snd (generateAudiobook w p)
     = without_getText (snd (PdfParseTask.generateAudiobook w' p)).
Proof.
  cbv zeta.
  assert (H : same_but_parser
                (run w p)
                (PdfParseTask.run
                   (with_parser w (fun buffer => Ok (extractTextFromPdfBuffer buffer))) p)).
  { unfold run, PdfParseTask.run. apply parser_try_catch.
    - unfold run_body, PdfParseTask.run_body.
      apply parser_bind; [apply parser_updateJob | intros _].
      apply parser_bind; [apply parser_updateJob | intros _].
      apply parser_bind; [apply parser_extract_text | intros text].
      apply parser_bind; [apply parser_updateJob | intros _].
      apply parser_bind.
      { apply (parser_oblivious
                 (PdfParseTask.voice_file_url w (voiceStoragePath p) (videoId p))).
        - intros t. rewrite voice_file_url_run. unfold events_of.
          rewrite voice_file_url_run. simpl. rewrite app_nil_r. reflexivity.
        - unfold events_of. rewrite voice_file_url_run. reflexivity. }
      intros url.
      apply parser_bind; [apply parser_updateJob | intros _].
      rewrite splitText_same.
      apply parser_bind; [apply parser_synth_loop | intros audio].
      apply parser_bind; [apply parser_updateJob | intros _].
      apply parser_bind; [apply parser_emit; reflexivity | intros _].
      change (storage_upload (with_parser w _)) with (storage_upload w).
      destruct (storage_upload w _ (Buffer_concat audio)).
      + apply parser_throw.
      + apply parser_bind; [apply parser_updateJob | intros _; apply parser_ret].
    - intros e.
      apply parser_bind; [apply parser_emit; reflexivity | intros _].
      apply parser_bind; [apply parser_updateJob | intros _; apply parser_throw]. }
  apply (H [] []). reflexivity.
Qed.

(** X10.  A PDF whose bytes have no parenthesis (its text is compressed, or it
    is a scan) has no text for the regex variant: the run fails at step 2
    with the error that asks whether the document is a scan, the
    synthesizer is never called, nothing is uploaded, and the job is
    written [failed] right after the progress 10. *)
Theorem regex_variant_rejects_pdf_without_strings
  (w : World) (p : GenerateAudiobookPayload) (data : bytes) :
  storage_download w (pdfStoragePath p) = (Some data, None) ->
  ~ In 40%N data \/ ~ In 41%N data ->
  fst (generateAudiobook w p)
  = Throw (JsError (lit "Could not extract text from PDF. Is it a scanned document?"))
  /\ synth_calls (snd (generateAudiobook w p)) = []
  /\ uploads (snd (generateAudiobook w p)) = []
  /\ updates (snd (generateAudiobook w p))
     = [mkUpdate (Some processing) (Some 5%Z) None None;
        PdfParseTask.progress_only 10;
        mkUpdate (Some failed) None
          (Some (lit "Could not extract text from PDF. Is it a scanned document?"))
          None].
Proof.
  intros Hd Hno.
  assert (Hx : forall t,
             extract_text w (pdfStoragePath p) t
             = (Throw (JsError
                  (lit "Could not extract text from PDF. Is it a scanned document?")),
                t ++ [EvDownload (pdfStoragePath p)])).
  { intros t. unfold extract_text, bind, emit, throw, ret. rewrite Hd.
    destruct (no_parentheses_no_blocks data Hno) as [Hbt Hs].
    rewrite (no_blocks_no_text data Hbt Hs). reflexivity. }
  assert (Hrun : exists t,
             generateAudiobook w p
             = (Throw (JsError
                  (lit "Could not extract text from PDF. Is it a scanned document?")), t)
             /\ synth_calls t = [] /\ uploads t = []
             /\ updates t
                = [mkUpdate (Some processing) (Some 5%Z) None None;
                   PdfParseTask.progress_only 10;
                   mkUpdate (Some failed) None
                     (Some (lit
                        "Could not extract text from PDF. Is it a scanned document?"))
                     None]).
  { unfold generateAudiobook, run, try_catch, run_body.
    rewrite !bind_updateJob. unfold bind at 1. rewrite Hx.
    unfold bind at 1, emit. rewrite bind_updateJob. unfold throw.
    eexists. split; [reflexivity|]. trace_simpl. repeat split. }
  destruct Hrun as (t & -> & Hs & Hp & Hu). repeat split; assumption.
Qed.

End Variants.

Section VariantScenarios.
Import JS Task Trace RegexVariant.

Lemma regex_variant_rejects_pdf_without_strings_witness :
  storage_download Stub.book (pdfStoragePath Stub.upload_job)
  = (Some [37; 80; 68; 70]%N, None)
  /\ (~ In 40%N [37; 80; 68; 70]%N \/ ~ In 41%N [37; 80; 68; 70]%N)
  /\ fst (generateAudiobook Stub.book Stub.upload_job)
     = Throw (JsError (lit "Could not extract text from PDF. Is it a scanned document?")).
Proof.
  assert (H1 : storage_download Stub.book (pdfStoragePath Stub.upload_job)
               = (Some [37; 80; 68; 70]%N, None)) by reflexivity.
  assert (H2 : ~ In 40%N [37; 80; 68; 70]%N \/ ~ In 41%N [37; 80; 68; 70]%N).
  { left. simpl. intuition discriminate. }
  exact (conj H1 (conj H2
           (proj1 (regex_variant_rejects_pdf_without_strings _ _ _ H1 H2)))).
Defined.

End VariantScenarios.

(* ================================================================== *)
(** ** Chunks of a normalised text *)

Section TidyText.
Import JS Tidy.

Lemma single_spaced_tail (c : codeunit) (r : str) :
  single_spaced (c :: r) = true -> single_spaced r = true.
Proof. simpl. intros H. apply andb_prop in H. apply H. Qed.

Lemma single_spaced_ws (c : codeunit) (r : str) :
  single_spaced (c :: r) = true -> is_ws c = true ->
  c = sp /\ starts_ws r = false /\ r <> [].
Proof.
  simpl. intros H Hc. rewrite Hc in H.
  apply andb_prop in H. destruct H as [H _].
  apply andb_prop in H. destruct H as [H1 H2].
  apply N.eqb_eq in H1. split; [exact H1|].
  destruct r as [|d r]; [discriminate|].
  split; [|discriminate]. simpl. destruct (is_ws d); [discriminate | reflexivity].
Qed.

Lemma collapse_single_spaced (s : str) :
  single_spaced s = true ->
  collapse_from false s = s /\ (starts_ws s = false -> collapse_from true s = s).
Proof.
  induction s as [|c r IH]; intros H; [split; reflexivity|].
  pose proof (single_spaced_tail c r H) as Hr.
  destruct (IH Hr) as [IHf IHt]. simpl collapse_from. simpl starts_ws.
  destruct (is_ws c) eqn:Ec.
  - destruct (single_spaced_ws c r H Ec) as (-> & Hs & _).
    split; [|discriminate]. rewrite (IHt Hs). reflexivity.
  - rewrite IHf. split; reflexivity.
Qed.

Lemma trimEnd_single_spaced (s : str) : single_spaced s = true -> trimEnd s = s.
Proof.
  induction s as [|c r IH]; intros H; [reflexivity|].
  pose proof (single_spaced_tail c r H) as Hr. simpl. rewrite (IH Hr).
  destruct r as [|d r]; [|reflexivity].
  destruct (is_ws c) eqn:Ec; [|reflexivity].
  destruct (single_spaced_ws c [] H Ec) as (_ & _ & Hne). congruence.
Qed.

Lemma tidy_parts (s : str) :
  tidy s = true <-> starts_ws s = false /\ single_spaced s = true.
Proof.
  unfold tidy. rewrite andb_true_iff, negb_true_iff. reflexivity.
Qed.

(** A tidy string is its own normalisation. *)
Lemma tidy_normalize_ws (s : str) : tidy s = true -> normalize_ws s = s.
Proof.
  intros H. apply tidy_parts in H. destruct H as [Hs Hss].
  unfold normalize_ws, collapse_ws, trim.
  destruct (collapse_single_spaced s Hss) as [-> _].
  rewrite (trimStart_id s Hs). apply trimEnd_single_spaced. exact Hss.
Qed.

Lemma single_spaced_word_app (w tail : str) :
  Forall (fun c => is_ws c = false) w ->
  single_spaced (w ++ tail) = single_spaced tail.
Proof.
  induction 1 as [|c w Hc _ IH]; [reflexivity|].
  simpl. rewrite Hc, IH. reflexivity.
Qed.

Lemma single_spaced_sp (y : str) :
  single_spaced (sp :: y)
  = match y with [] => false | d :: _ => negb (is_ws d) end && single_spaced y.
Proof. reflexivity. Qed.

Lemma tidy_join_words (l : list str) :
  Forall (fun w => w <> [] /\ Forall (fun c => is_ws c = false) w) l ->
  tidy (join_sp l) = true.
Proof.
  induction 1 as [|w l [Hne Hw] Hl IH]; [reflexivity|].
  rewrite join_sp_cons. apply tidy_parts. split.
  - destruct w as [|c w]; [congruence|]. inversion Hw. assumption.
  - rewrite single_spaced_word_app by exact Hw.
    destruct l as [|w' l]; [reflexivity|].
    apply tidy_parts in IH. destruct IH as [IH1 IH2].
    rewrite single_spaced_sp, IH2.
    destruct (join_sp (w' :: l)) as [|d r] eqn:E.
    + exfalso. rewrite join_sp_cons in E. inversion Hl as [|? ? [Hne' _] _].
      destruct w'; [congruence | discriminate].
    + simpl in IH1. rewrite IH1. reflexivity.
Qed.

(** A string that normalisation leaves alone is tidy. *)
Lemma normalize_ws_tidy (s : str) : normalize_ws s = s -> tidy s = true.
Proof.
  intros H. rewrite <- H, normalize_ws_words. apply tidy_join_words.
  eapply Forall_impl; [|apply (words_are_words s)].
  intros w [Hne Hw]. split; [exact Hne|].
  eapply Forall_impl; [|exact Hw]. intros c Hc. apply Hc.
Qed.

(** The sentences of a single-spaced text are tidy, but perhaps the
    first, which starts as the text does. *)
Lemma split_sentences_tidy (b : bool) (s : str) :
  single_spaced s = true ->
  exists p ps,
    split_sentences_from b s = p :: ps
    /\ single_spaced p = true
    /\ (b = true -> starts_ws p = false)
    /\ (b = false -> starts_ws p = starts_ws s)
    /\ Forall (fun x => tidy x = true) ps.
Proof.
  revert b. induction s as [|c r IH]; intros b H.
  - exists [], []. repeat split. constructor.
  - pose proof (single_spaced_tail c r H) as Hr.
    simpl split_sentences_from. destruct (b && is_ws c) eqn:E1.
    + apply andb_prop in E1. destruct E1 as [-> Hc].
      destruct (IH true Hr) as (p & ps & Hs & H1 & H2 & _ & H4).
      exists p, ps. repeat split; try assumption. discriminate.
    + destruct (is_punct c && starts_ws r) eqn:E2.
      * apply andb_prop in E2. destruct E2 as [Hp _]. apply punct_not_ws in Hp.
        destruct (IH true Hr) as (p & ps & Hs & H1 & H2 & _ & H4).
        exists [c], (split_sentences_from true r). split; [reflexivity|].
        split; [simpl; rewrite Hp; reflexivity|].
        split; [intros _; simpl; exact Hp|]. split; [intros _; reflexivity|].
        rewrite Hs. constructor; [|exact H4].
        apply tidy_parts. split; [apply H2; reflexivity | exact H1].
      * destruct (IH false Hr) as (p & ps & Hs & H1 & _ & H3 & H4).
        specialize (H3 eq_refl). rewrite Hs.
        exists (c :: p), ps. split; [reflexivity|]. split.
        { simpl. rewrite H1, andb_true_r. destruct (is_ws c) eqn:Ec; [|reflexivity].
          destruct (single_spaced_ws c r H Ec) as (-> & Hsr & Hne).
          rewrite N.eqb_refl. simpl.
          destruct (split_sentences_head r) as (p' & ps' & Hs' & _ & Hnil).
          rewrite Hs in Hs'. injection Hs' as <- <-.
          destruct p as [|d p]; [exfalso; apply Hne, Hnil; reflexivity|].
          simpl in H3. rewrite H3, Hsr. reflexivity. }
        split.
        { intros ->. simpl in E1. simpl. exact E1. }
        split; [intros _; reflexivity | exact H4].
Qed.

Lemma tidy_join (x y : str) :
  tidy x = true -> x <> [] -> tidy y = true -> y <> [] ->
  tidy (x ++ sp :: y) = true.
Proof.
  intros Hx Hxne Hy Hne. apply tidy_parts in Hx. destruct Hx as [Hx1 Hx2].
  apply tidy_parts in Hy. destruct Hy as [Hy1 Hy2].
  assert (Hss : single_spaced (x ++ sp :: y) = true).
  { clear Hx1 Hxne. induction x as [|c x IH].
    - simpl app. rewrite single_spaced_sp, Hy2. destruct y as [|d y]; [congruence|].
      simpl in Hy1. rewrite Hy1. reflexivity.
    - pose proof (single_spaced_tail c x Hx2) as Hx'.
      change ((c :: x) ++ sp :: y) with (c :: (x ++ sp :: y)).
      simpl single_spaced. rewrite (IH Hx'), andb_true_r.
      destruct (is_ws c) eqn:Ec; [|reflexivity].
      destruct (single_spaced_ws c x Hx2 Ec) as (-> & Hsx & Hnx).
      rewrite N.eqb_refl. destruct x as [|d x]; [congruence|].
      simpl in Hsx. simpl. rewrite Hsx. reflexivity. }
  apply tidy_parts. split; [|exact Hss].
  destruct x as [|c x]; [congruence | exact Hx1].
Qed.

Lemma tidy_join_sp (l : list str) :
  Forall (fun x => tidy x = true /\ x <> []) l -> tidy (join_sp l) = true.
Proof.
  induction 1 as [|x l [Hx Hne] Hl IH]; [reflexivity|].
  rewrite join_sp_cons. destruct l as [|y l]; [rewrite app_nil_r; exact Hx|].
  apply tidy_join; [exact Hx | exact Hne | exact IH|].
  rewrite join_sp_cons. inversion Hl as [|? ? [_ Hy] _].
  destruct y; [congruence | discriminate].
Qed.

Lemma tidy_not_blank (s : str) : tidy s = true -> s <> [] -> blank s = false.
Proof.
  intros H Hne. apply tidy_parts in H. destruct H as [Hs _].
  destruct s as [|c r]; [congruence|]. simpl in *. rewrite Hs. reflexivity.
Qed.

Lemma tidy_trim (s : str) : tidy s = true -> trim s = s.
Proof.
  intros H. rewrite <- (tidy_normalize_ws s H). apply trim_normalize_ws.
Qed.

Lemma join_sp_splitText_tidy (text : str) (maxChars : Z) :
  tidy text = true -> text <> [] ->
  join_sp (PdfParseTask.splitText text maxChars) = text.
Proof.
  intros Ht Hne.
  pose proof (tidy_normalize_ws text Ht) as Hn.
  pose proof (tidy_not_blank text Ht Hne) as Hb.
  assert (Hsent : Forall (fun x => tidy x = true) (split_sentences text)).
  { apply tidy_parts in Ht. destruct Ht as [Hs Hss].
    destruct (split_sentences_tidy false text Hss) as (p & ps & Hsp & H1 & _ & H3 & H4).
    unfold split_sentences. rewrite Hsp. constructor; [|exact H4].
    apply tidy_parts. split; [rewrite (H3 eq_refl); exact Hs | exact H1]. }
  destruct (splitText_groups text maxChars Hb) as (groups & Hc & Hg & Hsegs).
  assert (Hin : forall g x, In g groups -> In x g -> tidy x = true /\ x <> []).
  { intros g x Hg' Hx.
    assert (Hf : In x (filter (fun s => negb (blank s)) (split_sentences text))).
    { rewrite <- Hc. apply in_concat. exists g. split; assumption. }
    apply filter_In in Hf. destruct Hf as [Hf Hnb].
    rewrite Forall_forall in Hsent. split; [apply Hsent; exact Hf|].
    intros ->. discriminate. }
  assert (Hall : Forall (fun seg => tidy seg = true /\ seg <> [])
                        (PdfParseTask.splitText text maxChars)).
  { rewrite Hsegs. apply Forall_map, Forall_forall. intros g Hg'.
    rewrite Forall_forall in Hg. specialize (Hg g Hg').
    assert (Htg : tidy (join_sp g) = true).
    { apply tidy_join_sp, Forall_forall. intros x Hx. apply (Hin g x Hg' Hx). }
    rewrite (tidy_trim _ Htg). split; [exact Htg|].
    destruct g as [|x g]; [congruence|]. rewrite join_sp_cons.
    destruct (Hin (x :: g) x Hg' (or_introl eq_refl)) as [_ Hx].
    destruct x; [congruence | discriminate]. }
  rewrite <- (tidy_normalize_ws _ (tidy_join_sp _ Hall)).
  rewrite <- Hn at 2.
  rewrite !normalize_ws_words, words_join_sp, splitText_words. reflexivity.
Qed.

(** X4.  For a text that is normalised already (single spaces between its
    words, no whitespace at the ends) and is not empty, the segments
    joined by single spaces are the text itself, character for
    character. *)
Theorem splitText_exact_on_normalised_text (text : str) (maxChars : Z) :
  normalize_ws text = text -> text <> [] ->
  join_sp (PdfParseTask.splitText text maxChars) = text.
Proof.
  intros Hn Hne. apply join_sp_splitText_tidy; [|exact Hne].
  apply normalize_ws_tidy. exact Hn.
Qed.

Lemma splitText_exact_on_normalised_text_witness :
  normalize_ws (lit "One two. Three four! Five.") = lit "One two. Three four! Five."
  /\ lit "One two. Three four! Five." <> []
  /\ join_sp (PdfParseTask.splitText (lit "One two. Three four! Five.") 12)
     = lit "One two. Three four! Five.".
Proof.
  assert (H1 : normalize_ws (lit "One two. Three four! Five.")
               = lit "One two. Three four! Five.") by (vm_compute; reflexivity).
  assert (H2 : lit "One two. Three four! Five." <> []) by (vm_compute; discriminate).
  exact (conj H1 (conj H2 (splitText_exact_on_normalised_text _ 12 H1 H2))).
Defined.

(** X11.  In the regex-extraction variant, the chunks sent to the synthesizer,
    joined by single spaces, are exactly the text extracted from the PDF:
    chunking loses and adds nothing, not even whitespace. *)
Theorem regex_variant_chunks_are_the_text (buffer : bytes) (maxChars : Z) :
  RegexVariant.extractTextFromPdfBuffer buffer <> [] ->
  join_sp (RegexTask.splitText (RegexVariant.extractTextFromPdfBuffer buffer) maxChars)
  = RegexVariant.extractTextFromPdfBuffer buffer.
Proof.
  intros Hne. rewrite splitText_same.
  apply join_sp_splitText_tidy; [|exact Hne].
  apply normalize_ws_tidy, normalize_ws_extracted.
Qed.

Lemma regex_variant_chunks_are_the_text_witness :
  RegexVariant.extractTextFromPdfBuffer
    (lit "BT /F1 12 Tf (Call me   Ishmael.) Tj ET BT (Some years ago.) Tj ET") <> []
  /\ join_sp (RegexTask.splitText
                (RegexVariant.extractTextFromPdfBuffer
                   (lit "BT /F1 12 Tf (Call me   Ishmael.) Tj ET BT (Some years ago.) Tj ET"))
                20)
     = RegexVariant.extractTextFromPdfBuffer
         (lit "BT /F1 12 Tf (Call me   Ishmael.) Tj ET BT (Some years ago.) Tj ET").
Proof.
  assert (H : RegexVariant.extractTextFromPdfBuffer
                (lit "BT /F1 12 Tf (Call me   Ishmael.) Tj ET BT (Some years ago.) Tj ET")
              <> []) by (vm_compute; discriminate).
  exact (conj H (regex_variant_chunks_are_the_text _ 20 H)).
Defined.

Example extract_two_blocks :
  RegexVariant.extractTextFromPdfBuffer
    (lit "BT /F1 12 Tf (Call me   Ishmael.) Tj ET BT (Some years ago.) Tj ET")
  = lit "Call me Ishmael. Some years ago.".
Proof. vm_compute. reflexivity. Qed.

End TidyText.

(* ================================================================== *)
(** ** The text preview of the upload page *)

Section Preview.
Import JS Task PdfExtractor.

Lemma extract_pages_spec (pdf : PDFDocument) (todo i : nat) (fullText : str) :
  extract_pages pdf todo i fullText
  = (fullText ++ flat_map (readable_text pdf) (seq i todo),
     flat_map (page_warning pdf) (seq i todo)).
Proof.
  revert i fullText. induction todo as [|todo IH]; intros i fullText; simpl.
  - rewrite app_nil_r. reflexivity.
  - unfold readable_text at 1, page_warning at 1.
    destruct (page_items pdf i) as [items|e]; rewrite IH; simpl.
    + rewrite <- !app_assoc. reflexivity.
    + reflexivity.
Qed.

Lemma preview_pages_spec (pdf : PDFDocument) (todo i : nat) (previewText : str) :
  (forall k, i <= k < i + todo -> exists items, page_items pdf k = Ok items) ->
  preview_pages pdf todo i previewText
  = Ok (previewText ++ flat_map (readable_text pdf) (seq i todo)).
Proof.
  revert i previewText. induction todo as [|todo IH]; intros i previewText Hall; simpl.
  - rewrite app_nil_r. reflexivity.
  - destruct (Hall i) as (items & Hi); [lia|].
    unfold readable_text at 1. rewrite Hi. rewrite IH.
    + rewrite <- !app_assoc. reflexivity.
    + intros k Hk. apply Hall. lia.
Qed.

Lemma preview_pages_ok (pdf : PDFDocument) (todo i : nat) (previewText t : str) :
  preview_pages pdf todo i previewText = Ok t ->
  forall k, i <= k < i + todo -> exists items, page_items pdf k = Ok items.
Proof.
  revert i previewText. induction todo as [|todo IH]; intros i previewText H k Hk.
  - lia.
  - simpl in H. destruct (page_items pdf i) as [items|e] eqn:Hi; [|discriminate].
    destruct (Nat.eq_dec k i) as [->|Hne]; [exists items; exact Hi|].
    apply (IH _ _ H). lia.
Qed.

Lemma preview_pages_throw (pdf : PDFDocument) (todo i : nat) (previewText : str)
      (k : nat) (e : Thrown) :
  i <= k < i + todo -> page_items pdf k = Throw e ->
  exists e', preview_pages pdf todo i previewText = Throw e'.
Proof.
  revert i previewText. induction todo as [|todo IH]; intros i previewText Hk He.
  - lia.
  - simpl. destruct (page_items pdf i) as [items|e0] eqn:Hi; [|exists e0; reflexivity].
    apply IH; [|exact He].
    destruct (Nat.eq_dec k i) as [->|Hne]; [congruence | lia].
Qed.

Lemma no_page_warning (pdf : PDFDocument) (l : list nat) :
  (forall k, In k l -> exists items, page_items pdf k = Ok items) ->
  flat_map (page_warning pdf) l = [].
Proof.
  induction l as [|k l IH]; intros H; [reflexivity|]. simpl.
  destruct (H k (or_introl eq_refl)) as (items & Hk).
  unfold page_warning at 1. rewrite Hk. simpl.
  apply IH. intros j Hj. apply H. right. exact Hj.
Qed.

Lemma flat_map_same {A B} (f g : A -> list B) (l : list A) :
  (forall a, In a l -> f a = g a) -> flat_map f l = flat_map g l.
Proof.
  induction l as [|a l IH]; intros H; [reflexivity|]. simpl.
  rewrite (H a (or_introl eq_refl)), IH; [reflexivity|].
  intros x Hx. apply H. right. exact Hx.
Qed.

Lemma placeholder_trimmed : trim placeholder = placeholder /\ placeholder <> [].
Proof. split; [vm_compute; reflexivity | vm_compute; discriminate]. Qed.

(** X13.  The preview text is empty exactly when the file could not be loaded
    as a PDF; for a file that loads it is never empty, whatever its pages
    hold, and it has no whitespace at either end. *)
Theorem extractTextFromPDF_empty_iff_not_loaded (loaded : Result PDFDocument) :
  (fst (extractTextFromPDF loaded) = [] <-> exists error, loaded = Throw error)
  /\ trim (fst (extractTextFromPDF loaded)) = fst (extractTextFromPDF loaded).
Proof.
  destruct placeholder_trimmed as [Hp Hne].
  destruct loaded as [pdf|error]; unfold extractTextFromPDF.
  - destruct (extract_pages pdf (Nat.min 10 (numPages pdf)) 1 []) as [fullText warned].
    cbn [fst]. destruct (truthy (trim fullText)) eqn:Ht.
    + apply truthy_true_not_nil in Ht. split; [|apply trim_idem].
      split; [intros H; contradiction | intros (e & He); discriminate].
    + split; [|exact Hp].
      split; [intros H; contradiction | intros (e & He); discriminate].
  - cbn [fst]. split; [|reflexivity].
    split; [intros _; exists error; reflexivity | reflexivity].
Qed.

(** X14.  Only the first ten pages are read: two documents of ten pages or more
    that agree on their first ten pages give the same preview text and
    the same warnings. *)
Theorem extractTextFromPDF_reads_ten_pages (pdf pdf' : PDFDocument) :
  10 <= numPages pdf -> 10 <= numPages pdf' ->
  (forall i, 1 <= i <= 10 -> page_items pdf i = page_items pdf' i) ->
  extractTextFromPDF (Ok pdf) = extractTextFromPDF (Ok pdf').
Proof.
  intros Hn Hn' Hsame. unfold extractTextFromPDF.
  rewrite !Nat.min_l by assumption. rewrite !extract_pages_spec.
  assert (Ht : flat_map (readable_text pdf) (seq 1 10)
               = flat_map (readable_text pdf') (seq 1 10)).
  { apply flat_map_same. intros i Hi. apply in_seq in Hi.
    unfold readable_text. rewrite Hsame by lia. reflexivity. }
  assert (Hw : flat_map (page_warning pdf) (seq 1 10)
               = flat_map (page_warning pdf') (seq 1 10)).
  { apply flat_map_same. intros i Hi. apply in_seq in Hi.
    unfold page_warning. rewrite Hsame by lia. reflexivity. }
  rewrite Ht, Hw. reflexivity.
Qed.

Lemma extractTextFromPDF_reads_ten_pages_witness :
  extractTextFromPDF (Ok ten_pages) = extractTextFromPDF (Ok twelve_pages).
Proof.
  apply (extractTextFromPDF_reads_ten_pages ten_pages twelve_pages).
  - simpl. lia.
  - simpl. lia.
  - intros i Hi. simpl. destruct (Nat.leb_spec i 10); [reflexivity | lia].
Defined.

(** X15.  When the ten-page preview of [getPDFPreview] succeeds with a text that
    is not empty, [extractTextFromPDF] gives the same text, without a
    warning. *)
Theorem preview_agrees_with_extraction (loaded : Result PDFDocument) (t : str) :
  fst (getPDFPreview loaded 10) = Ok t -> t <> [] ->
  extractTextFromPDF loaded = (t, []).
Proof.
  intros H Hne. destruct loaded as [pdf|error]; [|discriminate].
  unfold getPDFPreview in H. unfold extractTextFromPDF.
  assert (Hn : Z.to_nat (Z.min 10 (Z.of_nat (numPages pdf))) = Nat.min 10 (numPages pdf)) by lia.
  rewrite Hn in H. set (n := Nat.min 10 (numPages pdf)) in *.
  destruct (preview_pages pdf n 1 []) as [previewText|e] eqn:Hp; [|discriminate].
  simpl in H. injection H as <-.
  pose proof (preview_pages_ok _ _ _ _ _ Hp) as Hall.
  rewrite (preview_pages_spec pdf n 1 [] Hall) in Hp. injection Hp as <-.
  rewrite extract_pages_spec. simpl app.
  rewrite no_page_warning by (intros k Hk; apply in_seq in Hk; apply Hall; lia).
  apply truthy_true_not_nil in Hne. simpl app in Hne. rewrite Hne. reflexivity.
Qed.

Lemma preview_agrees_with_extraction_witness :
  extractTextFromPDF (Ok ten_pages)
  = (trim (flat_map (readable_text ten_pages) (seq 1 10)), []).
Proof.
  apply (preview_agrees_with_extraction (Ok ten_pages)).
  - vm_compute. reflexivity.
  - vm_compute. discriminate.
Defined.

(** X16.  A page that cannot be read makes the preview of [getPDFPreview] fail,
    where [extractTextFromPDF] skips it; and whatever goes wrong, the
    caller of [getPDFPreview] only ever sees the error "Failed to extract
    PDF preview". *)
Theorem getPDFPreview_fails_on_unreadable_page
        (loaded : Result PDFDocument) (maxPages : Z) :
  (forall e, fst (getPDFPreview loaded maxPages) = Throw e -> e = preview_failed)
  /\ (forall pdf i e,
        loaded = Ok pdf -> (1 <= Z.of_nat i <= Z.min maxPages (Z.of_nat (numPages pdf)))%Z ->
        page_items pdf i = Throw e ->
        fst (getPDFPreview loaded maxPages) = Throw preview_failed).
Proof.
  split.
  - intros e. destruct loaded as [pdf|error]; simpl.
    + destruct (preview_pages pdf _ 1 []); simpl; [discriminate|].
      intros H. injection H as <-. reflexivity.
    + intros H. injection H as <-. reflexivity.
  - intros pdf i e -> Hi He. simpl.
    destruct (preview_pages_throw pdf (Z.to_nat (Z.min maxPages (Z.of_nat (numPages pdf))))
                1 [] i e) as (e' & He'); [lia | exact He |].
    rewrite He'. reflexivity.
Qed.

Lemma getPDFPreview_fails_on_unreadable_page_witness :
  fst (getPDFPreview (Ok torn_page) 3) = Throw preview_failed
  /\ fst (extractTextFromPDF (Ok torn_page)) = lit "page 1

page 3".
Proof.
  split.
  - apply (proj2 (getPDFPreview_fails_on_unreadable_page (Ok torn_page) 3)
                 torn_page 2 (JsError (lit "bad page")));
      [reflexivity | simpl; lia | reflexivity].
  - vm_compute. reflexivity.
Defined.

End Preview.

(* ================================================================== *)
(** ** The upload routes *)

Section Uploads.
Import JS Task Api.

Lemma str_eqb_eq (a b : str) : str_eqb a b = true <-> a = b.
Proof.
  unfold str_eqb. destruct (list_eq_dec N.eq_dec a b); split; congruence.
Qed.

Lemma endsWith_split (s suffix : str) :
  endsWith s suffix = true <-> exists stem, s = stem ++ suffix.
Proof.
  unfold endsWith. split.
  - intros H. apply andb_prop in H. destruct H as [Hl He].
    apply str_eqb_eq in He. exists (firstn (length s - length suffix) s).
    rewrite <- He at 2. symmetry. apply firstn_skipn.
  - intros (stem & ->). rewrite length_app.
    replace (length stem + length suffix - length suffix)%nat with (length stem) by lia.
    apply andb_true_intro. split; [apply Nat.leb_le; lia|].
    apply str_eqb_eq. rewrite skipn_app, skipn_all, Nat.sub_diag. reflexivity.
Qed.

Lemma sanitize_app (a b : str) : sanitize (a ++ b) = sanitize a ++ sanitize b.
Proof. apply map_app. Qed.

Lemma sanitize_allowed (s : str) :
  Forall (fun c => allowed c = true) s -> sanitize s = s.
Proof.
  induction 1 as [|c s Hc _ IH]; [reflexivity|].
  simpl. rewrite Hc. f_equal. exact IH.
Qed.

Lemma allowed_sanitize (s : str) : Forall (fun c => allowed c = true) (sanitize s).
Proof.
  induction s as [|c s IH]; constructor; [|exact IH].
  destruct (allowed c) eqn:E; [exact E | reflexivity].
Qed.

(** X17.  The sanitised name is as long as the name, is made of letters,
    digits, dots, underscores and hyphens only, so that it has no slash,
    and sanitising it again changes nothing. *)
Theorem sanitize_is_safe (name : str) :
  length (sanitize name) = length name
  /\ Forall (fun c => allowed c = true) (sanitize name)
  /\ ~ In 47%N (sanitize name)
  /\ sanitize (sanitize name) = sanitize name.
Proof.
  split; [apply length_map|]. split; [apply allowed_sanitize|]. split.
  - intros Hin. pose proof (allowed_sanitize name) as H.
    rewrite Forall_forall in H. specialize (H _ Hin). discriminate.
  - apply sanitize_allowed, allowed_sanitize.
Qed.

(** X18.  A name keeps its ending when it is sanitised, if the ending is made
    of characters that are allowed: an extension such as [.pdf] or
    [.PDF] is still there in the stored name. *)
Theorem sanitize_keeps_extension (name suffix : str) :
  Forall (fun c => allowed c = true) suffix ->
  endsWith name suffix = true ->
  endsWith (sanitize name) suffix = true.
Proof.
  intros Hs H. apply endsWith_split in H. destruct H as (stem & ->).
  apply endsWith_split. exists (sanitize stem).
  rewrite sanitize_app, (sanitize_allowed suffix Hs). reflexivity.
Qed.

Lemma sanitize_keeps_extension_witness :
  endsWith (sanitize (lit "My Book (final).PDF")) (lit ".PDF") = true.
Proof.
  apply (sanitize_keeps_extension (lit "My Book (final).PDF") (lit ".PDF")).
  - vm_compute. repeat constructor.
  - vm_compute. reflexivity.
Defined.

Lemma store_calls (env : Env) (folder contentType : str) (file : File)
      (call : StorageCall) :
  In call (snd (store env folder contentType file)) ->
  exists data,
    arrayBuffer file = Ok data
    /\ call = (folder ++ lit "/" ++ randomUUID env ++ lit "/" ++ sanitize (name file),
               data, contentType)
    /\ snd (store env folder contentType file) = [call].
Proof.
  unfold store, failed. destruct (createServerClient env); [|intros []].
  destruct (arrayBuffer file) as [data|e]; [|intros []].
  cbv zeta. intros Hin. exists data. split; [reflexivity|].
  destruct (storage_upload env _ data contentType) as [[message|]|e];
    simpl in Hin |- *; destruct Hin as [<-|[]]; split; reflexivity.
Qed.

Lemma store_answer (env : Env) (folder contentType : str) (file : File) :
  match fst (store env folder contentType file) with
  | Stored storagePath fileName fileSize =>
      exists data,
        fileName = name file /\ fileSize = size file
        /\ snd (store env folder contentType file) = [(storagePath, data, contentType)]
        /\ storage_upload env storagePath data contentType = Ok None
  | Refused e =>
      (status e = 400 \/ status e = 500)%Z
      /\ (status e = 400%Z -> snd (store env folder contentType file) = [])
  end.
Proof.
  unfold store, failed. destruct (createServerClient env); simpl; [|split; [right|]; easy].
  destruct (arrayBuffer file) as [data|e]; simpl; [|split; [right|]; easy].
  destruct (storage_upload env _ data contentType) as [[message|]|e] eqn:Hu; simpl.
  - split; [right|]; easy.
  - exists data. repeat split. exact Hu.
  - split; [right|]; easy.
Qed.

(** X19.  The PDF upload route writes to the storage only for a file that
    passed every check: its lower-cased name ends in [.pdf] and its size
    is between 1 byte and 100 MB.  It then writes once, the bytes of the
    file, under [pdfs/<uuid>/<sanitised name>]. *)
Theorem pdf_upload_stores_only_checked_files
        (env : Env) (formData : Result (option FormEntry)) (call : StorageCall) :
  In call (snd (Pdf.POST env formData)) ->
  exists file data,
    formData = Ok (Some (FileField file))
    /\ endsWith (toLowerCase env (name file)) (lit ".pdf") = true
    /\ (0 < size file <= 100 * 1024 * 1024)%N
    /\ arrayBuffer file = Ok data
    /\ call = (lit "pdfs/" ++ randomUUID env ++ lit "/" ++ sanitize (name file),
               data, lit "application/pdf")
    /\ snd (Pdf.POST env formData) = [call].
Proof.
  unfold Pdf.POST, failed.
  destruct formData as [[[value|file]|]|e]; try (intros []).
  - destruct (truthy value); intros [].
  - destruct (endsWith (toLowerCase env (name file)) (lit ".pdf")) eqn:He;
      simpl negb; cbv iota; [|intros []].
    destruct (Pdf.MAX_FILE_SIZE <? size file)%N eqn:Hmax; [intros []|].
    destruct (size file =? 0)%N eqn:H0; [intros []|].
    intros Hin. destruct (store_calls _ _ _ _ _ Hin) as (data & Hd & Hc & Hs).
    exists file, data. apply N.ltb_ge in Hmax. apply N.eqb_neq in H0.
    unfold Pdf.MAX_FILE_SIZE in Hmax.
    repeat split; try assumption; lia.
Qed.

Lemma pdf_upload_stores_only_checked_files_witness :
  exists file data,
    Ok (Some (FileField sample_pdf)) = Ok (Some (FileField file))
    /\ endsWith (toLowerCase sample_env (name file)) (lit ".pdf") = true
    /\ (0 < size file <= 100 * 1024 * 1024)%N
    /\ arrayBuffer file = Ok data
    /\ (lit "pdfs/0b5e/My_Book__final_.PDF", [37; 80; 68; 70; 45]%N, lit "application/pdf")
       = (lit "pdfs/" ++ randomUUID sample_env ++ lit "/" ++ sanitize (name file),
          data, lit "application/pdf")
    /\ snd (Pdf.POST sample_env (Ok (Some (FileField sample_pdf))))
       = [(lit "pdfs/0b5e/My_Book__final_.PDF", [37; 80; 68; 70; 45]%N,
           lit "application/pdf")].
Proof.
  apply (pdf_upload_stores_only_checked_files sample_env).
  vm_compute. left. reflexivity.
Defined.

(** X20.  The answer of the PDF upload route tells what happened to the
    storage: a success carries the path of the one object that was
    written, which the storage accepted; an answer with status 400 means
    that nothing was written; and an error has status 400 or 500. *)
Theorem pdf_upload_answer (env : Env) (formData : Result (option FormEntry)) :
  match fst (Pdf.POST env formData) with
  | Stored storagePath fileName fileSize =>
      exists file data,
        formData = Ok (Some (FileField file))
        /\ fileName = name file /\ fileSize = size file
        /\ snd (Pdf.POST env formData) = [(storagePath, data, lit "application/pdf")]
        /\ storage_upload env storagePath data (lit "application/pdf") = Ok None
  | Refused e =>
      (status e = 400 \/ status e = 500)%Z
      /\ (status e = 400%Z -> snd (Pdf.POST env formData) = [])
  end.
Proof.
  unfold Pdf.POST, failed.
  destruct formData as [[[value|file]|]|e]; simpl; try (split; [auto|]; easy).
  - destruct (truthy value); simpl; split; auto.
  - destruct (endsWith (toLowerCase env (name file)) (lit ".pdf"));
      simpl; [|split; auto].
    destruct (Pdf.MAX_FILE_SIZE <? size file)%N; simpl; [split; auto|].
    destruct (size file =? 0)%N; simpl; [split; auto|].
    pose proof (store_answer env (lit "pdfs") (lit "application/pdf") file) as H.
    destruct (fst (store env (lit "pdfs") (lit "application/pdf") file))
      as [storagePath fileName fileSize|err]; [|exact H].
    destruct H as (data & H1 & H2 & H3 & H4).
    exists file, data. repeat split; assumption.
Qed.

(** X21.  The voice sample upload route writes to the storage only for a file
    of 1 byte to 50 MB whose type or whose lower-cased extension is in
    the lists of the route.  It then writes once, the bytes of the file,
    under [voices/<uuid>/<sanitised name>], with a content type that is
    never empty. *)
Theorem voice_upload_stores_only_checked_files
        (env : Env) (formData : Result (option FormEntry)) (call : StorageCall) :
  In call (snd (Audio.POST env formData)) ->
  exists file data contentType,
    formData = Ok (Some (FileField file))
    /\ (0 < size file <= 50 * 1024 * 1024)%N
    /\ (includes Audio.ALLOWED_TYPES (type file) = true
        \/ includes Audio.VALID_EXTENSIONS
                    (toLowerCase env (last_part (name file) [])) = true)
    /\ arrayBuffer file = Ok data
    /\ contentType <> []
    /\ (type file <> [] -> contentType = type file)
    /\ call = (lit "voices/" ++ randomUUID env ++ lit "/" ++ sanitize (name file),
               data, contentType)
    /\ snd (Audio.POST env formData) = [call].
Proof.
  unfold Audio.POST, failed.
  destruct formData as [[[value|file]|]|e]; try (intros []).
  - destruct (truthy value); intros [].
  - destruct (Audio.MAX_FILE_SIZE <? size file)%N eqn:Hmax; [intros []|].
    destruct (size file =? 0)%N eqn:H0; [intros []|].
    destruct (negb (includes Audio.ALLOWED_TYPES (type file))
              && negb (includes Audio.VALID_EXTENSIONS (Audio.ext env file))) eqn:Ht;
      [intros []|].
    intros Hin. destruct (store_calls _ _ _ _ _ Hin) as (data & Hd & Hc & Hs).
    exists file, data, (if truthy (type file) then type file else lit "audio/mpeg").
    apply N.ltb_ge in Hmax. apply N.eqb_neq in H0. unfold Audio.MAX_FILE_SIZE in Hmax.
    split; [reflexivity|]. split; [lia|]. split.
    { apply andb_false_iff in Ht. destruct Ht as [Ht|Ht];
        apply negb_false_iff in Ht; [left | right]; exact Ht. }
    split; [exact Hd|]. split.
    { destruct (type file); simpl; discriminate. }
    split.
    { intros Hne. destruct (type file); [congruence | reflexivity]. }
    split; assumption.
Qed.

Lemma voice_upload_stores_only_checked_files_witness :
  exists file data contentType,
    Ok (Some (FileField sample_voice)) = Ok (Some (FileField file))
    /\ (0 < size file <= 50 * 1024 * 1024)%N
    /\ (includes Audio.ALLOWED_TYPES (type file) = true
        \/ includes Audio.VALID_EXTENSIONS
                    (toLowerCase sample_env (last_part (name file) [])) = true)
    /\ arrayBuffer file = Ok data
    /\ contentType <> []
    /\ (type file <> [] -> contentType = type file)
    /\ (lit "voices/0b5e/voice_memo", [82; 73; 70; 70]%N, lit "audio/wav")
       = (lit "voices/" ++ randomUUID sample_env ++ lit "/" ++ sanitize (name file),
          data, contentType)
    /\ snd (Audio.POST sample_env (Ok (Some (FileField sample_voice))))
       = [(lit "voices/0b5e/voice_memo", [82; 73; 70; 70]%N, lit "audio/wav")].
Proof.
  apply (voice_upload_stores_only_checked_files sample_env).
  vm_compute. left. reflexivity.
Defined.

End Uploads.

(* ================================================================== *)
(** ** The route that creates a job *)

Section Jobs.
Import JS Task Api JobsRoute.
Context {NB : Numbers}.

Lemma required_ok {A} (ok : A -> bool) (f : Field A) (a : A) :
  required ok f = Some a -> ok a = true.
Proof.
  destruct f as [| |x]; simpl; try discriminate.
  destruct (ok x) eqn:E; [|discriminate]. intros H. injection H as <-. exact E.
Qed.

Lemma default_ok {A} (ok : A -> bool) (d : A) (f : Field A) (a : A) :
  ok d = true -> default d (optional ok f) = Some a -> ok a = true.
Proof.
  intros Hd. destruct f as [| |x]; simpl; try discriminate.
  - intros H. injection H as <-. exact Hd.
  - destruct (ok x) eqn:E; simpl; [|discriminate].
    intros H. injection H as <-. exact E.
Qed.

(** What the schema lets through satisfies its checks, also where a
    default was filled in. *)
Lemma createJobSchema_sound (body : option Body) (parsed : CreateJobInput) :
  createJobSchema body = Some parsed ->
  pdfStoragePath parsed <> []
  /\ (1 <= length (bookTitle parsed) <= 200)%nat
  /\ (length (voiceName parsed) <= 200)%nat
  /\ seconds_ok (startTime parsed) = true
  /\ seconds_ok (endTime parsed) = true
  /\ truthy_opt (voiceStoragePath parsed) || truthy_opt (videoId parsed) = true.
Proof.
  unfold createJobSchema. destruct body as [b|]; [|discriminate].
  destruct (required (min_len 1) (b_pdfStoragePath b)) as [pdf|] eqn:E1; [|discriminate].
  destruct (default (lit "Untitled") _) as [title|] eqn:E2; [|discriminate].
  destruct (optional (fun _ => true) (b_voiceStoragePath b)) as [voice|] eqn:E3;
    [|discriminate].
  destruct (optional (fun _ => true) (b_videoId b)) as [video|] eqn:E4; [|discriminate].
  destruct (default (lit "Custom Voice") _) as [vname|] eqn:E5; [|discriminate].
  destruct (default zero _) as [st|] eqn:E6; [|discriminate].
  destruct (default sixty _) as [en|] eqn:E7; [|discriminate].
  destruct (truthy_opt voice || truthy_opt video) eqn:Er; [|discriminate].
  intros H. injection H as <-. simpl.
  apply required_ok in E1. apply default_ok in E2; [|reflexivity].
  apply default_ok in E5; [|reflexivity].
  apply default_ok in E6; [|apply zero_ok]. apply default_ok in E7; [|apply sixty_ok].
  unfold min_len, max_len in *. apply andb_prop in E2. destruct E2 as [E2 E2'].
  apply Nat.leb_le in E1, E2, E2', E5.
  repeat split; try assumption.
  destruct pdf; [simpl in E1; lia | discriminate].
Qed.

Lemma or_null_cases (value : option str) :
  (or_null value = None /\ truthy_opt value = false)
  \/ (exists s, or_null value = Some s /\ value = Some s /\ s <> []).
Proof.
  unfold or_null. destruct (truthy_opt value) eqn:E; [right | left; split; reflexivity].
  destruct value as [s|]; [|discriminate]. exists s. repeat split.
  simpl in E. apply truthy_true_not_nil. exact E.
Qed.

Lemma dispatch_calls (env : Env) (jobId : str) (parsed : CreateJobInput)
      (url authorization : str) (d : TriggerPayload) :
  In (Dispatched url authorization d) (dispatch env jobId parsed) ->
  exists triggerUrl triggerApiKey rest,
    TRIGGER_API_URL env = Some triggerUrl /\ triggerUrl <> []
    /\ TRIGGER_SECRET_KEY env = Some triggerApiKey /\ triggerApiKey <> []
    /\ url = triggerUrl ++ lit "/api/v1/tasks/generate-audiobook/trigger"
    /\ authorization = lit "Bearer " ++ triggerApiKey
    /\ d = mkTrigger jobId (pdfStoragePath parsed)
                     (or_null (voiceStoragePath parsed)) (or_null (videoId parsed))
                     (startTime parsed) (endTime parsed)
    /\ dispatch env jobId parsed = Dispatched url authorization d :: rest
    /\ (rest = [] \/ exists task, rest = [TaskIdSet jobId task]).
Proof.
  unfold dispatch.
  destruct (TRIGGER_API_URL env) as [triggerUrl|]; [|intros []].
  destruct (TRIGGER_SECRET_KEY env) as [triggerApiKey|]; [|intros []].
  destruct (truthy triggerUrl) eqn:Hu; [|intros []].
  destruct (truthy triggerApiKey) eqn:Hk; [|intros []].
  cbv zeta. simpl andb. cbv iota.
  set (payload := mkTrigger _ _ _ _ _ _).
  set (url0 := triggerUrl ++ _). set (auth0 := lit "Bearer " ++ _).
  intros Hin.
  assert (Hd : Dispatched url authorization d = Dispatched url0 auth0 payload).
  { destruct Hin as [H|Hin]; [symmetry; exact H|].
    destruct (fetch env url0 auth0 payload) as [res|e]; [|destruct Hin].
    destruct (t_ok res); [|destruct Hin].
    destruct (t_id res) as [task|e]; [|destruct Hin].
    destruct Hin as [H|[]]; discriminate. }
  injection Hd as -> -> ->.
  exists triggerUrl, triggerApiKey.
  eexists. split; [reflexivity|]. split; [apply truthy_true_not_nil; exact Hu|].
  split; [reflexivity|]. split; [apply truthy_true_not_nil; exact Hk|].
  split; [reflexivity|]. split; [reflexivity|]. split; [reflexivity|].
  split; [reflexivity|].
  destruct (fetch env url0 auth0 payload) as [res|e]; [|left; reflexivity].
  destruct (t_ok res); [|left; reflexivity].
  destruct (t_id res) as [task|e]; [right; exists task|left]; reflexivity.
Qed.

Lemma POST_dispatched (env : Env) (request_json : Result (option Body))
      (url authorization : str) (d : TriggerPayload) :
  In (Dispatched url authorization d) (snd (POST env request_json)) ->
  exists body parsed job,
    request_json = Ok body
    /\ createJobSchema body = Some parsed
    /\ createServerClient env = true
    /\ jobs_insert env (new_row (randomUUID env) parsed) = (job, None)
    /\ snd (POST env request_json)
       = Inserted (new_row (randomUUID env) parsed)
         :: dispatch env (randomUUID env) parsed
    /\ In (Dispatched url authorization d) (dispatch env (randomUUID env) parsed).
Proof.
  unfold POST. destruct request_json as [body|e]; [|intros []].
  destruct (createJobSchema body) as [parsed|] eqn:Hp; [|intros []].
  destruct (createServerClient env) eqn:Hc; [|intros []].
  cbv zeta.
  destruct (jobs_insert env (new_row (randomUUID env) parsed)) as [job [message|]] eqn:Hi.
  - simpl. intros [H|[]]. discriminate.
  - intros Hin. exists body, parsed, job.
    assert (Hs : snd (match job with
                      | Some (job_id, job_status) =>
                          (Created job_id job_status (lit "Job created successfully"),
                           Inserted (new_row (randomUUID env) parsed)
                           :: dispatch env (randomUUID env) parsed)
                      | None =>
                          (Rejected (handleApiError OtherError),
                           Inserted (new_row (randomUUID env) parsed)
                           :: dispatch env (randomUUID env) parsed)
                      end)
                 = Inserted (new_row (randomUUID env) parsed)
                   :: dispatch env (randomUUID env) parsed).
    { destruct job as [[job_id job_status]|]; reflexivity. }
    rewrite Hs in Hin |- *.
    do 5 (split; [first [reflexivity | assumption]|]).
    destruct Hin as [H|Hin]; [discriminate | exact Hin].
Qed.

(** X22.  The task is dispatched only after the job was inserted without an
    error, as a row with status [queued], progress 0 and the id, the PDF
    path and the video id that the payload carries.  The dispatch is the
    second request of the route, and at most one more follows it, which
    records the id of the task run for the same job. *)
Theorem dispatch_follows_insert (env : Env) (request_json : Result (option Body))
        (url authorization : str) (d : TriggerPayload) :
  In (Dispatched url authorization d) (snd (POST env request_json)) ->
  exists row job rest,
    snd (POST env request_json) = Inserted row :: Dispatched url authorization d :: rest
    /\ jobs_insert env row = (job, None)
    /\ id row = payload_jobId d
    /\ row_status row = queued /\ progress row = 0%Z
    /\ row_error row = None /\ trigger_task_id row = None
    /\ pdf_storage_path row = payload_pdfStoragePath d
    /\ video_id row = payload_videoId d
    /\ voice_storage_path row = match payload_voiceStoragePath d with
                                | Some path => path
                                | None => []
                                end
    /\ (rest = [] \/ exists task, rest = [TaskIdSet (payload_jobId d) task]).
Proof.
  intros Hin.
  destruct (POST_dispatched _ _ _ _ _ Hin) as (body & parsed & job & _ & _ & _ & Hi & Hs & Hd).
  destruct (dispatch_calls _ _ _ _ _ _ Hd)
    as (triggerUrl & triggerApiKey & rest & _ & _ & _ & _ & _ & _ & Hp & Hc & Hr).
  exists (new_row (randomUUID env) parsed), job, rest.
  rewrite Hs, Hc, Hp. simpl. repeat split; assumption.
Qed.

(** X23.  The payload that is dispatched is well formed: the PDF path is not
    empty; the path of the voice sample and the video id are [null] or
    not empty, and are not both [null]; the two times passed the range
    check of the schema.  The request goes to the configured URL, which
    is not empty, with the configured key, which is not empty. *)
Theorem dispatched_payload_is_valid (env : Env) (request_json : Result (option Body))
        (url authorization : str) (d : TriggerPayload) :
  In (Dispatched url authorization d) (snd (POST env request_json)) ->
  payload_jobId d = randomUUID env
  /\ payload_pdfStoragePath d <> []
  /\ payload_voiceStoragePath d <> Some []
  /\ payload_videoId d <> Some []
  /\ (payload_voiceStoragePath d <> None \/ payload_videoId d <> None)
  /\ seconds_ok (payload_startTime d) = true
  /\ seconds_ok (payload_endTime d) = true
  /\ exists triggerUrl triggerApiKey,
       TRIGGER_API_URL env = Some triggerUrl /\ triggerUrl <> []
       /\ TRIGGER_SECRET_KEY env = Some triggerApiKey /\ triggerApiKey <> []
       /\ url = triggerUrl ++ lit "/api/v1/tasks/generate-audiobook/trigger"
       /\ authorization = lit "Bearer " ++ triggerApiKey.
Proof.
  intros Hin.
  destruct (POST_dispatched _ _ _ _ _ Hin) as (body & parsed & job & _ & Hp & _ & _ & _ & Hd).
  destruct (dispatch_calls _ _ _ _ _ _ Hd)
    as (triggerUrl & triggerApiKey & rest & H1 & H2 & H3 & H4 & H5 & H6 & Hpl & _).
  destruct (createJobSchema_sound _ _ Hp) as (S1 & _ & _ & S4 & S5 & S6).
  rewrite Hpl. simpl.
  split; [reflexivity|]. split; [exact S1|].
  split.
  { destruct (or_null_cases (voiceStoragePath parsed)) as [[-> _]|(s & -> & _ & Hs)];
      congruence. }
  split.
  { destruct (or_null_cases (videoId parsed)) as [[-> _]|(s & -> & _ & Hs)];
      congruence. }
  split.
  { apply orb_prop in S6.
    destruct (or_null_cases (voiceStoragePath parsed)) as [[_ E1]|(s & -> & _)];
      [|left; discriminate].
    destruct (or_null_cases (videoId parsed)) as [[_ E2]|(s & -> & _)];
      [|right; discriminate].
    destruct S6; congruence. }
  split; [exact S4|]. split; [exact S5|].
  exists triggerUrl, triggerApiKey. repeat split; assumption.
Qed.

(** X24.  Whether the task could be dispatched never changes the answer of the
    route: two runs that differ only in the configuration of Trigger.dev
    and in what it answers give the same response. *)
Theorem job_answer_ignores_dispatch (env env' : Env)
        (request_json : Result (option Body)) :
  zod_issues env = zod_issues env' ->
  createServerClient env = createServerClient env' ->
  randomUUID env = randomUUID env' ->
  jobs_insert env = jobs_insert env' ->
  fst (POST env request_json) = fst (POST env' request_json)
  /\ firstn 1 (snd (POST env request_json)) = firstn 1 (snd (POST env' request_json)).
Proof.
  intros Hz Hc Hu Hi. unfold POST. rewrite Hz, Hc, Hu, Hi.
  destruct request_json as [body|e]; [|split; reflexivity].
  destruct (createJobSchema body) as [parsed|]; [|split; reflexivity].
  destruct (createServerClient env'); [|split; reflexivity].
  cbv zeta.
  destruct (jobs_insert env' (new_row (randomUUID env') parsed))
    as [[[job_id job_status]|] [message|]]; split; reflexivity.
Qed.

End Jobs.

(* ================================================================== *)
(** ** From the route to the task *)

Section JobsAndTask.
Import JS Task PdfParseTask Trace.
Context {FR : FloorRatio} {NB : JobsRoute.Numbers}.

Lemma run_without_sample (w : World) (p : GenerateAudiobookPayload) :
  truthy_opt (voiceStoragePath p) = false -> truthy_opt (videoId p) = true ->
  exists e,
    fst (generateAudiobook w p) = Throw e
    /\ synth_calls (snd (generateAudiobook w p)) = []
    /\ uploads (snd (generateAudiobook w p)) = []
    /\ ((exists text, result_of (extract_text w (pdfStoragePath p)) = Ok text) ->
        e = JsError (lit
          "YouTube audio extraction requires yt-dlp. Please upload a voice sample directly for now.")).
Proof.
  intros Hv Hvid.
  assert (Hvoice : result_of (voice_file_url w (voiceStoragePath p) (videoId p))
                   = Throw (JsError (lit
          "YouTube audio extraction requires yt-dlp. Please upload a voice sample directly for now."))).
  { unfold result_of, voice_file_url. rewrite Hv, Hvid. reflexivity. }
  destruct (run_body w p []) as [r tb] eqn:E.
  destruct (generateAudiobook_readings w p r tb E) as (Hr & Hp & Hs & _).
  rewrite Hr, Hp, Hs. apply run_body_cases in E.
  destruct E as [(e & k & He & Hs0 & Hp0 & _ & Hwhy) | (text & url & _ & Hu & _)].
  - exists e. split; [exact He|]. split; [exact Hs0|]. split; [exact Hp0|].
    intros (text & Ht). destruct Hwhy as [Hx|[_ Hx]].
    + rewrite Ht in Hx. discriminate.
    + rewrite Hvoice in Hx. apply Throw_inj in Hx. symmetry. exact Hx.
  - rewrite Hvoice in Hu. discriminate.
Qed.

(** X25.  A job that the route accepts and dispatches is never refused by the
    task for want of any voice reference: the route lets nothing through
    that has neither a sample nor a video.  But a job dispatched with a
    video and no sample cannot succeed: its run fails without a call of
    the synthesizer and without an upload, and with the error that asks
    for an uploaded sample whenever the text of the PDF could be read. *)
Theorem dispatched_job_without_sample_fails
        (env : JobsRoute.Env) (request_json : Result (option JobsRoute.Body))
        (url authorization : str) (d : JobsRoute.TriggerPayload)
        (w : World) (p : GenerateAudiobookPayload) :
  In (JobsRoute.Dispatched url authorization d) (snd (JobsRoute.POST env request_json)) ->
  JobsRoute.carries p d ->
  (forall t, fst (voice_file_url w (voiceStoragePath p) (videoId p) t)
             <> Throw (JsError (lit "No voice sample provided")))
  /\ (JobsRoute.payload_voiceStoragePath d = None ->
      exists e,
        fst (generateAudiobook w p) = Throw e
        /\ synth_calls (snd (generateAudiobook w p)) = []
        /\ uploads (snd (generateAudiobook w p)) = []
        /\ ((exists text, result_of (extract_text w (pdfStoragePath p)) = Ok text) ->
            e = JsError (lit
              "YouTube audio extraction requires yt-dlp. Please upload a voice sample directly for now."))).
Proof.
  intros Hin (_ & _ & Hvoice & Hvideo).
  destruct (POST_dispatched _ _ _ _ _ Hin) as (body & parsed & job & _ & Hp & _ & _ & _ & Hd).
  destruct (dispatch_calls _ _ _ _ _ _ Hd)
    as (triggerUrl & triggerApiKey & rest & _ & _ & _ & _ & _ & _ & Hpl & _).
  destruct (createJobSchema_sound _ _ Hp) as (_ & _ & _ & _ & _ & S6).
  rewrite Hpl in Hvoice, Hvideo |- *. simpl in Hvoice, Hvideo |- *.
  assert (Hcases : truthy_opt (voiceStoragePath p) = true
                   \/ (voiceStoragePath p = None /\ truthy_opt (videoId p) = true)).
  { rewrite Hvoice, Hvideo.
    destruct (or_null_cases (JobsRoute.voiceStoragePath parsed))
      as [[-> E1]|(s & -> & _ & Hs)].
    - right. split; [reflexivity|]. rewrite E1 in S6. simpl in S6.
      unfold JobsRoute.or_null. rewrite S6. exact S6.
    - left. simpl. apply truthy_true_not_nil. exact Hs. }
  split.
  - intros t. unfold voice_file_url.
    destruct Hcases as [-> | [-> ->]]; simpl; [discriminate|].
    intros H. apply Throw_inj in H. injection H as H. vm_compute in H. discriminate.
  - intros Hnone. rewrite Hnone in Hvoice.
    destruct Hcases as [Ht | [_ Hv]]; [rewrite Hvoice in Ht; discriminate|].
    apply run_without_sample; [rewrite Hvoice; reflexivity | exact Hv].
Qed.

End JobsAndTask.

Section JobScenarios.
Import JS Task Api JobsRoute.

Lemma dispatch_follows_insert_witness :
  exists row job rest,
    snd (POST (sample_env true) (Ok (Some sample_body)))
    = Inserted row :: Dispatched sample_url (lit "Bearer tr_secret") sample_payload :: rest
    /\ jobs_insert (sample_env true) row = (job, None)
    /\ id row = payload_jobId sample_payload
    /\ row_status row = queued /\ progress row = 0%Z
    /\ row_error row = None /\ trigger_task_id row = None
    /\ pdf_storage_path row = payload_pdfStoragePath sample_payload
    /\ video_id row = payload_videoId sample_payload
    /\ voice_storage_path row = match payload_voiceStoragePath sample_payload with
                                | Some path => path
                                | None => []
                                end
    /\ (rest = [] \/ exists task, rest = [TaskIdSet (payload_jobId sample_payload) task]).
Proof.
  apply (dispatch_follows_insert (sample_env true) (Ok (Some sample_body))).
  vm_compute. right. left. reflexivity.
Defined.

Lemma dispatched_payload_is_valid_witness :
  payload_pdfStoragePath sample_payload <> []
  /\ (payload_voiceStoragePath sample_payload <> None
      \/ payload_videoId sample_payload <> None).
Proof.
  assert (Hin : In (Dispatched sample_url (lit "Bearer tr_secret") sample_payload)
                   (snd (POST (sample_env false) (Ok (Some sample_body)))))
    by (vm_compute; right; left; reflexivity).
  destruct (dispatched_payload_is_valid _ _ _ _ _ Hin) as (_ & H2 & _ & _ & H5 & _).
  exact (conj H2 H5).
Defined.

Lemma job_answer_ignores_dispatch_witness :
  fst (POST (sample_env true) (Ok (Some sample_body)))
  = fst (POST (sample_env false) (Ok (Some sample_body)))
  /\ firstn 1 (snd (POST (sample_env true) (Ok (Some sample_body))))
     = firstn 1 (snd (POST (sample_env false) (Ok (Some sample_body)))).
Proof.
  apply (job_answer_ignores_dispatch (sample_env true) (sample_env false));
    reflexivity.
Defined.

Lemma dispatched_job_without_sample_fails_witness :
  exists e,
    fst (PdfParseTask.generateAudiobook Stub.book Stub.video_job) = Throw e
    /\ Trace.synth_calls (snd (PdfParseTask.generateAudiobook Stub.book Stub.video_job)) = []
    /\ Trace.uploads (snd (PdfParseTask.generateAudiobook Stub.book Stub.video_job)) = []
    /\ ((exists text,
            Trace.result_of
              (PdfParseTask.extract_text Stub.book (Task.pdfStoragePath Stub.video_job))
            = Ok text) ->
        e = JsError (lit
          "YouTube audio extraction requires yt-dlp. Please upload a voice sample directly for now.")).
Proof.
  assert (Hin : In (Dispatched sample_url (lit "Bearer tr_secret") sample_payload)
                   (snd (POST (sample_env true) (Ok (Some sample_body)))))
    by (vm_compute; right; left; reflexivity).
  assert (Hc : carries Stub.video_job sample_payload)
    by (vm_compute; repeat split).
  exact (proj2 (dispatched_job_without_sample_fails
                  (sample_env true) (Ok (Some sample_body)) sample_url
                  (lit "Bearer tr_secret") sample_payload Stub.book Stub.video_job Hin Hc)
               eq_refl).
Defined.

End JobScenarios.

(* ================================================================== *)
(** ** A run that returns *)

Section Success.
Import JS Task PdfParseTask Trace.
Context {FR : FloorRatio}.

(** X12.  A run that returns has recorded its success: it returns the id of the
    job and the path [output/<id>/audiobook.wav]; it made one upload, to
    that path, which the storage accepted; and its last write to the job
    sets the status [ready], the progress 100 and that path, after writes
    that neither end the job nor set the output location. *)
Theorem success_is_recorded (w : World) (p : GenerateAudiobookPayload) (s : Success) :
  fst (generateAudiobook w p) = Ok s ->
  s = mkSuccess (jobId p) (outputPath (jobId p))
  /\ (exists data,
        uploads (snd (generateAudiobook w p)) = [(outputPath (jobId p), data)]
        /\ storage_upload w (outputPath (jobId p)) data = None)
  /\ exists before,
       updates (snd (generateAudiobook w p))
       = before ++ [mkUpdate (Some ready) (Some 100%Z) None (Some (outputPath (jobId p)))]
       /\ Forall in_progress before.
Proof.
  intros Hok. destruct (run_body w p []) as [r tb] eqn:E.
  destruct (generateAudiobook_readings w p r tb E) as (Hr & Hp & _ & Hu).
  rewrite Hr in Hok. subst r. rewrite Hp, Hu, app_nil_r. clear Hr Hp Hu.
  apply run_body_cases in E.
  destruct E as [(e & k & He & _) | (text & url & _ & _ & E)]; [discriminate|].
  cbv zeta in E.
  destruct E as [(k & chunk & e & bodies & _ & _ & _ & He & _)
                | (bodies & _ & _ & Hup & [(m & _ & He & _) | (Hst & Hs & Hu)])];
    try discriminate.
  injection Hs as ->. split; [reflexivity|]. split.
  - exists (Buffer_concat bodies). split; [exact Hup | exact Hst].
  - exists (base_updates
            ++ chunk_updates (length (splitText text maxChunkChars))
                             (length (splitText text maxChunkChars))
            ++ [progress_only 90]).
    split.
    + rewrite Hu. unfold ready_update. rewrite <- !app_assoc. reflexivity.
    + apply Forall_app. split; [apply base_updates_in_progress|].
      apply Forall_app. split; [apply chunk_updates_in_progress|].
      repeat constructor.
Qed.

End Success.

Section SuccessScenario.
Import JS Task PdfParseTask Trace Stub.

Lemma success_is_recorded_witness :
  exists s,
    fst (generateAudiobook book upload_job) = Ok s
    /\ s = mkSuccess (jobId upload_job) (outputPath (jobId upload_job)).
Proof.
  eexists. split; [vm_compute; reflexivity|].
  apply (success_is_recorded book upload_job). vm_compute. reflexivity.
Defined.

End SuccessScenario.
